(** * Emotion-aware tutor: signal pipeline, reward and LinUCB self-check

    A shallow embedding of the numerical core of the front end:
    - [lib/ferMapping.ts]   ([clamp01], [normalizeFer], [mapSevenToFer], [ema]),
    - [src/lib/reward.ts] and [src/store/reward.ts] ([computeReward], [PRESETS]),
    - [src/lib/audioCapture.ts] (class [MicStreamer]),
    - [src/hooks/useVoiceEmotion.ts] (the [onChunk] fusion step),
    - [src/lib/policy/__tests__/linucb.selfcheck.ts] (class [LinUCB]).

    Numbers.  A JavaScript number is modelled by [num]: a rational, or one
    of the three special values NaN, +Infinity, -Infinity.  Arithmetic on
    finite values is exact (the rounding of binary64 and of the binary32
    elements of a [Float32Array], overflow and the sign of zero are not
    modelled); the special values follow the IEEE rules the code relies on
    (NaN is contagious and compares false with everything,
    Infinity - Infinity is NaN, and so on).  Integer counters and byte
    offsets are in [Z].  Statements that depend on exactness say so; where
    rounding decides what the code does (the determinant test of
    [LinUCB.inverse]) the arithmetic is also given on binary64 numbers, in
    [Binary64]. *)

From stdpp Require Import base option list gmap strings.
From Stdlib Require Import ZArith QArith Qround Qabs Lqa Lia.
From Stdlib Require Floats.PrimFloat.

Local Open Scope Z_scope.

(* ================================================================== *)
(** ** JavaScript numbers *)
(* ================================================================== *)

Module JS.

Inductive num : Type :=
| NaN
| PInf
| NInf
| Fin (q : Q).

Definition Qltb (a b : Q) : bool :=
  match (a ?= b)%Q with Lt => true | _ => false end.

Definition Qleb (a b : Q) : bool :=
  match (a ?= b)%Q with Gt => false | _ => true end.

Definition Qeqb (a b : Q) : bool :=
  match (a ?= b)%Q with Eq => true | _ => false end.

(** [x < y] *)
Definition lt (x y : num) : bool :=
  match x, y with
  | NaN, _ | _, NaN => false
  | Fin a, Fin b => Qltb a b
  | NInf, NInf => false
  | NInf, _ => true
  | PInf, _ => false
  | Fin _, PInf => true
  | Fin _, NInf => false
  end.

(** [x <= y] *)
Definition le (x y : num) : bool :=
  match x, y with
  | NaN, _ | _, NaN => false
  | Fin a, Fin b => Qleb a b
  | NInf, _ => true
  | PInf, PInf => true
  | PInf, _ => false
  | Fin _, PInf => true
  | Fin _, NInf => false
  end.

(** [x > y] and [x >= y] *)
Definition gt (x y : num) : bool := lt y x.
Definition ge (x y : num) : bool := le y x.

(** [x === y] on numbers *)
Definition strict_eq (x y : num) : bool :=
  match x, y with
  | Fin a, Fin b => Qeqb a b
  | PInf, PInf | NInf, NInf => true
  | _, _ => false
  end.

Definition neg (x : num) : num :=
  match x with
  | NaN => NaN
  | PInf => NInf
  | NInf => PInf
  | Fin a => Fin (- a)
  end.

Definition add (x y : num) : num :=
  match x, y with
  | NaN, _ | _, NaN => NaN
  | PInf, NInf | NInf, PInf => NaN
  | PInf, _ | _, PInf => PInf
  | NInf, _ | _, NInf => NInf
  | Fin a, Fin b => Fin (a + b)
  end.

Definition sub (x y : num) : num := add x (neg y).

(** The sign of a number that is not NaN. *)
Definition sign (x : num) : comparison :=
  match x with
  | NaN => Eq
  | PInf => Gt
  | NInf => Lt
  | Fin a => (a ?= 0)%Q
  end.

Definition mul (x y : num) : num :=
  match x, y with
  | NaN, _ | _, NaN => NaN
  | Fin a, Fin b => Fin (a * b)
  | _, _ =>
      match sign x, sign y with
      | Eq, _ | _, Eq => NaN
      | Gt, Gt | Lt, Lt => PInf
      | _, _ => NInf
      end
  end.

(** Division.  A zero divisor is taken to be +0. *)
Definition div (x y : num) : num :=
  match x, y with
  | NaN, _ | _, NaN => NaN
  | Fin a, Fin b =>
      if Qeqb b 0 then
        match (a ?= 0)%Q with Eq => NaN | Gt => PInf | Lt => NInf end
      else Fin (a / b)
  | Fin _, _ => Fin 0
  | _, Fin b =>
      match sign x, Qltb b 0 with
      | Gt, false | Lt, true => PInf
      | _, _ => NInf
      end
  | _, _ => NaN
  end.

Definition Number_isNaN (x : num) : bool :=
  match x with NaN => true | _ => false end.

Definition Number_isFinite (x : num) : bool :=
  match x with Fin _ => true | _ => false end.

Definition Math_max (x y : num) : num :=
  match x, y with
  | NaN, _ | _, NaN => NaN
  | _, _ => if lt x y then y else x
  end.

Definition Math_min (x y : num) : num :=
  match x, y with
  | NaN, _ | _, NaN => NaN
  | _, _ => if lt y x then y else x
  end.

Definition Math_abs (x : num) : num :=
  match x with
  | NaN => NaN
  | PInf | NInf => PInf
  | Fin a => Fin (Qabs a)
  end.

Definition Math_floor (x : num) : num :=
  match x with
  | Fin a => Fin (inject_Z (Qfloor a))
  | _ => x
  end.

(** [Math.round] rounds to the nearest integer, halves upwards. *)
Definition Math_round (x : num) : num :=
  match x with
  | Fin a => Fin (inject_Z (Qfloor (a + (1 # 2))))
  | _ => x
  end.

(** [Math.sqrt].  The square root of a non-negative rational is in general
    irrational; [sqrtQ] stands for it and is a parameter of every
    definition that takes a square root. *)
Definition Math_sqrt (sqrtQ : Q -> Q) (x : num) : num :=
  match x with
  | NaN | NInf => NaN
  | PInf => PInf
  | Fin a => if Qltb a 0 then NaN else Fin (sqrtQ a)
  end.

(** Reading [a[k]] in an arithmetic expression: an index that is not an
    integer inside the array gives [undefined], which is NaN there. *)
Definition index (a : list num) (k : num) : num :=
  match k with
  | Fin q =>
      if Qeqb q (inject_Z (Qfloor q)) && (0 <=? Qfloor q)%Z
      then nth (Z.to_nat (Qfloor q)) a NaN
      else NaN
  | _ => NaN
  end.

(** Equality of numbers as values: rationals are compared by [Qeq]. *)
Definition num_eq (x y : num) : Prop :=
  match x, y with
  | NaN, NaN | PInf, PInf | NInf, NInf => True
  | Fin a, Fin b => (a == b)%Q
  | _, _ => False
  end.

Definition of_Z (z : Z) : num := Fin (inject_Z z).

End JS.

Import JS.

Declare Scope num_scope.
Delimit Scope num_scope with num.
Bind Scope num_scope with num.
Infix "+" := add : num_scope.
Infix "-" := sub : num_scope.
Infix "*" := mul : num_scope.
Infix "/" := div : num_scope.
Infix "<?" := lt : num_scope.
Infix "<=?" := le : num_scope.
Infix ">?" := gt : num_scope.
Infix ">=?" := ge : num_scope.
Infix "===" := strict_eq (at level 70) : num_scope.
Infix "=n=" := num_eq (at level 70) : num_scope.

(* ================================================================== *)
(** ** lib/ferMapping.ts *)
(* ================================================================== *)

Module FerMapping.

Record FerVector : Type := mkFer { pos : num; neu : num; fru : num }.

Definition clamp01 (x : num) : num :=
  if Number_isNaN x || negb (Number_isFinite x) then Fin 0
  else Math_max (Fin 0) (Math_min (Fin 1) x).

Definition normalizeFer (vec : FerVector) : FerVector :=
  let p := clamp01 (pos vec) in
  let n := clamp01 (neu vec) in
  let f := clamp01 (fru vec) in
  let sum := (p + n + f)%num in
  if (sum <=? Fin 0)%num then
    mkFer (Fin 1 / Fin 3)%num (Fin 1 / Fin 3)%num (Fin 1 / Fin 3)%num
  else mkFer (p / sum)%num (n / sum)%num (f / sum)%num.

Definition ema (prev current : FerVector) (alpha : num) : FerVector :=
  let next :=
    mkFer (alpha * pos prev + (Fin 1 - alpha) * pos current)%num
          (alpha * neu prev + (Fin 1 - alpha) * neu current)%num
          (alpha * fru prev + (Fin 1 - alpha) * fru current)%num in
  normalizeFer next.

(** [x || 0] for an entry [x] of the class vector: a missing entry, NaN
    and 0 give 0. *)
Definition or_zero (x : option num) : num :=
  match x with
  | None | Some NaN => Fin 0
  | Some (Fin q) => if Qeqb q 0 then Fin 0 else Fin q
  | Some y => y
  end.

(** Order of the classes: angry, disgust, fear, happy, sad, surprise,
    neutral. *)
Definition mapSevenToFer (prob7 : list num) : FerVector :=
  let angry := or_zero (prob7 !! 0%nat) in
  let disgust := or_zero (prob7 !! 1%nat) in
  let fear := or_zero (prob7 !! 2%nat) in
  let happy := or_zero (prob7 !! 3%nat) in
  let sad := or_zero (prob7 !! 4%nat) in
  let surprise := or_zero (prob7 !! 5%nat) in
  let neutral := or_zero (prob7 !! 6%nat) in
  let pos := (happy + surprise)%num in
  let fru := (sad + angry + fear + disgust)%num in
  let neu := neutral in
  normalizeFer (mkFer pos neu fru).

(** The default value of [ema]'s third parameter. *)
Definition ema_default_alpha : num := Fin (7 # 10).

End FerMapping.

(* ================================================================== *)
(** ** src/store/reward.ts and src/lib/reward.ts *)
(* ================================================================== *)

Module RewardStore.

Inductive RewardPreset : Type := baseline | aggressive | conservative | custom.

Record Weights : Type := mkWeights { w_alpha : num; w_beta : num; w_gamma : num }.

Record RewardWeightsState : Type := mkState
  { alpha : num; beta : num; gamma : num; preset : RewardPreset }.

(** The table [PRESETS]; it has no entry for [custom]. *)
Definition PRESETS (p : RewardPreset) : option Weights :=
  match p with
  | baseline => Some (mkWeights (Fin 1) (Fin (3 # 10)) (Fin (5 # 10)))
  | aggressive => Some (mkWeights (Fin 1) (Fin (5 # 10)) (Fin (7 # 10)))
  | conservative => Some (mkWeights (Fin 1) (Fin (2 # 10)) (Fin (3 # 10)))
  | custom => None
  end.

Definition PRESETS_baseline : Weights :=
  mkWeights (Fin 1) (Fin (3 # 10)) (Fin (5 # 10)).

(** Initial state of [useRewardWeightsStore]. *)
Definition initial : RewardWeightsState :=
  mkState (w_alpha PRESETS_baseline) (w_beta PRESETS_baseline)
          (w_gamma PRESETS_baseline) baseline.

Definition setWeights (weights : Weights) (s : RewardWeightsState)
  : RewardWeightsState :=
  mkState (w_alpha weights) (w_beta weights) (w_gamma weights) custom.

Definition setPreset (p : RewardPreset) (s : RewardWeightsState)
  : RewardWeightsState :=
  match PRESETS p with
  | None => mkState (alpha s) (beta s) (gamma s) p
  | Some weights =>
      mkState (w_alpha weights) (w_beta weights) (w_gamma weights) p
  end.

Definition resetToBaseline (s : RewardWeightsState) : RewardWeightsState :=
  let weights := PRESETS_baseline in
  mkState (w_alpha weights) (w_beta weights) (w_gamma weights) baseline.

End RewardStore.

Module Reward.

Import RewardStore.

Definition clamp01 (x : num) : num := Math_max (Fin 0) (Math_min (Fin 1) x).

Definition clampNeg1to1 (x : num) : num :=
  Math_max (Fin (-1)) (Math_min (Fin 1) x).

(** [computeReward] reads the weights from the store; the store's state is
    an explicit argument here. *)
Definition computeReward (store : RewardWeightsState)
    (correct engagement deltaM : num) : num :=
  let e := clampNeg1to1 engagement in
  let d := clamp01 deltaM in
  (alpha store * correct + beta store * e + gamma store * d)%num.

Record FerState : Type := mkFerState
  { positive : num; neutral : num; frustrated : num }.

Definition computeEngagement (fer : FerState) : num :=
  (positive fer - frustrated fer)%num.

Definition computeMasteryGain (prevMastery currentMastery : num) : num :=
  clamp01 (currentMastery - prevMastery)%num.

End Reward.

(* ================================================================== *)
(** ** Exceptions *)
(* ================================================================== *)

(** A computation that may throw. *)
Inductive result (A : Type) : Type :=
| Ok (a : A)
| Throw (e : string).
Arguments Ok {A} a.
Arguments Throw {A} e.

Definition rbind {A B : Type} (m : result A) (k : A -> result B) : result B :=
  match m with
  | Ok a => k a
  | Throw e => Throw e
  end.

Notation "x <-- m ;; k" := (rbind m (fun x => k))
  (at level 100, m at next level, right associativity).

(* ================================================================== *)
(** ** src/lib/audioCapture.ts *)
(* ================================================================== *)

Module AudioCapture.

Record ChunkSignature : Type := mkSig { rms : num; peak : num; mean : num }.

Module Meta.

Record MicChunkMeta : Type := mk
  { seq : Z;
    sampleCount : Z;
    durationSec : num;
    approxBytes : Z;
    rms : num;
    peak : num;
    mean : num;
    duplicate : bool;
    sent : bool;
    timestamp : Z }.

End Meta.

Definition MicChunkMeta : Type := Meta.MicChunkMeta.

(** [Omit<MicChunkMeta, "duplicate" | "sent">], completed by the caller. *)
Definition MetaBase : Type := bool -> bool -> MicChunkMeta.

(** What the streamer does to the outside: calls of [onChunkMeta] and of
    [onChunk] (with the bytes of the WAV blob), in order. *)
Inductive event : Type :=
| OnChunkMeta (meta : MicChunkMeta)
| OnChunk (wav : list Z).

Record MicStreamerOptions : Type := mkOptions
  { opt_chunkSeconds : option num;
    opt_debug : bool;
    opt_duplicateThreshold : option num;
    opt_onChunkMeta : bool (* is a metadata callback given? *) }.

(** The read-only fields of a [MicStreamer]. *)
Record Config : Type := mkConfig
  { chunkSeconds : num;
    debug : bool;
    duplicateThreshold : num;
    onChunkMeta : bool }.

Definition targetSr : Z := 16000.
Definition maxConsecutiveDuplicates : Z := 5.

Definition constructor (options : MicStreamerOptions) : Config :=
  let chunkSeconds := default (Fin 1) (opt_chunkSeconds options) in
  mkConfig (Math_max (Fin (1 # 4)) chunkSeconds)
           (opt_debug options)
           (Math_max (Fin (1 # 1000000))
                     (default (Fin (1 # 10000)) (opt_duplicateThreshold options)))
           (opt_onChunkMeta options).

(** The mutable fields of a [MicStreamer]. *)
Record State : Type := mkSt
  { buffer : list (list num);
    samplesCollected : Z;
    actualSr : num;
    chunkSeq : Z;
    lastSignature : option ChunkSignature;
    consecutiveDuplicates : Z }.

Definition initial : State := mkSt [] 0 (of_Z 16000) 0 None 0.

(** The state part of [stop()]. *)
Definition stop (st : State) : State := mkSt [] 0 (of_Z 16000) 0 None 0.

Definition isDuplicate (cfg : Config) (st : State) (signature : ChunkSignature)
  : bool :=
  match lastSignature st with
  | None => false
  | Some last =>
      let isQuiet := (rms signature <? Fin (1 # 100))%num
                     && (rms last <? Fin (1 # 100))%num in
      let threshold :=
        if isQuiet then (duplicateThreshold cfg * Fin 10)%num
        else duplicateThreshold cfg in
      let diffRms := Math_abs (rms signature - rms last)%num in
      let diffPeak := Math_abs (peak signature - peak last)%num in
      let diffMean := Math_abs (mean signature - mean last)%num in
      (diffRms <=? threshold)%num && (diffPeak <=? threshold)%num
      && (diffMean <=? threshold)%num && negb isQuiet
  end.

Definition buildMeta (seq sampleCount : Z) (signature : ChunkSignature)
    (now : Z) : MetaBase :=
  fun duplicate sent =>
    Meta.mk seq sampleCount
            (of_Z sampleCount / of_Z targetSr)%num
            (44 + sampleCount * 4)
            (rms signature) (peak signature) (mean signature)
            duplicate sent now.

(** *** DataView over a byte buffer *)

Definition in_range (view : list Z) (offset size : Z) : bool :=
  (0 <=? offset) && (offset + size <=? Z.of_nat (length view)).

Definition setUint8 (view : list Z) (offset v : Z) : result (list Z) :=
  if in_range view offset 1
  then Ok (<[Z.to_nat offset := v mod 256]> view)
  else Throw "RangeError".

(** Little-endian writes. *)
Definition setUint16 (view : list Z) (offset v : Z) : result (list Z) :=
  if in_range view offset 2
  then Ok (<[Z.to_nat (offset + 1) := (v / 256) mod 256]>
           (<[Z.to_nat offset := v mod 256]> view))
  else Throw "RangeError".

Definition setUint32 (view : list Z) (offset v : Z) : result (list Z) :=
  if in_range view offset 4
  then Ok (<[Z.to_nat (offset + 3) := (v / 16777216) mod 256]>
           (<[Z.to_nat (offset + 2) := (v / 65536) mod 256]>
           (<[Z.to_nat (offset + 1) := (v / 256) mod 256]>
           (<[Z.to_nat offset := v mod 256]> view))))
  else Throw "RangeError".

Fixpoint writeChars (view : list Z) (offset : Z) (chars : list Ascii.ascii)
  : result (list Z) :=
  match chars with
  | [] => Ok view
  | c :: rest =>
      view' <-- setUint8 view offset (Z.of_nat (Ascii.nat_of_ascii c)) ;;
      writeChars view' (offset + 1) rest
  end.

Definition writeString (view : list Z) (offset : Z) (s : string)
  : result (list Z) :=
  writeChars view offset (String.list_ascii_of_string s).

Section Streamer.

(** [Math.sqrt] on non-negative rationals. *)
Variable sqrtQ : Q -> Q.
(** The IEEE-754 binary32 bit pattern of a sample, as an unsigned 32-bit
    integer: what [setFloat32] stores. *)
Variable float32_bits : num -> Z.

Definition setFloat32 (view : list Z) (offset : Z) (v : num) : result (list Z) :=
  setUint32 view offset (float32_bits v).

Fixpoint writeSamples (view : list Z) (offset : Z) (samples : list num)
  : result (list Z) :=
  match samples with
  | [] => Ok view
  | s :: rest =>
      view' <-- setFloat32 view offset s ;;
      writeSamples view' (offset + 4) rest
  end.

Definition encodeWavFloat32Mono (samples : list num) (sampleRate : Z)
  : result (list Z) :=
  let numFrames := Z.of_nat (length samples) in
  let buffer := replicate (Z.to_nat (44 + numFrames * 4)) 0 in
  (* RIFF header *)
  view <-- writeString buffer 0 "RIFF" ;;
  view <-- setUint32 view 4 (36 + numFrames * 4) ;;
  view <-- writeString view 8 "WAVE" ;;
  (* fmt chunk *)
  view <-- writeString view 12 "fmt " ;;
  view <-- setUint32 view 16 16 ;;
  view <-- setUint16 view 20 3 ;;
  view <-- setUint16 view 22 1 ;;
  view <-- setUint32 view 24 sampleRate ;;
  view <-- setUint32 view 28 (sampleRate * 4) ;;
  view <-- setUint16 view 32 4 ;;
  view <-- setUint16 view 34 32 ;;
  (* data chunk *)
  view <-- writeString view 36 "data" ;;
  view <-- setUint32 view 40 (numFrames * 4) ;;
  writeSamples view 44 samples.

Definition computeSignature (samples : list num) : ChunkSignature :=
  let '(sumSquares, peak, sum) :=
    fold_left
      (fun '(sumSquares, peak, sum) value =>
         let mag := Math_abs value in
         ((sumSquares + value * value)%num,
          (if (mag >? peak)%num then mag else peak),
          (sum + value)%num))
      samples (Fin 0, Fin 0, Fin 0) in
  let len := of_Z (Z.of_nat (length samples)) in
  mkSig (Math_sqrt sqrtQ (sumSquares / len)%num) peak (sum / len)%num.

(** [new Float32Array(len)]: the length of the new array, or a
    [RangeError]. *)
Definition new_Float32Array (len : num) : result nat :=
  match len with
  | NaN => Ok O
  | PInf | NInf => Throw "RangeError"
  | Fin q =>
      let n := if Qltb q 0 then Qceiling q else Qfloor q in
      if (n <? 0)%Z then Throw "RangeError" else Ok (Z.to_nat n)
  end.

Definition resample (input : list num) (fromSr toSr : num)
  : result (list num) :=
  if (fromSr === toSr)%num then Ok input
  else
    let ratio := (toSr / fromSr)%num in
    let inputLength := of_Z (Z.of_nat (length input)) in
    let outputLength := Math_round (inputLength * ratio)%num in
    n <-- new_Float32Array outputLength ;;
    Ok (map
          (fun i : nat =>
             let srcIndex := (of_Z (Z.of_nat i) / ratio)%num in
             let srcIndexFloor := Math_floor srcIndex in
             let srcIndexCeil :=
               Math_min (srcIndexFloor + Fin 1)%num (inputLength - Fin 1)%num in
             let t := (srcIndex - srcIndexFloor)%num in
             (index input srcIndexFloor * (Fin 1 - t)
              + index input srcIndexCeil * t)%num)
          (seq 0 n)).

(** The window handed to the signature: resampled when the context's
    rate is not the target rate. *)
Definition toTargetRate (st : State) (rawChunk : list num) : result (list num) :=
  if negb (actualSr st === of_Z targetSr)%num
  then resample rawChunk (actualSr st) (of_Z targetSr)
  else Ok rawChunk.

Definition emitMeta (cfg : Config) (meta : MicChunkMeta) : list event :=
  if onChunkMeta cfg then [OnChunkMeta meta] else [].

Definition withChunk (st : State) (seq : Z) (signature : ChunkSignature)
    (dups : Z) : State :=
  mkSt (buffer st) (samplesCollected st) (actualSr st) seq (Some signature) dups.

(** One turn of the loop of [onaudioprocess], from the window [rawChunk]
    that [flush] returned; [now] is the value of [Date.now()]. *)
Definition processWindow (cfg : Config) (now : Z) (st : State)
    (rawChunk : list num) : result (State * list event) :=
  chunk <-- toTargetRate st rawChunk ;;
  let signature := computeSignature chunk in
  let seq := chunkSeq st + 1 in
  let metaBase := buildMeta seq (Z.of_nat (length chunk)) signature now in
  let isSilent :=
    (rms signature === Fin 0)%num && (peak signature === Fin 0)%num
    && (mean signature === Fin 0)%num in
  if isSilent then
    Ok (withChunk st seq signature (consecutiveDuplicates st),
        emitMeta cfg (metaBase true false))
  else
    let isDup := isDuplicate cfg st signature in
    let forceSend := (maxConsecutiveDuplicates <=? consecutiveDuplicates st) in
    if isDup && negb forceSend then
      Ok (withChunk st seq signature (consecutiveDuplicates st + 1),
          emitMeta cfg (metaBase true false))
    else
      wav <-- encodeWavFloat32Mono chunk targetSr ;;
      Ok (withChunk st seq signature 0,
          emitMeta cfg (metaBase (isDup && forceSend) true) ++ [OnChunk wav]).

(** Windows processed one after the other. *)
Fixpoint processWindows (cfg : Config) (st : State)
    (windows : list (Z * list num)) : result (State * list event) :=
  match windows with
  | [] => Ok (st, [])
  | (now, rawChunk) :: rest =>
      r1 <-- processWindow cfg now st rawChunk ;;
      r2 <-- processWindows cfg (fst r1) rest ;;
      Ok (fst r2, snd r1 ++ snd r2)
  end.

End Streamer.

End AudioCapture.

(* ================================================================== *)
(** ** src/lib/fusion.ts and src/hooks/useVoiceEmotion.ts *)
(* ================================================================== *)

Module Fusion.

(** [DEFAULT_FUSION_LAMBDA]: the environment's value when it is set
    ([env] is [Number(...)] of it), 0.6 otherwise. *)
Definition DEFAULT_FUSION_LAMBDA (env : option num) : num :=
  default (Fin (6 # 10)) env.

Definition FUSION_LAMBDA (env : option num) : num :=
  Math_min (Fin 1) (Math_max (Fin 0) (DEFAULT_FUSION_LAMBDA env)).

End Fusion.

Module VoiceEmotion.

Import FerMapping.

Module SER.

Record SERResponse : Type := mk
  { pos : num; neu : num; fru : num; vad : option num }.

End SER.

(** The refs of the hook and the fields of the session store it writes. *)
Record State : Type := mkState
  { faceRef : FerVector;
    lambdaRef : option num;
    minVadRef : option num;
    smoothedSerRef : FerVector;
    chunkCounterRef : Z;
    offlineWarnedRef : bool;
    toasts : list string;
    (* session store *)
    voiceFer : SER.SERResponse;
    fusedFer : FerVector;
    fer : Reward.FerState }.

Definition setVoiceFer (ferIn : SER.SERResponse) (st : State) : State :=
  mkState (faceRef st) (lambdaRef st) (minVadRef st) (smoothedSerRef st)
          (chunkCounterRef st) (offlineWarnedRef st) (toasts st)
          ferIn (fusedFer st) (fer st).

Definition setFusedFer (f : FerVector) (st : State) : State :=
  mkState (faceRef st) (lambdaRef st) (minVadRef st) (smoothedSerRef st)
          (chunkCounterRef st) (offlineWarnedRef st) (toasts st)
          (voiceFer st) f (Reward.mkFerState (pos f) (neu f) (fru f)).

Definition smoothSer (current newVal : FerVector) (alpha : num) : FerVector :=
  mkFer (alpha * pos current + (Fin 1 - alpha) * pos newVal)%num
        (alpha * neu current + (Fin 1 - alpha) * neu newVal)%num
        (alpha * fru current + (Fin 1 - alpha) * fru newVal)%num.

Definition smoothSer_default_alpha : num := Fin (7 # 10).

(** [useVoice] as [onChunk] computes it from the response. *)
Definition useVoice (st : State) (res : SER.SERResponse) : bool :=
  (default (Fin 0) (SER.vad res) >=? default (Fin (2 # 10)) (minVadRef st))%num.

(** [onChunk] once [postSER] has answered with [res]. *)
Definition onChunk_response (st : State) (res : SER.SERResponse) : State :=
  let chunkId := chunkCounterRef st + 1 in
  let st := mkState (faceRef st) (lambdaRef st) (minVadRef st)
                    (smoothedSerRef st) chunkId (offlineWarnedRef st)
                    (toasts st) (voiceFer st) (fusedFer st) (fer st) in
  let st := setVoiceFer res st in
  let useVoice := useVoice st res in
  let smoothed :=
    if useVoice
    then smoothSer (smoothedSerRef st)
                   (mkFer (SER.pos res) (SER.neu res) (SER.fru res))
                   smoothSer_default_alpha
    else smoothedSerRef st in
  let st := mkState (faceRef st) (lambdaRef st) (minVadRef st)
                    smoothed (chunkCounterRef st) (offlineWarnedRef st)
                    (toasts st) (voiceFer st) (fusedFer st) (fer st) in
  let lam :=
    Math_max (Fin 0) (Math_min (Fin 1) (default (Fin (6 # 10)) (lambdaRef st))) in
  let face := faceRef st in
  let fused :=
    if useVoice
    then mkFer (lam * pos face + (Fin 1 - lam) * pos (smoothedSerRef st))%num
               (lam * neu face + (Fin 1 - lam) * neu (smoothedSerRef st))%num
               (lam * fru face + (Fin 1 - lam) * fru (smoothedSerRef st))%num
    else face in
  let s := (pos fused + neu fused + fru fused)%num in
  let norm :=
    if (s >? Fin 0)%num
    then mkFer (pos fused / s)%num (neu fused / s)%num (fru fused / s)%num
    else mkFer (Fin 1 / Fin 3)%num (Fin 1 / Fin 3)%num (Fin 1 / Fin 3)%num in
  setFusedFer norm st.

(** [onChunk] when [postSER] fails: the [catch] branch. *)
Definition onChunk_failure (st : State) : State :=
  let chunkId := chunkCounterRef st + 1 in
  let warn := negb (offlineWarnedRef st) in
  let st := mkState (faceRef st) (lambdaRef st) (minVadRef st)
                    (smoothedSerRef st) chunkId true
                    (if warn then toasts st ++ ["Speech emotion offline"]
                     else toasts st)
                    (voiceFer st) (fusedFer st) (fer st) in
  setFusedFer (faceRef st) st.

(** The effect of the hook when [enabled] is false. *)
Definition effect_disabled (st : State) : State :=
  let st := mkState (faceRef st) (lambdaRef st) (minVadRef st)
                    (smoothedSerRef st) 0 (offlineWarnedRef st)
                    (toasts st) (voiceFer st) (fusedFer st) (fer st) in
  setFusedFer (faceRef st) st.

(** One fusion cycle: the hook is disabled, or it is enabled and a chunk
    has been answered by the voice service. *)
Inductive cycle : Type :=
| Disabled
| Answered (res : SER.SERResponse).

Definition run_cycle (st : State) (c : cycle) : State :=
  match c with
  | Disabled => effect_disabled st
  | Answered res => onChunk_response st res
  end.

End VoiceEmotion.

(* ================================================================== *)
(** ** src/lib/policy/__tests__/linucb.selfcheck.ts *)
(* ================================================================== *)

Module LinUCBCheck.

Record LinUCBContext : Type := mkContext
  { A : list (list num); b : list num; ctx_alpha : num }.

Record LinUCB : Type := mkLinUCB
  { contexts : gmap string LinUCBContext; d : nat; alpha : num }.

Definition constructor (d : nat) (alpha : num) : LinUCB := mkLinUCB ∅ d alpha.

Definition getOrCreateContext (self : LinUCB) (armId : string)
  : LinUCB * LinUCBContext :=
  match contexts self !! armId with
  | Some context => (self, context)
  | None =>
      let A := replicate (d self) (replicate (d self) (Fin 0)) in
      let b := replicate (d self) (Fin 0) in
      let context := mkContext A b (alpha self) in
      (mkLinUCB (<[armId := context]> (contexts self)) (d self) (alpha self),
       context)
  end.

Definition inverse (self : LinUCB) (matrix : list (list num))
  : result (list (list num)) :=
  if negb (d self =? 2)%nat then Throw "Only 2D supported for self-check"
  else
    match matrix with
    | r0 :: r1 :: _ =>
        let a := nth 0 r0 NaN in
        let b := nth 1 r0 NaN in
        let c := nth 0 r1 NaN in
        let d := nth 1 r1 NaN in
        let det := (a * d - b * c)%num in
        if (Math_abs det <? Fin (1 # 10000000000))%num then
          Ok [[Fin 1; Fin 0]; [Fin 0; Fin 1]]
        else
          Ok [[(d / det)%num; (neg b / det)%num];
              [(neg c / det)%num; (a / det)%num]]
    | _ => Throw "TypeError"
    end.

Definition dotProduct (a b : list num) : num :=
  fold_left (fun sum iv => (sum + snd iv * nth (fst iv) b NaN)%num)
            (combine (seq 0 (length a)) a) (Fin 0).

Definition matrixVectorMultiply (matrix : list (list num)) (vector : list num)
  : list num :=
  map (fun row => dotProduct row vector) matrix.

Definition quadraticForm (matrix : list (list num)) (vector : list num) : num :=
  let mv := matrixVectorMultiply matrix vector in
  dotProduct vector mv.

Section Score.

Variable sqrtQ : Q -> Q.

Definition selectArm (self : LinUCB) (features : list num) (armId : string)
  : result (LinUCB * num) :=
  let '(self, context) := getOrCreateContext self armId in
  AInv <-- inverse self (A context) ;;
  let theta := matrixVectorMultiply AInv (b context) in
  let p := dotProduct theta features in
  let confidence :=
    (alpha self * Math_sqrt sqrtQ (quadraticForm AInv features))%num in
  Ok (self, (p + confidence)%num).

End Score.

(** [context.A[i][j] += v] *)
Definition addAt2 (M : list (list num)) (i j : nat) (v : num)
  : list (list num) :=
  <[i := <[j := (nth j (nth i M []) NaN + v)%num]> (nth i M [])]> M.

(** [context.b[i] += v] *)
Definition addAt (l : list num) (i : nat) (v : num) : list num :=
  <[i := (nth i l NaN + v)%num]> l.

Definition update (self : LinUCB) (features : list num) (reward : num)
    (armId : string) : LinUCB :=
  let '(self, context) := getOrCreateContext self armId in
  let context' :=
    fold_left
      (fun ctx i =>
         let A' :=
           fold_left
             (fun M j =>
                addAt2 M i j (nth i features NaN * nth j features NaN)%num)
             (seq 0 (d self)) (A ctx) in
         mkContext A' (addAt (b ctx) i (nth i features NaN * reward)%num)
                   (ctx_alpha ctx))
      (seq 0 (d self)) context in
  mkLinUCB (<[armId := context']> (contexts self)) (d self) (alpha self).

End LinUCBCheck.

(* ================================================================== *)
(** ** Notions of the specification *)
(* ================================================================== *)

Module FerSpec.

Import FerMapping.

(** Clamping to [0,1] as the specification words it: a component that is
    NaN or infinite counts as 0, one below 0 as 0, one above 1 as 1. *)
Definition clamp_spec (x : num) : Q :=
  match x with
  | Fin q => if Qleb q 0 then 0 else if Qleb 1 q then 1 else q
  | _ => 0
  end.

Definition uniform : FerVector := mkFer (Fin (1 # 3)) (Fin (1 # 3)) (Fin (1 # 3)).

(** A valid emotion vector: finite, non-negative components of sum 1. *)
Definition valid (v : FerVector) : Prop :=
  exists p n f : Q,
    v = mkFer (Fin p) (Fin n) (Fin f)
    /\ (0 <= p)%Q /\ (0 <= n)%Q /\ (0 <= f)%Q /\ (p + n + f == 1)%Q.

(** Equality of vectors, component by component. *)
Definition fer_eq (v w : FerVector) : Prop :=
  (pos v =n= pos w)%num /\ (neu v =n= neu w)%num /\ (fru v =n= fru w)%num.

End FerSpec.

Module RewardSpec.

(** "[x] clamped to [[lo, hi]]". *)
Definition clamp_to (lo hi : Q) (x : num) : num :=
  match x with
  | NaN => NaN
  | PInf => Fin hi
  | NInf => Fin lo
  | Fin q => if Qleb q lo then Fin lo else if Qleb hi q then Fin hi else Fin q
  end.

End RewardSpec.

Module AudioSpec.

Import AudioCapture.

(** RMS, peak and mean are all exactly zero. *)
Definition silent (signature : ChunkSignature) : bool :=
  (rms signature === Fin 0)%num && (peak signature === Fin 0)%num
  && (mean signature === Fin 0)%num.

(** Both chunks are quiet: RMS below 0.01. *)
Definition bothQuiet (last signature : ChunkSignature) : bool :=
  (rms signature <? Fin (1 # 100))%num && (rms last <? Fin (1 # 100))%num.

(** The three components differ by at most [threshold]. *)
Definition within (threshold : num) (last signature : ChunkSignature) : bool :=
  (Math_abs (rms signature - rms last) <=? threshold)%num
  && (Math_abs (peak signature - peak last) <=? threshold)%num
  && (Math_abs (mean signature - mean last) <=? threshold)%num.

(** A lower approximation of the square root to six decimals, to run the
    model on examples. *)
Definition sqrt_micro (q : Q) : Q :=
  Z.sqrt (Qnum q * Zpos (Qden q) * 1000000000000) # (Qden q * 1000000).

(** A stand-in for the binary32 encoding, to run the model on examples:
    the sample in units of 2^-23, modulo 2^32. *)
Definition bits_example (x : num) : Z :=
  match x with
  | Fin q => Qfloor (q * 8388608) mod 4294967296
  | _ => 2143289344
  end.

End AudioSpec.

Module ResampleSpec.

(** The linear blend of two samples at the fraction [t]. *)
Definition blend (x y : num) (t : Q) : num :=
  (x * Fin (1 - t) + y * Fin t)%num.

(** Rounding to the nearest integer, halves upwards. *)
Definition round (q : Q) : Z := Qfloor (q + (1 # 2)).

End ResampleSpec.

Module LinUCBSpec.

(** The [d] by [d] identity matrix scaled by [c]. *)
Definition scaled_identity (d : nat) (c : num) : list (list num) :=
  map (fun i => map (fun j => if (i =? j)%nat then c else Fin 0) (seq 0 d))
      (seq 0 d).

(** Equality of matrices, entry by entry. *)
Definition matrix_eq (M M' : list (list num)) : Prop :=
  Forall2 (Forall2 num_eq) M M'.

End LinUCBSpec.

(* ================================================================== *)
(** ** Concrete inputs *)
(* ================================================================== *)

Module Examples.

Import FerMapping FerSpec.

(** The options the hook passes to the streamer, with a metadata callback. *)
Definition example_options : AudioCapture.MicStreamerOptions :=
  AudioCapture.mkOptions (Some (Fin (5 # 2))) false (Some (Fin (1 # 10000))) true.

Import VoiceEmotion.

Definition example_state : State :=
  mkState (mkFer (Fin (1 # 2)) (Fin (1 # 4)) (Fin (1 # 4)))
          (Some (Fin (6 # 10))) (Some (Fin (2 # 10)))
          (mkFer (Fin (1 # 5)) (Fin (3 # 5)) (Fin (1 # 5)))
          0 false []
          (SER.mk (Fin (1 # 3)) (Fin (1 # 3)) (Fin (1 # 3)) (Some (Fin 0)))
          uniform
          (Reward.mkFerState (Fin (1 # 3)) (Fin (1 # 3)) (Fin (1 # 3))).

Definition example_reading : SER.SERResponse :=
  SER.mk (Fin (1 # 10)) (Fin (8 # 10)) (Fin (1 # 10)) (Some (Fin (1 # 10))).

End Examples.

(* ================================================================== *)
(** ** src/lib/audioCapture.ts: accumulation and the loop of
       [onaudioprocess] *)
(* ================================================================== *)

Module MicLoop.

Import AudioCapture.

(** The loop of [flush]: blocks are taken from the front of the queue
    until [remaining] samples are copied; a block that is only partly
    used is put back at the front. *)
Fixpoint flush_loop (buffer : list (list num)) (remaining : nat)
  : list num * list (list num) :=
  match buffer with
  | [] => ([], [])
  | buf :: rest =>
      match remaining with
      | O => ([], buffer)
      | S _ =>
          let copy := Nat.min (length buf) remaining in
          if (copy <? length buf)%nat
          then (take copy buf, drop copy buf :: rest)
          else
            let r := flush_loop rest (remaining - copy) in
            (buf ++ fst r, snd r)
      end
  end.

(** [flush(needed)], for the integer [needed] that [Math.floor] gave.
    The output array has [needed] zero-initialised elements; what the
    queue does not fill stays 0. *)
Definition flush (st : State) (needed : Z) : result (list num * State) :=
  n <-- new_Float32Array (of_Z needed) ;;
  let r := flush_loop (buffer st) n in
  let out := fst r ++ replicate (n - length (fst r)) (Fin 0) in
  Ok (out,
      mkSt (snd r) (Z.max 0 (samplesCollected st - needed)) (actualSr st)
           (chunkSeq st) (lastSignature st) (consecutiveDuplicates st)).

Section Loop.

Variable sqrtQ : Q -> Q.
Variable float32_bits : num -> Z.

(** [while (this.samplesCollected >= needed) { ... }]; [clock] gives the
    value of [Date.now()] for the window of each sequence number.  The
    loop runs for at most [fuel] windows: [None] when that is not enough. *)
Fixpoint windowLoop (fuel : nat) (cfg : Config) (clock : Z -> Z) (st : State)
    (needed : num) : option (result (State * list event)) :=
  if negb (of_Z (samplesCollected st) >=? needed)%num then Some (Ok (st, []))
  else
    match fuel with
    | O => None
    | S fuel' =>
        match needed with
        | Fin q =>
            match flush st (Qfloor q) with
            | Throw e => Some (Throw e)
            | Ok (rawChunk, st1) =>
                match processWindow sqrtQ float32_bits cfg
                        (clock (chunkSeq st1 + 1)) st1 rawChunk with
                | Throw e => Some (Throw e)
                | Ok (st2, ev) =>
                    match windowLoop fuel' cfg clock st2 needed with
                    | Some (Ok (st3, ev')) => Some (Ok (st3, ev ++ ev'))
                    | other => other
                    end
                end
            end
        | _ => Some (Throw "RangeError")
        end
    end.

(** The handler [onaudioprocess] for one input block [inBuf]. *)
Definition onaudioprocess (fuel : nat) (cfg : Config) (clock : Z -> Z)
    (st : State) (inBuf : list num) : option (result (State * list event)) :=
  let st1 :=
    mkSt (buffer st ++ [inBuf])
         (samplesCollected st + Z.of_nat (length inBuf))
         (actualSr st) (chunkSeq st) (lastSignature st)
         (consecutiveDuplicates st) in
  let needed := Math_floor (actualSr st1 * chunkSeconds cfg)%num in
  windowLoop fuel cfg clock st1 needed.

End Loop.

(** The number of samples in the queue. *)
Definition queued (st : State) : Z := Z.of_nat (length (concat (buffer st))).

End MicLoop.

Module StreamSpec.

Import AudioCapture.

(** The metadata records among the events, in order. *)
Definition metas (events : list event) : list Meta.MicChunkMeta :=
  omap (fun e => match e with OnChunkMeta m => Some m | OnChunk _ => None end)
       events.

(** The blobs handed to the chunk handler, in order. *)
Definition blobs (events : list event) : list (list Z) :=
  omap (fun e => match e with OnChunk w => Some w | OnChunkMeta _ => None end)
       events.

(** The window, once brought to the target rate, has the all-zero
    signature. *)
Definition windowSilent (sqrtQ : Q -> Q) (st : State) (rawChunk : list num)
  : bool :=
  match toTargetRate st rawChunk with
  | Ok chunk => AudioSpec.silent (computeSignature sqrtQ chunk)
  | Throw _ => false
  end.

(** The three ways a window ends. *)
Inductive outcome (sqrtQ : Q -> Q) (float32_bits : num -> Z)
    (cfg : Config) (now : Z) (st : State) (chunk : list num)
    (st' : State) (events : list event) : Prop :=
| Silent :
    AudioSpec.silent (computeSignature sqrtQ chunk) = true ->
    st' = withChunk st (chunkSeq st + 1) (computeSignature sqrtQ chunk)
                    (consecutiveDuplicates st) ->
    events = emitMeta cfg (buildMeta (chunkSeq st + 1)
                                     (Z.of_nat (length chunk))
                                     (computeSignature sqrtQ chunk) now true false) ->
    outcome sqrtQ float32_bits cfg now st chunk st' events
| Skipped :
    AudioSpec.silent (computeSignature sqrtQ chunk) = false ->
    isDuplicate cfg st (computeSignature sqrtQ chunk) = true ->
    consecutiveDuplicates st < maxConsecutiveDuplicates ->
    st' = withChunk st (chunkSeq st + 1) (computeSignature sqrtQ chunk)
                    (consecutiveDuplicates st + 1) ->
    events = emitMeta cfg (buildMeta (chunkSeq st + 1)
                                     (Z.of_nat (length chunk))
                                     (computeSignature sqrtQ chunk) now true false) ->
    outcome sqrtQ float32_bits cfg now st chunk st' events
| Sent (wav : list Z) (duplicate : bool) :
    AudioSpec.silent (computeSignature sqrtQ chunk) = false ->
    (isDuplicate cfg st (computeSignature sqrtQ chunk) = false
     \/ maxConsecutiveDuplicates <= consecutiveDuplicates st) ->
    encodeWavFloat32Mono float32_bits chunk targetSr = Ok wav ->
    st' = withChunk st (chunkSeq st + 1) (computeSignature sqrtQ chunk) 0 ->
    events = emitMeta cfg (buildMeta (chunkSeq st + 1)
                                     (Z.of_nat (length chunk))
                                     (computeSignature sqrtQ chunk) now duplicate true)
             ++ [OnChunk wav] ->
    outcome sqrtQ float32_bits cfg now st chunk st' events.

(** A run of the loop body over windows, one outcome after the other. *)
Inductive run (sqrtQ : Q -> Q) (float32_bits : num -> Z) (cfg : Config)
  : State -> list (Z * list num) -> State -> list event -> Prop :=
| run_nil (st : State) : run sqrtQ float32_bits cfg st [] st []
| run_cons (st : State) (now : Z) (rawChunk chunk : list num)
    (rest : list (Z * list num)) (st1 : State) (ev1 : list event)
    (st2 : State) (ev2 : list event) :
    toTargetRate st rawChunk = Ok chunk ->
    outcome sqrtQ float32_bits cfg now st chunk st1 ev1 ->
    run sqrtQ float32_bits cfg st1 rest st2 ev2 ->
    run sqrtQ float32_bits cfg st ((now, rawChunk) :: rest) st2 (ev1 ++ ev2).

End StreamSpec.

Module WavSpec.

(** Little-endian bytes of an integer field. *)
Definition le16 (v : Z) : list Z := [v mod 256; (v / 256) mod 256].

Definition le32 (v : Z) : list Z :=
  [v mod 256; (v / 256) mod 256; (v / 65536) mod 256;
   (v / 16777216) mod 256].

Definition ascii_bytes (s : string) : list Z :=
  map (fun c => Z.of_nat (Ascii.nat_of_ascii c) mod 256)
      (String.list_ascii_of_string s).

(** The 44 bytes before the samples, for [numFrames] samples. *)
Definition wav_header (numFrames sampleRate : Z) : list Z :=
  ascii_bytes "RIFF" ++ le32 (36 + numFrames * 4) ++ ascii_bytes "WAVE"
  ++ ascii_bytes "fmt " ++ le32 16 ++ le16 3 ++ le16 1
  ++ le32 sampleRate ++ le32 (sampleRate * 4) ++ le16 4 ++ le16 32
  ++ ascii_bytes "data" ++ le32 (numFrames * 4).

(** The whole file: header, then four bytes per sample. *)
Definition wav_file (float32_bits : num -> Z) (samples : list num)
    (sampleRate : Z) : list Z :=
  wav_header (Z.of_nat (length samples)) sampleRate
  ++ concat (map (fun s => le32 (float32_bits s)) samples).

(** Reading an unsigned 32-bit little-endian field at [offset]. *)
Definition read_le32 (view : list Z) (offset : nat) : Z :=
  nth offset view 0 + 256 * nth (offset + 1) view 0
  + 65536 * nth (offset + 2) view 0 + 16777216 * nth (offset + 3) view 0.

End WavSpec.

Module SignatureSpec.

(** A number that is neither NaN nor infinite. *)
Definition is_fin (s : num) : Prop := exists q, s = Fin q.

End SignatureSpec.

(* ================================================================== *)
(** ** lib/ferMapping.ts: [softmax] *)
(* ================================================================== *)

Module Softmax.





(** The sum of a list of numbers, from the left. *)
Definition total (xs : list num) : num := fold_left add xs (Fin 0).


End Softmax.

Module RewardStoreSpec.

Import RewardStore.

(** The actions of the weights store. *)
Inductive action : Type :=
| SetWeights (weights : Weights)
| SetPreset (p : RewardPreset)
| ResetToBaseline.

Definition apply_action (s : RewardWeightsState) (a : action)
  : RewardWeightsState :=
  match a with
  | SetWeights weights => setWeights weights s
  | SetPreset p => setPreset p s
  | ResetToBaseline => resetToBaseline s
  end.

(** The store after a sequence of actions from its initial state. *)
Definition after (actions : list action) : RewardWeightsState :=
  fold_left apply_action actions initial.

(** The label agrees with the weights: under a named preset the weights
    are those of the table. *)
Definition consistent (s : RewardWeightsState) : Prop :=
  forall weights,
    PRESETS (preset s) = Some weights ->
    alpha s = w_alpha weights /\ beta s = w_beta weights
    /\ gamma s = w_gamma weights.

End RewardStoreSpec.

Module LinUCBShape.

Import LinUCBCheck.

(** [M[i][j]] read as a number. *)
Definition entry (M : list (list num)) (i j : nat) : num :=
  nth j (nth i M []) NaN.

(** An arm state of dimension [d]: [A] has [d] rows of [d] entries and
    [b] has [d] entries. *)
Definition shape (d : nat) (context : LinUCBContext) : Prop :=
  length (A context) = d
  /\ Forall (fun row => length row = d) (A context)
  /\ length (b context) = d.

(** A matrix with [d] rows of [d] entries. *)
Definition rect (d : nat) (M : list (list num)) : Prop :=
  length M = d /\ forall i, (i < d)%nat -> length (nth i M []) = d.

(** All arm states of the bandit have its dimension. *)
Definition shaped (self : LinUCB) : Prop :=
  forall armId context,
    contexts self !! armId = Some context -> shape (d self) context.

End LinUCBShape.

Module FusionStart.

Import FerMapping VoiceEmotion.

(** The refs of the hook and the fields of the session store when the
    page is mounted with the face vector [faceFer]: [lambdaRef] holds
    [FUSION_LAMBDA] (0.6 without the environment variable), [minVadRef]
    the store's 0.2; the smoothed voice, the voice reading and the fused
    vector are 1/3 each; the store's [fer] is (0.34, 0.33, 0.33). *)
Definition session_start (faceFer : FerVector) : State :=
  mkState faceFer (Some (Fusion.FUSION_LAMBDA None)) (Some (Fin (2 # 10)))
          (mkFer (Fin 1 / Fin 3)%num (Fin 1 / Fin 3)%num (Fin 1 / Fin 3)%num)
          0 false []
          (SER.mk (Fin 1 / Fin 3)%num (Fin 1 / Fin 3)%num (Fin 1 / Fin 3)%num
                  (Some (Fin 0)))
          (mkFer (Fin 1 / Fin 3)%num (Fin 1 / Fin 3)%num (Fin 1 / Fin 3)%num)
          (Reward.mkFerState (Fin (34 # 100)) (Fin (33 # 100))
                             (Fin (33 # 100))).

End FusionStart.

Module VoiceSpec.

Import FerMapping FerSpec VoiceEmotion.

(** What happens to the hook between mount and unmount: the face vector
    changes (the effect that keeps [faceRef] current), the hook is
    enabled (the effect resets [offlineWarnedRef] before it starts the
    streamer), a cycle runs, or an upload fails. *)
Inductive event : Type :=
| FaceChanged (faceFer : FerVector)
| Enabled
| Ran (c : cycle)
| Failed.

(** A change of the face vector: the page's effect stores it in the
    session with [updateFER] and the hook's effect stores it in
    [faceRef]. *)
Definition setFace (faceFer : FerVector) (st : State) : State :=
  mkState faceFer (lambdaRef st) (minVadRef st) (smoothedSerRef st)
          (chunkCounterRef st) (offlineWarnedRef st) (toasts st)
          (voiceFer st) (fusedFer st)
          (Reward.mkFerState (pos faceFer) (neu faceFer) (fru faceFer)).

Definition effect_enabled (st : State) : State :=
  mkState (faceRef st) (lambdaRef st) (minVadRef st) (smoothedSerRef st)
          (chunkCounterRef st) false (toasts st)
          (voiceFer st) (fusedFer st) (fer st).

Definition step (st : State) (e : event) : State :=
  match e with
  | FaceChanged faceFer => setFace faceFer st
  | Enabled => effect_enabled st
  | Ran c => run_cycle st c
  | Failed => onChunk_failure st
  end.

Definition run (st : State) (es : list event) : State := fold_left step es st.

(** The vectors that come in are valid emotion vectors. *)
Definition event_valid (e : event) : Prop :=
  match e with
  | FaceChanged faceFer => valid faceFer
  | Ran (Answered res) =>
      valid (mkFer (SER.pos res) (SER.neu res) (SER.fru res))
  | _ => True
  end.

(** Face, smoothed voice and fused vector are valid, and so is the
    session's [fer] (which the face updates and the fusion both write). *)
Definition consistent (st : State) : Prop :=
  valid (faceRef st) /\ valid (smoothedSerRef st) /\ valid (fusedFer st)
  /\ valid (mkFer (Reward.positive (fer st)) (Reward.neutral (fer st))
                  (Reward.frustrated (fer st))).

(** Everything that writes the vectors the fusion reads or produces: an
    event of the hook; the microphone failing to start (the [catch] of
    [ms.start()]: one warning, and the fused vector is the face vector);
    a session starting or ending, which resets the session's [fer]. *)
Inductive session_event : Type :=
| Hook (e : event)
| StartFailed
| SessionReset.

Definition start_failed (st : State) : State :=
  let warn := negb (offlineWarnedRef st) in
  let st := mkState (faceRef st) (lambdaRef st) (minVadRef st)
                    (smoothedSerRef st) (chunkCounterRef st) true
                    (if warn then toasts st ++ ["Microphone unavailable"]
                     else toasts st)
                    (voiceFer st) (fusedFer st) (fer st) in
  setFusedFer (faceRef st) st.

Definition session_reset (st : State) : State :=
  mkState (faceRef st) (lambdaRef st) (minVadRef st) (smoothedSerRef st)
          (chunkCounterRef st) (offlineWarnedRef st) (toasts st)
          (voiceFer st) (fusedFer st)
          (Reward.mkFerState (Fin (34 # 100)) (Fin (33 # 100))
                             (Fin (33 # 100))).

Definition session_step (st : State) (e : session_event) : State :=
  match e with
  | Hook e => step st e
  | StartFailed => start_failed st
  | SessionReset => session_reset st
  end.

Definition session_run (st : State) (es : list session_event) : State :=
  fold_left session_step es st.

Definition session_event_valid (e : session_event) : Prop :=
  match e with
  | Hook e => event_valid e
  | _ => True
  end.

Definition has_NaN (v : FerVector) : Prop :=
  pos v = NaN \/ neu v = NaN \/ fru v = NaN.

(** Some component is NaN or infinite. *)
Definition non_finite (v : FerVector) : Prop :=
  Number_isFinite (pos v) = false \/ Number_isFinite (neu v) = false
  \/ Number_isFinite (fru v) = false.

Definition is_infinite (x : num) : bool :=
  match x with PInf | NInf => true | _ => false end.

(** A reading one of whose components is infinite (the JSON number 1e999
    is read as Infinity). *)
Definition infinite_reading (res : SER.SERResponse) : Prop :=
  is_infinite (SER.pos res) = true \/ is_infinite (SER.neu res) = true
  \/ is_infinite (SER.fru res) = true.

Definition is_failed (e : event) : bool :=
  match e with Failed => true | _ => false end.

Definition is_enabled (e : event) : bool :=
  match e with Enabled => true | _ => false end.

Definition example_events : list event :=
  [Ran (Answered (SER.mk (Fin (1 # 10)) (Fin (8 # 10)) (Fin (1 # 10))
                         (Some (Fin (9 # 10)))));
   Failed;
   FaceChanged (mkFer (Fin 0) (Fin 1) (Fin 0));
   Ran (Answered (SER.mk (Fin (1 # 2)) (Fin (1 # 2)) (Fin 0)
                         (Some (Fin (1 # 10)))));
   Failed;
   Ran Disabled].

Definition example_session : list session_event :=
  [SessionReset; Hook Enabled; StartFailed] ++ map Hook example_events.

End VoiceSpec.

(** * src/store/serDebug.ts *)

Module SerDebug.

Import AudioCapture.

Record SerDebugState : Type := mk
  { recentChunks : list Meta.MicChunkMeta;
    lastSent : option Meta.MicChunkMeta;
    duplicateCount : Z;
    sentCount : Z }.

Definition MAX_CHUNKS : nat := 20.

Definition initial : SerDebugState := mk [] None 0 0.

Definition setChunk (meta : Meta.MicChunkMeta) (state : SerDebugState)
  : SerDebugState :=
  let recentChunks := take MAX_CHUNKS (meta :: recentChunks state) in
  let duplicateCount :=
    duplicateCount state + (if Meta.duplicate meta then 1 else 0) in
  let sentCount := sentCount state + (if Meta.sent meta then 1 else 0) in
  let lastSent := if Meta.sent meta then Some meta else lastSent state in
  mk recentChunks lastSent duplicateCount sentCount.

Definition reset (state : SerDebugState) : SerDebugState := initial.

End SerDebug.

Module SerDebugSpec.

Import AudioCapture SerDebug.

(** The store after the streamer's metadata callback has passed it the
    records [ms], oldest first. *)
Definition feed (state : SerDebugState) (ms : list Meta.MicChunkMeta)
  : SerDebugState :=
  fold_left (fun state meta => setChunk meta state) ms state.

Definition example_meta (seq : Z) (duplicate sent : bool)
  : Meta.MicChunkMeta :=
  Meta.mk seq 40000 (Fin (5 # 2)) 160044 (Fin (1 # 10)) (Fin (1 # 2)) (Fin 0)
          duplicate sent (1000 * seq).

End SerDebugSpec.

(** * src/lib/seed.ts *)

Module Seed.

(** [ToInt32] and [ToUint32] of an integer-valued number. *)
Definition toInt32 (z : Z) : Z := (z + 2147483648) mod 4294967296 - 2147483648.
Definition toUint32 (z : Z) : Z := z mod 4294967296.

(** [a | b], [a ^ b], [a >>> n] and [Math.imul(a, b)]. *)
Definition bor (a b : Z) : Z := toInt32 (Z.lor (toInt32 a) (toInt32 b)).
Definition bxor (a b : Z) : Z := toInt32 (Z.lxor (toInt32 a) (toInt32 b)).
Definition ushr (a n : Z) : Z := Z.shiftr (toUint32 a) (n mod 32).
Definition Math_imul (a b : Z) : Z := toInt32 (toInt32 a * toInt32 b).

(** The generator; the seed is an integer. *)
Record SeededRNG : Type := mkRNG { state : Z }.

Definition constructor (seed : Z) : SeededRNG := mkRNG seed.

Definition next (self : SeededRNG) : SeededRNG * num :=
  let state := bor (state self) 0 in
  let state := bor (state + 1831565813) 0 in
  let t := Math_imul (bxor state (ushr state 15)) (bor 1 state) in
  let t := bxor (t + Math_imul (bxor t (ushr t 7)) (bor 61 t)) t in
  (mkRNG state,
   (Fin (inject_Z (ushr (bxor t (ushr t 14)) 0)) / Fin 4294967296)%num).

Definition nextInt (self : SeededRNG) (min max : num) : SeededRNG * num :=
  let r := next self in
  (fst r, (Math_floor (snd r * (max - min + Fin 1)) + min)%num).

Definition nextFloat (self : SeededRNG) (min max : num) : SeededRNG * num :=
  let r := next self in
  (fst r, (snd r * (max - min) + min)%num).

Definition bernoulli (self : SeededRNG) (p : num) : SeededRNG * bool :=
  let r := next self in
  (fst r, (snd r <? p)%num).

End Seed.

(** * src/lib/policy/__tests__/linucb.selfcheck.ts: [runLinucbSelfCheck] *)

Module SelfCheck.

Import Seed LinUCBCheck.

(** The variables of the loop. *)
Record Loop : Type := mkLoop
  { rng : SeededRNG; linucb : LinUCB; correctSelections : Z }.

(** What the note reports: the counts of the run, or the error caught. *)
Inductive Note : Type :=
| Accuracy (accuracy : num) (correctSelections totalIterations : Z)
           (passed : bool)
| FailedWithError (error : string).

Record Outcome : Type := mkOutcome { passed : bool; note : Note }.

Definition totalIterations : nat := 200.

Section Score.

Variable sqrtQ : Q -> Q.

(** One iteration of the loop. *)
Definition iteration (s : Loop) : result Loop :=
  let r0 := nextFloat (rng s) (Fin 0) (Fin 1) in
  let r1 := nextFloat (fst r0) (Fin 0) (Fin 1) in
  let features := [snd r0; snd r1] in
  let optimalArm :=
    if (nth 0 features NaN >? Fin (1 # 2))%num then "arm0" else "arm1" in
  s0 <-- selectArm sqrtQ (linucb s) features "arm0" ;;
  s1 <-- selectArm sqrtQ (fst s0) features "arm1" ;;
  let selectedArm :=
    if (snd s0 >? snd s1)%num then "arm0" else "arm1" in
  let correct := String.eqb selectedArm optimalArm in
  let r2 :=
    if correct then nextFloat (fst r1) (Fin (7 # 10)) (Fin 1)
    else nextFloat (fst r1) (Fin 0) (Fin (3 # 10)) in
  Ok (mkLoop (fst r2)
             (update (fst s1) features (snd r2) selectedArm)
             (correctSelections s + (if correct then 1 else 0))).

Fixpoint iterations (n : nat) (s : Loop) : result Loop :=
  match n with
  | O => Ok s
  | S n => s' <-- iteration s ;; iterations n s'
  end.

Definition runLinucbSelfCheck : Outcome :=
  match iterations totalIterations
          (mkLoop (Seed.constructor 42) (constructor 2 (Fin 1)) 0) with
  | Ok s =>
      let accuracy :=
        (of_Z (correctSelections s) / of_Z (Z.of_nat totalIterations))%num in
      let passed := (accuracy >? Fin (7 # 10))%num in
      mkOutcome passed
                (Accuracy accuracy (correctSelections s)
                          (Z.of_nat totalIterations) passed)
  | Throw error => mkOutcome false (FailedWithError error)
  end.

End Score.

End SelfCheck.

(** * src/lib/policy/__tests__/linucb.selfcheck.ts on binary64 numbers *)

Module Binary64.

Import PrimFloat.

(** The arithmetic of [LinUCB] on one arm's state, with numbers as IEEE
    binary64 values: [inverse], [matrixVectorMultiply], [dotProduct],
    [quadraticForm], the loop of [update] and the score of [selectArm].
    A missing array element is [undefined], which is NaN in arithmetic. *)
Record LinUCBContext : Type := mkContext
  { A : list (list float); b : list float; ctx_alpha : float }.

(** The state [getOrCreateContext] creates. *)
Definition zero_context (d : nat) (alpha : float) : LinUCBContext :=
  mkContext (replicate d (replicate d 0%float)) (replicate d 0%float) alpha.

#[warnings="-inexact-float"] Definition inverse (d : nat) (matrix : list (list float))
  : result (list (list float)) :=
  if negb (d =? 2)%nat then Throw "Only 2D supported for self-check"
  else
    match matrix with
    | r0 :: r1 :: _ =>
        let a := nth 0 r0 nan in
        let b := nth 1 r0 nan in
        let c := nth 0 r1 nan in
        let d := nth 1 r1 nan in
        let det := (a * d - b * c)%float in
        if (abs det <? 1e-10)%float then
          Ok [[1%float; 0%float]; [0%float; 1%float]]
        else
          Ok [[(d / det)%float; (- b / det)%float];
              [(- c / det)%float; (a / det)%float]]
    | _ => Throw "TypeError"
    end.

Definition dotProduct (a b : list float) : float :=
  fold_left (fun sum iv => (sum + snd iv * nth (fst iv) b nan)%float)
            (combine (seq 0 (length a)) a) 0%float.

Definition matrixVectorMultiply (matrix : list (list float))
    (vector : list float) : list float :=
  map (fun row => dotProduct row vector) matrix.

Definition quadraticForm (matrix : list (list float)) (vector : list float)
  : float :=
  let mv := matrixVectorMultiply matrix vector in
  dotProduct vector mv.

(** The score [selectArm] returns for an arm in the state [context];
    [alpha] is the bandit's exploration weight. *)
Definition score (d : nat) (alpha : float) (context : LinUCBContext)
    (features : list float) : result float :=
  AInv <-- inverse d (A context) ;;
  let theta := matrixVectorMultiply AInv (b context) in
  let p := dotProduct theta features in
  let confidence := (alpha * sqrt (quadraticForm AInv features))%float in
  Ok (p + confidence)%float.

(** [context.A[i][j] += v] and [context.b[i] += v] *)
Definition addAt2 (M : list (list float)) (i j : nat) (v : float)
  : list (list float) :=
  <[i := <[j := (nth j (nth i M []) nan + v)%float]> (nth i M [])]> M.

Definition addAt (l : list float) (i : nat) (v : float) : list float :=
  <[i := (nth i l nan + v)%float]> l.

(** The loop of [update] on the arm's state. *)
Definition update (d : nat) (context : LinUCBContext) (features : list float)
    (reward : float) : LinUCBContext :=
  fold_left
    (fun ctx i =>
       let A' :=
         fold_left
           (fun M j =>
              addAt2 M i j (nth i features nan * nth j features nan)%float)
           (seq 0 d) (A ctx) in
       mkContext A' (addAt (b ctx) i (nth i features nan * reward)%float)
                 (ctx_alpha ctx))
    (seq 0 d) context.

(** A new arm of a two-dimensional bandit after one update with the
    features (22.4, 23.1) and the reward 1. *)
#[warnings="-inexact-float"] Definition updated_once : LinUCBContext :=
  update 2 (zero_context 2 1%float) [22.4%float; 23.1%float] 1%float.

End Binary64.

(* ================================================================== *)
(** * Properties *)
(* ================================================================== *)

(** ** Comparisons and arithmetic of numbers *)

Lemma Qltb_true (a b : Q) : Qltb a b = true <-> (a < b)%Q.
Proof.
  unfold Qltb. rewrite Qlt_alt. destruct (a ?= b)%Q; split; congruence.
Qed.

Lemma Qltb_false (a b : Q) : Qltb a b = false <-> (b <= a)%Q.
Proof.
  rewrite <- not_true_iff_false, Qltb_true. split.
  - apply Qnot_lt_le.
  - apply Qle_not_lt.
Qed.

Lemma Qleb_true (a b : Q) : Qleb a b = true <-> (a <= b)%Q.
Proof.
  unfold Qleb. rewrite Qle_alt. destruct (a ?= b)%Q; split; congruence.
Qed.

Lemma Qleb_false (a b : Q) : Qleb a b = false <-> (b < a)%Q.
Proof.
  rewrite <- not_true_iff_false, Qleb_true. split.
  - apply Qnot_le_lt.
  - apply Qlt_not_le.
Qed.

Lemma Qeqb_true (a b : Q) : Qeqb a b = true <-> (a == b)%Q.
Proof.
  unfold Qeqb. rewrite Qeq_alt. destruct (a ?= b)%Q; split; congruence.
Qed.

Lemma Qeqb_false (a b : Q) : Qeqb a b = false <-> ~ (a == b)%Q.
Proof.
  rewrite <- not_true_iff_false, Qeqb_true. tauto.
Qed.

Lemma div_Fin (a b : Q) : ~ (b == 0)%Q -> (Fin a / Fin b)%num = Fin (a / b).
Proof.
  intros Hb. unfold div. apply Qeqb_false in Hb. now rewrite Hb.
Qed.

Lemma lt_not_ge (x y : num) : (x <? y)%num = true -> (x >=? y)%num = false.
Proof.
  unfold ge. destruct x, y; simpl; try congruence.
  rewrite Qltb_true, Qleb_false. auto.
Qed.

Lemma num_eq_refl (x : num) : (x =n= x)%num.
Proof. destruct x; simpl; auto. reflexivity. Qed.

(** ** lib/ferMapping.ts: normalisation *)

Module FerFacts.

Import FerMapping FerSpec.

Lemma clamp01_spec (x : num) : clamp01 x = Fin (clamp_spec x).
Proof.
  destruct x as [| | |q]; try reflexivity.
  unfold clamp01, clamp_spec; simpl.
  destruct (Qltb q 1) eqn:H1; simpl.
  - apply Qltb_true in H1.
    destruct (Qltb 0 q) eqn:H0.
    + apply Qltb_true in H0.
      assert (Qleb q 0 = false) as -> by (apply Qleb_false; exact H0).
      assert (Qleb 1 q = false) as -> by (apply Qleb_false; exact H1).
      reflexivity.
    + apply Qltb_false in H0.
      assert (Qleb q 0 = true) as -> by (apply Qleb_true; exact H0).
      reflexivity.
  - apply Qltb_false in H1.
    assert (Qleb q 0 = false) as -> by (apply Qleb_false; lra).
    assert (Qleb 1 q = true) as -> by (apply Qleb_true; exact H1).
    reflexivity.
Qed.

Lemma clamp_spec_range (x : num) : (0 <= clamp_spec x <= 1)%Q.
Proof.
  destruct x as [| | |q]; simpl; try lra.
  destruct (Qleb q 0) eqn:H0; [lra|].
  destruct (Qleb 1 q) eqn:H1; [lra|].
  apply Qleb_false in H0, H1. lra.
Qed.

Lemma normalizeFer_cases (vec : FerVector) :
  let p := clamp_spec (pos vec) in
  let n := clamp_spec (neu vec) in
  let f := clamp_spec (fru vec) in
  ((p + n + f <= 0)%Q /\ normalizeFer vec = uniform)
  \/ ((0 < p + n + f)%Q
      /\ normalizeFer vec =
         mkFer (Fin (p / (p + n + f))) (Fin (n / (p + n + f)))
               (Fin (f / (p + n + f)))).
Proof.
  intros p n f. unfold normalizeFer.
  rewrite !clamp01_spec. fold p n f. cbn [add].
  cbn [le]. destruct (Qleb (p + n + f) 0) eqn:Hs.
  - left. apply Qleb_true in Hs. split; [exact Hs | reflexivity].
  - right. apply Qleb_false in Hs. split; [exact Hs|].
    rewrite !div_Fin by lra. reflexivity.
Qed.

Lemma Qdiv_nonneg (a s : Q) : (0 <= a)%Q -> (0 < s)%Q -> (0 <= a / s)%Q.
Proof.
  intros Ha Hs. apply Qle_shift_div_l; [exact Hs | lra].
Qed.

Lemma Qdiv3_sum (p n f : Q) :
  (0 < p + n + f)%Q ->
  (p / (p + n + f) + n / (p + n + f) + f / (p + n + f) == 1)%Q.
Proof. intros H. field. lra. Qed.

Lemma normalizeFer_valid (vec : FerVector) : valid (normalizeFer vec).
Proof.
  pose proof (clamp_spec_range (pos vec)) as Hp.
  pose proof (clamp_spec_range (neu vec)) as Hn.
  pose proof (clamp_spec_range (fru vec)) as Hf.
  destruct (normalizeFer_cases vec) as [[_ ->] | [Hs ->]].
  - exists (1 # 3), (1 # 3), (1 # 3). repeat split; lra.
  - eexists _, _, _. split; [reflexivity|].
    repeat split; try (apply Qdiv_nonneg; lra).
    apply Qdiv3_sum, Hs.
Qed.

Lemma mapSevenToFer_valid (prob7 : list num) : valid (mapSevenToFer prob7).
Proof. apply normalizeFer_valid. Qed.

(** C2.  For every input vector, [normalizeFer] returns three finite,
    non-negative components whose sum is 1 within 1e-9, computed from the
    components clamped to [0,1] with NaN and the infinities taken as 0;
    and when the sum of the clamped components is at most 0 the result is
    exactly the uniform vector (1/3, 1/3, 1/3). *)
Theorem normalizeFer_normalized (vec : FerVector) :
  (exists p n f : Q,
      normalizeFer vec = mkFer (Fin p) (Fin n) (Fin f)
      /\ (0 <= p)%Q /\ (0 <= n)%Q /\ (0 <= f)%Q
      /\ (Qabs (p + n + f - 1) <= 1 # 1000000000)%Q)
  /\ (clamp01 NaN = Fin 0 /\ clamp01 PInf = Fin 0 /\ clamp01 NInf = Fin 0
      /\ forall x, clamp01 x = Fin (clamp_spec x)
                   /\ (0 <= clamp_spec x <= 1)%Q)
  /\ ((clamp01 (pos vec) + clamp01 (neu vec) + clamp01 (fru vec)
       <=? Fin 0)%num = true ->
      normalizeFer vec = mkFer (Fin (1 # 3)) (Fin (1 # 3)) (Fin (1 # 3))).
Proof.
  split; [|split].
  - destruct (normalizeFer_valid vec) as (p & n & f & E & Hp & Hn & Hf & Hs).
    exists p, n, f. repeat split; try assumption.
    apply Qabs_case; intros; lra.
  - repeat split; try reflexivity.
    + apply clamp01_spec.
    + apply clamp_spec_range.
    + apply clamp_spec_range.
  - intros H. unfold normalizeFer. rewrite H. reflexivity.
Qed.

(** The silent-input case of C2 at a vector of NaN, -Infinity and -1. *)
Lemma normalizeFer_normalized_witness :
  normalizeFer (mkFer NaN NInf (Fin (-1)))
  = mkFer (Fin (1 # 3)) (Fin (1 # 3)) (Fin (1 # 3)).
Proof.
  apply (normalizeFer_normalized (mkFer NaN NInf (Fin (-1)))).
  reflexivity.
Defined.

(** ** lib/ferMapping.ts: smoothing *)

Lemma clamp_spec_id (q : Q) : (0 <= q <= 1)%Q -> (clamp_spec (Fin q) == q)%Q.
Proof.
  intros [H0 H1]. simpl.
  destruct (Qleb q 0) eqn:E0.
  - apply Qleb_true in E0. lra.
  - destruct (Qleb 1 q) eqn:E1.
    + apply Qleb_true in E1. lra.
    + reflexivity.
Qed.

Lemma Qdiv_one (a s : Q) : (s == 1)%Q -> (a / s == a)%Q.
Proof. intros ->. field. Qed.

(** C3.  A valid emotion vector is a fixed point of the smoothing step:
    for every valid [v] and every [alpha] in [0,1], [ema v v alpha] has
    the components of [v]. *)
Theorem ema_fixed_point (v : FerVector) (a : Q) :
  valid v -> (0 <= a <= 1)%Q -> fer_eq (ema v v (Fin a)) v.
Proof.
  intros (p & n & f & -> & Hp & Hn & Hf & Hs) Ha.
  unfold ema. cbn [pos neu fru mul sub add neg].
  set (p' := (a * p + (1 + - a) * p)%Q).
  set (n' := (a * n + (1 + - a) * n)%Q).
  set (f' := (a * f + (1 + - a) * f)%Q).
  assert (p' == p)%Q as Ep by (unfold p'; ring).
  assert (n' == n)%Q as En by (unfold n'; ring).
  assert (f' == f)%Q as Ef by (unfold f'; ring).
  assert (clamp_spec (Fin p') == p)%Q as Cp
      by (rewrite clamp_spec_id; [exact Ep | lra]).
  assert (clamp_spec (Fin n') == n)%Q as Cn
      by (rewrite clamp_spec_id; [exact En | lra]).
  assert (clamp_spec (Fin f') == f)%Q as Cf
      by (rewrite clamp_spec_id; [exact Ef | lra]).
  destruct (normalizeFer_cases (mkFer (Fin p') (Fin n') (Fin f')))
    as [[Hle _] | [_ ->]]; cbn [pos neu fru] in *.
  - lra.
  - unfold fer_eq; cbn [pos neu fru num_eq].
    repeat split; rewrite Qdiv_one; first [assumption | lra].
Qed.

(** C3 at the uniform vector with the default weight 0.7. *)
Lemma ema_fixed_point_witness :
  fer_eq (ema uniform uniform (Fin (7 # 10))) uniform.
Proof.
  apply (ema_fixed_point uniform (7 # 10)).
  - exists (1 # 3), (1 # 3), (1 # 3). repeat split; lra.
  - lra.
Defined.

End FerFacts.

(** ** src/lib/reward.ts *)

Module RewardFacts.

Import RewardStore Reward RewardSpec.

Lemma clamp_code_spec (lo hi : Q) (x : num) :
  (lo < hi)%Q ->
  Math_max (Fin lo) (Math_min (Fin hi) x) = clamp_to lo hi x.
Proof.
  intros Hlh. destruct x as [| | |q]; cbn.
  - reflexivity.
  - assert (Qltb lo hi = true) as -> by (apply Qltb_true; exact Hlh).
    reflexivity.
  - reflexivity.
  - destruct (Qltb q hi) eqn:H1; cbn.
    + apply Qltb_true in H1.
      destruct (Qltb lo q) eqn:H0.
      * apply Qltb_true in H0.
        assert (Qleb q lo = false) as -> by (apply Qleb_false; exact H0).
        assert (Qleb hi q = false) as -> by (apply Qleb_false; exact H1).
        reflexivity.
      * apply Qltb_false in H0.
        assert (Qleb q lo = true) as -> by (apply Qleb_true; exact H0).
        reflexivity.
    + apply Qltb_false in H1.
      assert (Qltb lo hi = true) as -> by (apply Qltb_true; exact Hlh).
      assert (Qleb q lo = false) as -> by (apply Qleb_false; lra).
      assert (Qleb hi q = true) as -> by (apply Qleb_true; exact H1).
      reflexivity.
Qed.

Lemma clamp01_not_negative (x : num) : (clamp01 x <? Fin 0)%num = false.
Proof.
  unfold clamp01. rewrite clamp_code_spec by lra.
  destruct x as [| | |q]; cbn; try reflexivity.
  destruct (Qleb q 0) eqn:H0; [reflexivity|].
  apply Qleb_false in H0.
  destruct (Qleb 1 q); cbn; apply Qltb_false; lra.
Qed.

Lemma mastery_term_not_negative (g d : num) :
  (Fin 0 <=? g)%num = true -> (g * clamp01 d <? Fin 0)%num = false.
Proof.
  intros Hg.
  pose proof (clamp01_not_negative d) as Hd.
  destruct (clamp01 d) as [| | |c]; destruct g as [| | |q];
    cbn in Hg, Hd; try congruence; try reflexivity.
  - (* q * Infinity *)
    apply Qleb_true in Hg. cbn.
    destruct (q ?= 0)%Q eqn:E; try reflexivity.
    apply Qlt_alt in E. lra.
  - (* Infinity * c *)
    apply Qltb_false in Hd. cbn.
    destruct (c ?= 0)%Q eqn:E; try reflexivity.
    apply Qlt_alt in E. lra.
  - apply Qleb_true in Hg. apply Qltb_false in Hd. cbn. apply Qltb_false.
    apply Qmult_le_0_compat; assumption.
Qed.

(** C4.  The reward is [alpha * correct + beta * e + gamma * d] with [e]
    the engagement clamped to [-1,1] and [d] the mastery gain clamped to
    [0,1]; under the baseline weights (1.0, 0.3, 0.5) the reward of
    (1, 0, 0) is 1 and that of (0, -1, 1) is 0.2; the clamped mastery gain
    is never negative, and neither is its term under a non-negative
    [gamma]. *)
Theorem computeReward_formula :
  (forall store correct engagement deltaM,
      computeReward store correct engagement deltaM
      = (alpha store * correct
         + beta store * clamp_to (-1) 1 engagement
         + gamma store * clamp_to 0 1 deltaM)%num)
  /\ (forall s,
         let store := setPreset baseline s in
         (alpha store, beta store, gamma store)
         = (Fin 1, Fin (3 # 10), Fin (5 # 10))
         /\ (computeReward store (Fin 1) (Fin 0) (Fin 0) =n= Fin 1)%num
         /\ (computeReward store (Fin 0) (Fin (-1)) (Fin 1)
             =n= Fin (2 # 10))%num)
  /\ (computeReward initial (Fin 1) (Fin 0) (Fin 0) =n= Fin 1)%num
  /\ (computeReward initial (Fin 0) (Fin (-1)) (Fin 1) =n= Fin (2 # 10))%num
  /\ (forall prevMastery currentMastery,
         (computeMasteryGain prevMastery currentMastery <? Fin 0)%num = false)
  /\ (forall store deltaM,
         (Fin 0 <=? gamma store)%num = true ->
         (gamma store * clamp01 deltaM <? Fin 0)%num = false).
Proof.
  repeat split.
  - intros. unfold computeReward, clampNeg1to1, clamp01.
    rewrite !clamp_code_spec by lra. reflexivity.
  - intros. apply clamp01_not_negative.
  - intros. apply mastery_term_not_negative. assumption.
Qed.

(** The last part of C4 at the baseline weights and a mastery loss. *)
Lemma computeReward_formula_witness :
  (gamma initial * clamp01 (Fin (-1 # 2)) <? Fin 0)%num = false.
Proof.
  apply (proj2 (proj2 (proj2 (proj2 (proj2 computeReward_formula))))
           initial (Fin (-1 # 2))).
  reflexivity.
Defined.

End RewardFacts.

(** ** src/lib/audioCapture.ts: the WAV encoder *)

Module WavFacts.

Import AudioCapture.

Lemma in_range_true (view : list Z) (offset size : Z) :
  0 <= offset -> offset + size <= Z.of_nat (length view) ->
  in_range view offset size = true.
Proof.
  intros H0 H1. unfold in_range.
  apply andb_true_intro. split; apply Z.leb_le; assumption.
Qed.

Lemma setUint8_ok (view : list Z) (offset v : Z) :
  0 <= offset -> offset + 1 <= Z.of_nat (length view) ->
  exists view', setUint8 view offset v = Ok view'
                /\ length view' = length view.
Proof.
  intros H0 H1. unfold setUint8. rewrite in_range_true by assumption.
  eexists. split; [reflexivity|]. now rewrite length_insert.
Qed.

Lemma setUint16_ok (view : list Z) (offset v : Z) :
  0 <= offset -> offset + 2 <= Z.of_nat (length view) ->
  exists view', setUint16 view offset v = Ok view'
                /\ length view' = length view.
Proof.
  intros H0 H1. unfold setUint16. rewrite in_range_true by assumption.
  eexists. split; [reflexivity|]. now rewrite !length_insert.
Qed.

Lemma setUint32_ok (view : list Z) (offset v : Z) :
  0 <= offset -> offset + 4 <= Z.of_nat (length view) ->
  exists view', setUint32 view offset v = Ok view'
                /\ length view' = length view.
Proof.
  intros H0 H1. unfold setUint32. rewrite in_range_true by assumption.
  eexists. split; [reflexivity|]. now rewrite !length_insert.
Qed.

Lemma writeChars_ok (chars : list Ascii.ascii) :
  forall (view : list Z) (offset : Z),
    0 <= offset ->
    offset + Z.of_nat (length chars) <= Z.of_nat (length view) ->
    exists view', writeChars view offset chars = Ok view'
                  /\ length view' = length view.
Proof.
  induction chars as [|c rest IH]; intros view offset H0 H1; cbn in *.
  - exists view. split; reflexivity.
  - destruct (setUint8_ok view offset (Z.of_nat (Ascii.nat_of_ascii c)))
      as (view1 & E & Hl); [lia | lia |].
    rewrite E. cbn [rbind].
    destruct (IH view1 (offset + 1)) as (view2 & E2 & Hl2);
      [lia | rewrite Hl; lia |].
    exists view2. split; [exact E2 | congruence].
Qed.

Lemma writeString_ok (view : list Z) (offset : Z) (s : string) :
  0 <= offset ->
  offset + Z.of_nat (length (String.list_ascii_of_string s))
  <= Z.of_nat (length view) ->
  exists view', writeString view offset s = Ok view'
                /\ length view' = length view.
Proof. apply writeChars_ok. Qed.

Section Encoder.

Variable float32_bits : num -> Z.

Lemma writeSamples_ok (samples : list num) :
  forall (view : list Z) (offset : Z),
    0 <= offset ->
    offset + 4 * Z.of_nat (length samples) <= Z.of_nat (length view) ->
    exists view', writeSamples float32_bits view offset samples = Ok view'
                  /\ length view' = length view.
Proof.
  induction samples as [|s rest IH]; intros view offset H0 H1; cbn [writeSamples].
  - exists view. split; reflexivity.
  - cbn [length] in H1. unfold setFloat32.
    destruct (setUint32_ok view offset (float32_bits s))
      as (view1 & E & Hl); [lia | lia |].
    rewrite E. cbn [rbind].
    destruct (IH view1 (offset + 4)) as (view2 & E2 & Hl2);
      [lia | rewrite Hl; lia |].
    exists view2. split; [exact E2 | congruence].
Qed.

Ltac write_step HL :=
  match goal with
  | |- context [rbind (setUint32 ?view ?off ?v) _] =>
      let view' := fresh "view" in
      let E := fresh "E" in
      let Hl := fresh "Hl" in
      destruct (setUint32_ok view off v) as (view' & E & Hl);
      [lia | lia | rewrite E; cbn [rbind]; rewrite <- Hl in HL; clear E Hl]
  | |- context [rbind (setUint16 ?view ?off ?v) _] =>
      let view' := fresh "view" in
      let E := fresh "E" in
      let Hl := fresh "Hl" in
      destruct (setUint16_ok view off v) as (view' & E & Hl);
      [lia | lia | rewrite E; cbn [rbind]; rewrite <- Hl in HL; clear E Hl]
  | |- context [rbind (writeString ?view ?off ?s) _] =>
      let view' := fresh "view" in
      let E := fresh "E" in
      let Hl := fresh "Hl" in
      destruct (writeString_ok view off s) as (view' & E & Hl);
      [lia | cbn; lia | rewrite E; cbn [rbind]; rewrite <- Hl in HL; clear E Hl]
  end.

(** The encoder never fails, and its buffer has 44 + 4 * n bytes. *)
Lemma encodeWavFloat32Mono_length (samples : list num) (sampleRate : Z) :
  exists wav,
    encodeWavFloat32Mono float32_bits samples sampleRate = Ok wav
    /\ Z.of_nat (length wav) = 44 + 4 * Z.of_nat (length samples).
Proof.
  unfold encodeWavFloat32Mono.
  set (n := Z.of_nat (length samples)).
  assert (0 <= n) as Hn by (unfold n; lia).
  set (buffer := replicate (Z.to_nat (44 + n * 4)) 0).
  assert (Z.of_nat (length buffer) = 44 + 4 * n) as HL
      by (unfold buffer; rewrite length_replicate; lia).
  clearbody buffer.
  do 13 write_step HL.
  destruct (writeSamples_ok samples view11 44) as (wav & E & Hl);
    [lia | fold n; lia |].
  exists wav. split; [exact E | rewrite Hl; exact HL].
Qed.

End Encoder.

End WavFacts.

(** ** src/lib/audioCapture.ts: silence, duplicates and forced sends *)

Module ChunkFacts.

Import AudioCapture AudioSpec Examples.

Section Streamer.

Variable sqrtQ : Q -> Q.
Variable float32_bits : num -> Z.

Local Abbreviation processWindow := (processWindow sqrtQ float32_bits).
Local Abbreviation processWindows := (processWindows sqrtQ float32_bits).
Local Abbreviation computeSignature := (computeSignature sqrtQ).
Local Abbreviation encodeWav := (encodeWavFloat32Mono float32_bits).

(** What one turn of the loop does, by cases. *)
Lemma processWindow_cases cfg now st rawChunk chunk wav :
  toTargetRate st rawChunk = Ok chunk ->
  encodeWav chunk targetSr = Ok wav ->
  let signature := computeSignature chunk in
  let seq := chunkSeq st + 1 in
  let metaBase := buildMeta seq (Z.of_nat (length chunk)) signature now in
  let isDup := isDuplicate cfg st signature in
  let forceSend := (maxConsecutiveDuplicates <=? consecutiveDuplicates st) in
  processWindow cfg now st rawChunk =
  Ok (if silent signature then
        (withChunk st seq signature (consecutiveDuplicates st),
         emitMeta cfg (metaBase true false))
      else if isDup && negb forceSend then
        (withChunk st seq signature (consecutiveDuplicates st + 1),
         emitMeta cfg (metaBase true false))
      else
        (withChunk st seq signature 0,
         emitMeta cfg (metaBase (isDup && forceSend) true) ++ [OnChunk wav])).
Proof.
  intros Hc Hw. cbv zeta. unfold AudioCapture.processWindow.
  rewrite Hc. cbn [rbind]. fold (silent (computeSignature chunk)).
  destruct (silent (computeSignature chunk)); [reflexivity|].
  destruct (isDuplicate cfg st (computeSignature chunk)
            && negb (maxConsecutiveDuplicates <=? consecutiveDuplicates st));
    [reflexivity|].
  rewrite Hw. reflexivity.
Qed.

Lemma isDuplicate_spec cfg st last signature :
  lastSignature st = Some last ->
  isDuplicate cfg st signature
  = (within (if bothQuiet last signature
             then (duplicateThreshold cfg * Fin 10)%num
             else duplicateThreshold cfg) last signature
     && negb (bothQuiet last signature)).
Proof.
  intros H. unfold isDuplicate. rewrite H. reflexivity.
Qed.

Lemma emitMeta_no_chunk cfg meta wav : ~ In (OnChunk wav) (emitMeta cfg meta).
Proof.
  unfold emitMeta. destruct (onChunkMeta cfg); cbn; [|tauto].
  intros [H|[]]. discriminate.
Qed.

(** C5.  A window whose signature has RMS, peak and mean all exactly zero
    is reported with duplicate=true and sent=false; the chunk handler is
    not called; the last signature becomes this window's signature; and
    the metadata callback (when one is registered) is called once, with
    that record. *)
Theorem silent_window_skipped cfg now st rawChunk chunk :
  toTargetRate st rawChunk = Ok chunk ->
  silent (computeSignature chunk) = true ->
  let meta := buildMeta (chunkSeq st + 1) (Z.of_nat (length chunk))
                        (computeSignature chunk) now true false in
  exists st' events,
    processWindow cfg now st rawChunk = Ok (st', events)
    /\ Meta.duplicate meta = true /\ Meta.sent meta = false
    /\ events = (if onChunkMeta cfg then [OnChunkMeta meta] else [])
    /\ (forall wav, ~ In (OnChunk wav) events)
    /\ lastSignature st' = Some (computeSignature chunk)
    /\ consecutiveDuplicates st' = consecutiveDuplicates st
    /\ chunkSeq st' = chunkSeq st + 1.
Proof.
  intros Hc Hs meta.
  destruct (WavFacts.encodeWavFloat32Mono_length float32_bits chunk targetSr)
    as (wav & Hw & _).
  rewrite (processWindow_cases cfg now st rawChunk chunk wav Hc Hw), Hs.
  eexists _, _. split; [reflexivity|].
  repeat split. intros wav'. apply emitMeta_no_chunk.
Qed.

(** A window of zero samples has the signature (0, 0, 0), given that the
    square root of 0 is 0. *)
Lemma zero_samples_fold (n : nat) :
  forall ss pk sm : Q,
    (ss == 0)%Q -> (pk == 0)%Q -> (sm == 0)%Q ->
    exists ss' pk' sm' : Q,
      fold_left
        (fun '(sumSquares, peak, sum) value =>
           let mag := Math_abs value in
           ((sumSquares + value * value)%num,
            (if (mag >? peak)%num then mag else peak),
            (sum + value)%num))
        (replicate n (Fin 0)) (Fin ss, Fin pk, Fin sm)
      = (Fin ss', Fin pk', Fin sm')
      /\ (ss' == 0)%Q /\ (pk' == 0)%Q /\ (sm' == 0)%Q.
Proof.
  induction n as [|n IH]; intros ss pk sm Hss Hpk Hsm; cbn [replicate fold_left].
  - exists ss, pk, sm. repeat split; assumption.
  - cbn [Math_abs mul add gt lt].
    destruct (Qltb pk (Qabs 0)); apply IH; try assumption; try reflexivity.
    + rewrite Hss. reflexivity.
    + rewrite Hsm. reflexivity.
    + rewrite Hss. reflexivity.
    + rewrite Hsm. reflexivity.
Qed.

Lemma zero_window_silent (n : nat) :
  (forall q, (q == 0)%Q -> (sqrtQ q == 0)%Q) ->
  silent (computeSignature (replicate (S n) (Fin 0))) = true.
Proof.
  intros Hsqrt. unfold AudioCapture.computeSignature.
  destruct (zero_samples_fold (S n) 0 0 0) as (ss & pk & sm & E & Hss & Hpk & Hsm);
    try reflexivity.
  cbv zeta in E. rewrite E, length_replicate. unfold of_Z.
  assert (~ (inject_Z (Z.of_nat (S n)) == 0)%Q) as Hn.
  { change 0%Q with (inject_Z 0). rewrite inject_Z_injective. lia. }
  rewrite !div_Fin by exact Hn.
  assert (ss / inject_Z (Z.of_nat (S n)) == 0)%Q as Hq
      by (rewrite Hss; field; exact Hn).
  assert (sm / inject_Z (Z.of_nat (S n)) == 0)%Q as Hm
      by (rewrite Hsm; field; exact Hn).
  unfold Math_sqrt.
  assert (Qltb (ss / inject_Z (Z.of_nat (S n))) 0 = false) as ->
      by (apply Qltb_false; rewrite Hq; lra).
  unfold silent. cbn [rms peak mean strict_eq].
  apply andb_true_intro. split; [apply andb_true_intro; split|];
    apply Qeqb_true; auto.
Qed.

(** *** The duplicate rule *)

Lemma duplicate_skipped cfg now st rawChunk chunk last :
  toTargetRate st rawChunk = Ok chunk ->
  lastSignature st = Some last ->
  within (duplicateThreshold cfg) last (computeSignature chunk) = true ->
  bothQuiet last (computeSignature chunk) = false ->
  consecutiveDuplicates st < maxConsecutiveDuplicates ->
  let signature := computeSignature chunk in
  let meta := buildMeta (chunkSeq st + 1) (Z.of_nat (length chunk))
                        signature now true false in
  exists st',
    processWindow cfg now st rawChunk = Ok (st', emitMeta cfg meta)
    /\ isDuplicate cfg st signature = true
    /\ Meta.duplicate meta = true /\ Meta.sent meta = false
    /\ (forall wav, ~ In (OnChunk wav) (emitMeta cfg meta))
    /\ lastSignature st' = Some signature
    /\ consecutiveDuplicates st'
       = (if silent signature then consecutiveDuplicates st
          else consecutiveDuplicates st + 1).
Proof.
  intros Hc Hl Hw Hq Hd signature meta.
  destruct (WavFacts.encodeWavFloat32Mono_length float32_bits chunk targetSr)
    as (wav & Hwav & _).
  assert (isDuplicate cfg st signature = true) as Hdup.
  { rewrite (isDuplicate_spec cfg st last signature Hl).
    unfold signature. rewrite Hq, Hw. reflexivity. }
  rewrite (processWindow_cases cfg now st rawChunk chunk wav Hc Hwav).
  fold signature. rewrite Hdup.
  assert ((maxConsecutiveDuplicates <=? consecutiveDuplicates st) = false)
    as -> by (apply Z.leb_gt; exact Hd).
  cbn [andb negb].
  destruct (silent signature); eexists; (split; [reflexivity|]);
    repeat split; intros wav'; apply emitMeta_no_chunk.
Qed.

Lemma quiet_pair_not_duplicate cfg st last signature :
  lastSignature st = Some last ->
  bothQuiet last signature = true ->
  isDuplicate cfg st signature = false.
Proof.
  intros Hl Hq. rewrite (isDuplicate_spec cfg st last signature Hl), Hq.
  apply andb_false_r.
Qed.

Lemma quiet_pair_dispatched cfg now st rawChunk chunk last :
  toTargetRate st rawChunk = Ok chunk ->
  lastSignature st = Some last ->
  bothQuiet last (computeSignature chunk) = true ->
  silent (computeSignature chunk) = false ->
  let signature := computeSignature chunk in
  let meta := buildMeta (chunkSeq st + 1) (Z.of_nat (length chunk))
                        signature now false true in
  exists st' wav,
    processWindow cfg now st rawChunk
    = Ok (st', emitMeta cfg meta ++ [OnChunk wav])
    /\ encodeWav chunk targetSr = Ok wav
    /\ Meta.duplicate meta = false /\ Meta.sent meta = true
    /\ lastSignature st' = Some signature
    /\ consecutiveDuplicates st' = 0.
Proof.
  intros Hc Hl Hq Hs signature meta.
  destruct (WavFacts.encodeWavFloat32Mono_length float32_bits chunk targetSr)
    as (wav & Hwav & _).
  rewrite (processWindow_cases cfg now st rawChunk chunk wav Hc Hwav), Hs.
  rewrite (quiet_pair_not_duplicate cfg st last _ Hl Hq).
  cbn [andb]. exists (withChunk st (chunkSeq st + 1) signature 0), wav.
  repeat split; assumption.
Qed.

Lemma forced_send cfg now st rawChunk chunk :
  toTargetRate st rawChunk = Ok chunk ->
  maxConsecutiveDuplicates <= consecutiveDuplicates st ->
  silent (computeSignature chunk) = false ->
  let signature := computeSignature chunk in
  let meta := buildMeta (chunkSeq st + 1) (Z.of_nat (length chunk))
                        signature now (isDuplicate cfg st signature) true in
  exists st' wav,
    processWindow cfg now st rawChunk
    = Ok (st', emitMeta cfg meta ++ [OnChunk wav])
    /\ encodeWav chunk targetSr = Ok wav
    /\ Meta.sent meta = true
    /\ Meta.duplicate meta = isDuplicate cfg st signature
    /\ lastSignature st' = Some signature
    /\ consecutiveDuplicates st' = 0.
Proof.
  intros Hc Hd Hs signature meta.
  destruct (WavFacts.encodeWavFloat32Mono_length float32_bits chunk targetSr)
    as (wav & Hwav & _).
  rewrite (processWindow_cases cfg now st rawChunk chunk wav Hc Hwav), Hs.
  assert ((maxConsecutiveDuplicates <=? consecutiveDuplicates st) = true)
    as Hf by (apply Z.leb_le; exact Hd).
  rewrite Hf. cbn [negb]. rewrite andb_false_r, andb_true_r.
  exists (withChunk st (chunkSeq st + 1) signature 0), wav.
  repeat split; assumption.
Qed.

(** *** Identical windows in a row *)

Section Identical.

Variables (cfg : Config) (chunk : list num) (wav : list Z) (r p m th : Q).
Hypothesis Hth : duplicateThreshold cfg = Fin th.
Hypothesis Hth0 : (0 <= th)%Q.
Hypothesis Hsig : computeSignature chunk = mkSig (Fin r) (Fin p) (Fin m).
Hypothesis Hloud : (1 # 100 <= r)%Q.
Hypothesis Hwav : encodeWav chunk targetSr = Ok wav.

Local Abbreviation signature := (mkSig (Fin r) (Fin p) (Fin m)).
Local Abbreviation n := (Z.of_nat (length chunk)).

Lemma loud_not_silent : silent signature = false.
Proof.
  unfold silent. cbn [rms strict_eq].
  assert (Qeqb r 0 = false) as -> by (apply Qeqb_false; lra).
  reflexivity.
Qed.

Lemma same_signature_duplicate st :
  lastSignature st = Some signature -> isDuplicate cfg st signature = true.
Proof.
  intros Hl. rewrite (isDuplicate_spec cfg st signature signature Hl).
  assert (bothQuiet signature signature = false) as ->.
  { unfold bothQuiet. cbn [rms lt].
    assert (Qltb r (1 # 100) = false) as -> by (apply Qltb_false; lra).
    reflexivity. }
  rewrite Hth. unfold within. cbn [rms peak mean sub neg add Math_abs le].
  assert (forall x, Qleb (Qabs (x + - x)) th = true) as E.
  { intros x. apply Qleb_true.
    assert (x + - x == 0)%Q as -> by ring. exact Hth0. }
  rewrite !E. reflexivity.
Qed.

Lemma step_first now st :
  toTargetRate st chunk = Ok chunk ->
  lastSignature st = None ->
  processWindow cfg now st chunk
  = Ok (withChunk st (chunkSeq st + 1) signature 0,
        emitMeta cfg (buildMeta (chunkSeq st + 1) n signature now false true)
        ++ [OnChunk wav]).
Proof.
  intros Hc Hl.
  rewrite (processWindow_cases cfg now st chunk chunk wav Hc Hwav).
  rewrite Hsig, loud_not_silent. unfold isDuplicate. rewrite Hl.
  reflexivity.
Qed.

Lemma step_duplicate now st :
  toTargetRate st chunk = Ok chunk ->
  lastSignature st = Some signature ->
  consecutiveDuplicates st < maxConsecutiveDuplicates ->
  processWindow cfg now st chunk
  = Ok (withChunk st (chunkSeq st + 1) signature (consecutiveDuplicates st + 1),
        emitMeta cfg (buildMeta (chunkSeq st + 1) n signature now true false)).
Proof.
  intros Hc Hl Hd.
  rewrite (processWindow_cases cfg now st chunk chunk wav Hc Hwav).
  rewrite Hsig, loud_not_silent, (same_signature_duplicate st Hl).
  assert ((maxConsecutiveDuplicates <=? consecutiveDuplicates st) = false)
    as -> by (apply Z.leb_gt; exact Hd).
  reflexivity.
Qed.

Lemma step_forced now st :
  toTargetRate st chunk = Ok chunk ->
  lastSignature st = Some signature ->
  maxConsecutiveDuplicates <= consecutiveDuplicates st ->
  processWindow cfg now st chunk
  = Ok (withChunk st (chunkSeq st + 1) signature 0,
        emitMeta cfg (buildMeta (chunkSeq st + 1) n signature now true true)
        ++ [OnChunk wav]).
Proof.
  intros Hc Hl Hd.
  rewrite (processWindow_cases cfg now st chunk chunk wav Hc Hwav).
  rewrite Hsig, loud_not_silent, (same_signature_duplicate st Hl).
  assert ((maxConsecutiveDuplicates <=? consecutiveDuplicates st) = true)
    as -> by (apply Z.leb_le; exact Hd).
  reflexivity.
Qed.

(** Seven identical loud windows after a start: the first is sent, the
    next five are skipped as duplicates, the seventh is sent although it
    is a duplicate, and the counter is back at 0. *)
Lemma seven_identical_windows (t1 t2 t3 t4 t5 t6 t7 : Z) :
  exists st',
    processWindows cfg initial
      [(t1, chunk); (t2, chunk); (t3, chunk); (t4, chunk); (t5, chunk);
       (t6, chunk); (t7, chunk)]
    = Ok (st',
          emitMeta cfg (buildMeta 1 n signature t1 false true) ++ [OnChunk wav]
          ++ emitMeta cfg (buildMeta 2 n signature t2 true false)
          ++ emitMeta cfg (buildMeta 3 n signature t3 true false)
          ++ emitMeta cfg (buildMeta 4 n signature t4 true false)
          ++ emitMeta cfg (buildMeta 5 n signature t5 true false)
          ++ emitMeta cfg (buildMeta 6 n signature t6 true false)
          ++ emitMeta cfg (buildMeta 7 n signature t7 true true)
          ++ [OnChunk wav])
    /\ consecutiveDuplicates st' = 0
    /\ lastSignature st' = Some signature.
Proof.
  cbn [AudioCapture.processWindows].
  rewrite step_first by reflexivity. cbn [rbind fst snd].
  do 5 (rewrite step_duplicate by (first [reflexivity | cbn; lia]);
        cbn [rbind fst snd]).
  rewrite step_forced by (first [reflexivity | cbn; lia]).
  cbn [rbind fst snd].
  eexists. split.
  { f_equal. f_equal.
    rewrite <- !app_assoc. cbn [app]. rewrite ?app_nil_r. reflexivity. }
  split; reflexivity.
Qed.

End Identical.

Lemma silent_kept_back cfg now st rawChunk chunk :
  toTargetRate st rawChunk = Ok chunk ->
  silent (computeSignature chunk) = true ->
  processWindow cfg now st rawChunk
  = Ok (withChunk st (chunkSeq st + 1) (computeSignature chunk)
                  (consecutiveDuplicates st),
        if onChunkMeta cfg
        then [OnChunkMeta (buildMeta (chunkSeq st + 1)
                                     (Z.of_nat (length chunk))
                                     (computeSignature chunk) now true false)]
        else []).
Proof.
  intros Hc Hs.
  destruct (WavFacts.encodeWavFloat32Mono_length float32_bits chunk targetSr)
    as (wav & Hw & _).
  rewrite (processWindow_cases cfg now st rawChunk chunk wav Hc Hw), Hs.
  reflexivity.
Qed.

(** C6, as the code has it.  The silence rule comes first: a window
    whose RMS, peak and mean are all exactly 0 never reaches the duplicate
    rule nor the forced send.
    (1) A window whose signature is within the threshold of the previous
    one in RMS, peak and mean, the two not being both quiet (RMS < 0.01),
    is a duplicate: while fewer than 5 windows in a row were skipped it is
    reported duplicate=true, sent=false, the chunk handler is not called,
    and the last signature is updated.
    (2) For the duplicate rule a quiet+quiet pair is never a duplicate,
    and the second window of such a pair, when it is not all-zero, is
    sent with duplicate=false.
    (3) An all-zero window is reported duplicate=true, sent=false and is
    not handed to the chunk handler, whatever the previous signature and
    the counter are (also in a quiet+quiet pair, also after 5 skips); the
    counter is left as it is and the last signature is updated.
    (4) Once 5 windows in a row were skipped, the next window that is not
    all-zero is sent whatever its signature, and the counter is reset
    to 0.
    (5) Seven identical loud windows after a start: sent, five times
    skipped, then sent as a duplicate with the counter back at 0. *)
Theorem duplicate_rule_and_forced_send :
  (forall cfg now st rawChunk chunk last,
      toTargetRate st rawChunk = Ok chunk ->
      lastSignature st = Some last ->
      within (duplicateThreshold cfg) last (computeSignature chunk) = true ->
      bothQuiet last (computeSignature chunk) = false ->
      consecutiveDuplicates st < maxConsecutiveDuplicates ->
      let signature := computeSignature chunk in
      let meta := buildMeta (chunkSeq st + 1) (Z.of_nat (length chunk))
                            signature now true false in
      let events := if onChunkMeta cfg then [OnChunkMeta meta] else [] in
      exists st',
        processWindow cfg now st rawChunk = Ok (st', events)
        /\ isDuplicate cfg st signature = true
        /\ Meta.duplicate meta = true /\ Meta.sent meta = false
        /\ (forall wav, ~ In (OnChunk wav) events)
        /\ lastSignature st' = Some signature
        /\ consecutiveDuplicates st'
           = (if silent signature then consecutiveDuplicates st
              else consecutiveDuplicates st + 1))
  /\ (forall cfg st last signature,
         lastSignature st = Some last ->
         bothQuiet last signature = true ->
         isDuplicate cfg st signature = false)
  /\ (forall cfg now st rawChunk chunk last,
         toTargetRate st rawChunk = Ok chunk ->
         lastSignature st = Some last ->
         bothQuiet last (computeSignature chunk) = true ->
         silent (computeSignature chunk) = false ->
         let signature := computeSignature chunk in
         let meta := buildMeta (chunkSeq st + 1) (Z.of_nat (length chunk))
                               signature now false true in
         exists st' wav,
           processWindow cfg now st rawChunk
           = Ok (st', (if onChunkMeta cfg then [OnChunkMeta meta] else [])
                      ++ [OnChunk wav])
           /\ encodeWav chunk targetSr = Ok wav
           /\ Meta.duplicate meta = false /\ Meta.sent meta = true
           /\ lastSignature st' = Some signature
           /\ consecutiveDuplicates st' = 0)
  /\ (forall cfg now st rawChunk chunk,
         toTargetRate st rawChunk = Ok chunk ->
         silent (computeSignature chunk) = true ->
         let signature := computeSignature chunk in
         let meta := buildMeta (chunkSeq st + 1) (Z.of_nat (length chunk))
                               signature now true false in
         let events := if onChunkMeta cfg then [OnChunkMeta meta] else [] in
         exists st',
           processWindow cfg now st rawChunk = Ok (st', events)
           /\ Meta.duplicate meta = true /\ Meta.sent meta = false
           /\ (forall wav, ~ In (OnChunk wav) events)
           /\ lastSignature st' = Some signature
           /\ consecutiveDuplicates st' = consecutiveDuplicates st)
  /\ (forall cfg now st rawChunk chunk,
         toTargetRate st rawChunk = Ok chunk ->
         maxConsecutiveDuplicates <= consecutiveDuplicates st ->
         silent (computeSignature chunk) = false ->
         let signature := computeSignature chunk in
         let meta := buildMeta (chunkSeq st + 1) (Z.of_nat (length chunk))
                               signature now
                               (isDuplicate cfg st signature) true in
         exists st' wav,
           processWindow cfg now st rawChunk
           = Ok (st', (if onChunkMeta cfg then [OnChunkMeta meta] else [])
                      ++ [OnChunk wav])
           /\ encodeWav chunk targetSr = Ok wav
           /\ Meta.sent meta = true
           /\ Meta.duplicate meta = isDuplicate cfg st signature
           /\ lastSignature st' = Some signature
           /\ consecutiveDuplicates st' = 0)
  /\ (forall cfg chunk wav r p m th t1 t2 t3 t4 t5 t6 t7,
         duplicateThreshold cfg = Fin th ->
         (0 <= th)%Q ->
         computeSignature chunk = mkSig (Fin r) (Fin p) (Fin m) ->
         (1 # 100 <= r)%Q ->
         encodeWav chunk targetSr = Ok wav ->
         let signature := mkSig (Fin r) (Fin p) (Fin m) in
         let n := Z.of_nat (length chunk) in
         let record := fun seq now duplicate sent =>
           if onChunkMeta cfg
           then [OnChunkMeta (buildMeta seq n signature now duplicate sent)]
           else [] in
         exists st',
           processWindows cfg initial
             [(t1, chunk); (t2, chunk); (t3, chunk); (t4, chunk);
              (t5, chunk); (t6, chunk); (t7, chunk)]
           = Ok (st',
                 record 1 t1 false true ++ [OnChunk wav]
                 ++ record 2 t2 true false
                 ++ record 3 t3 true false
                 ++ record 4 t4 true false
                 ++ record 5 t5 true false
                 ++ record 6 t6 true false
                 ++ record 7 t7 true true
                 ++ [OnChunk wav])
           /\ consecutiveDuplicates st' = 0
           /\ lastSignature st' = Some signature).
Proof.
  split; [exact duplicate_skipped|].
  split; [exact quiet_pair_not_duplicate|].
  split; [exact quiet_pair_dispatched|].
  split.
  { intros cfg now st rawChunk chunk Hc Hs signature meta events.
    eexists. split; [apply silent_kept_back; assumption|].
    split; [reflexivity|]. split; [reflexivity|].
    split; [intros wav; apply (emitMeta_no_chunk cfg meta wav)|].
    split; reflexivity. }
  split; [exact forced_send|].
  intros. eapply seven_identical_windows; eassumption.
Qed.

(** *** The size reported in the metadata *)

Lemma In_emitMeta cfg meta meta' :
  In (OnChunkMeta meta') (emitMeta cfg meta) -> meta' = meta.
Proof.
  unfold emitMeta. destruct (onChunkMeta cfg); cbn; [|tauto].
  intros [H|[]]. congruence.
Qed.

(** C10.  The [approxBytes] of a window's metadata is 44 + 4 * sampleCount
    and is the exact length of the buffer that [encodeWavFloat32Mono]
    returns for the window; the encoder never fails.  So it is for every
    record and every blob that [processWindow] hands out. *)
Theorem approxBytes_exact :
  (forall samples seq signature now duplicate sent,
      let meta := buildMeta seq (Z.of_nat (length samples)) signature now
                            duplicate sent in
      exists wav,
        encodeWav samples targetSr = Ok wav
        /\ Meta.approxBytes meta = 44 + 4 * Meta.sampleCount meta
        /\ Meta.sampleCount meta = Z.of_nat (length samples)
        /\ Z.of_nat (length wav) = Meta.approxBytes meta)
  /\ (forall cfg now st rawChunk st' events,
         processWindow cfg now st rawChunk = Ok (st', events) ->
         exists chunk,
           toTargetRate st rawChunk = Ok chunk
           /\ (forall meta,
                  In (OnChunkMeta meta) events ->
                  Meta.sampleCount meta = Z.of_nat (length chunk)
                  /\ Meta.approxBytes meta = 44 + 4 * Meta.sampleCount meta)
           /\ (forall wav,
                  In (OnChunk wav) events ->
                  encodeWav chunk targetSr = Ok wav
                  /\ Z.of_nat (length wav)
                     = 44 + 4 * Z.of_nat (length chunk))).
Proof.
  split.
  - intros samples seq signature now duplicate sent meta.
    destruct (WavFacts.encodeWavFloat32Mono_length float32_bits samples
                targetSr) as (wav & Hw & Hl).
    exists wav. cbn. repeat split; [exact Hw | lia | lia].
  - intros cfg now st rawChunk st' events H.
    destruct (toTargetRate st rawChunk) as [chunk|e] eqn:Hc.
    2:{ unfold AudioCapture.processWindow in H. rewrite Hc in H.
        discriminate. }
    destruct (WavFacts.encodeWavFloat32Mono_length float32_bits chunk
                targetSr) as (wav & Hw & Hl).
    rewrite (processWindow_cases cfg now st rawChunk chunk wav Hc Hw) in H.
    exists chunk. split; [reflexivity|].
    assert (forall meta' sq sg dup snt,
               In (OnChunkMeta meta')
                  (emitMeta cfg (buildMeta sq (Z.of_nat (length chunk))
                                           sg now dup snt)) ->
               Meta.sampleCount meta' = Z.of_nat (length chunk)
               /\ Meta.approxBytes meta' = 44 + 4 * Meta.sampleCount meta')
      as Hmeta.
    { intros meta' sq sg dup snt Hin. apply In_emitMeta in Hin. subst meta'.
      cbn. split; lia. }
    destruct (silent (computeSignature chunk));
      [|destruct (isDuplicate cfg st (computeSignature chunk)
                  && negb (maxConsecutiveDuplicates
                           <=? consecutiveDuplicates st))];
      injection H as <- <-; split.
    + intros meta Hin. eapply Hmeta, Hin.
    + intros w Hin. exfalso. eapply emitMeta_no_chunk, Hin.
    + intros meta Hin. eapply Hmeta, Hin.
    + intros w Hin. exfalso. eapply emitMeta_no_chunk, Hin.
    + intros meta Hin. apply in_app_or in Hin as [Hin|[Hin|[]]].
      * eapply Hmeta, Hin.
      * discriminate.
    + intros w Hin. apply in_app_or in Hin as [Hin|[Hin|[]]].
      * exfalso. eapply emitMeta_no_chunk, Hin.
      * injection Hin as <-. split; [exact Hw | exact Hl].
Qed.

End Streamer.

(** *** The rules at work on concrete windows *)

(** C5 on a window of four zero samples. *)
Lemma silent_window_skipped_witness :
  exists st' meta,
    AudioCapture.processWindow sqrt_micro bits_example
      (constructor example_options) 1000 initial
      [Fin 0; Fin 0; Fin 0; Fin 0]
    = Ok (st', [OnChunkMeta meta])
    /\ Meta.duplicate meta = true /\ Meta.sent meta = false
    /\ consecutiveDuplicates st' = 0.
Proof.
  destruct (silent_window_skipped sqrt_micro bits_example
              (constructor example_options) 1000 initial
              [Fin 0; Fin 0; Fin 0; Fin 0] [Fin 0; Fin 0; Fin 0; Fin 0])
    as (st' & events & E & Hd & Hs & Hev & _ & _ & Hc & _);
    [reflexivity | reflexivity |].
  exists st'. eexists. rewrite E, Hev. cbn [onChunkMeta constructor
    example_options]. repeat split; assumption.
Defined.

(** C6 on seven copies of the window (1/2, -1/2). *)
Lemma duplicate_rule_and_forced_send_witness :
  exists st' events,
    AudioCapture.processWindows sqrt_micro bits_example
      (constructor example_options) initial
      [(1, [Fin (1 # 2); Fin (- 1 # 2)]); (2, [Fin (1 # 2); Fin (- 1 # 2)]);
       (3, [Fin (1 # 2); Fin (- 1 # 2)]); (4, [Fin (1 # 2); Fin (- 1 # 2)]);
       (5, [Fin (1 # 2); Fin (- 1 # 2)]); (6, [Fin (1 # 2); Fin (- 1 # 2)]);
       (7, [Fin (1 # 2); Fin (- 1 # 2)])]
    = Ok (st', events)
    /\ consecutiveDuplicates st' = 0.
Proof.
  edestruct (proj2 (proj2 (proj2 (proj2 (proj2
               (duplicate_rule_and_forced_send sqrt_micro bits_example)))))
               (constructor example_options)
               [Fin (1 # 2); Fin (- 1 # 2)])
    as (st' & E & Hc & _).
  - reflexivity.
  - vm_compute. discriminate.
  - vm_compute. reflexivity.
  - vm_compute. discriminate.
  - vm_compute. reflexivity.
  - exists st'. eexists. split; [exact E | exact Hc].
Defined.

(** C6 as worded fails on all-zero windows.  The window (1/200, -1/200)
    is quiet (RMS 0.005) and so is the all-zero window after it, yet the
    all-zero window is reported duplicate=true and is not sent.  And
    after six copies of the loud window (1/2, -1/2), of which five were
    skipped, an all-zero window is not force-dispatched: it is reported
    sent=false, the chunk handler is not called and the counter stays
    at 5. *)
Lemma silent_window_escapes_duplicate_rule :
  (exists st1 events1 st2 meta,
      AudioCapture.processWindow sqrt_micro bits_example
        (constructor example_options) 1 initial
        [Fin (1 # 200); Fin (- 1 # 200)]
      = Ok (st1, events1)
      /\ lastSignature st1
         = Some (AudioCapture.computeSignature sqrt_micro
                   [Fin (1 # 200); Fin (- 1 # 200)])
      /\ bothQuiet (AudioCapture.computeSignature sqrt_micro
                      [Fin (1 # 200); Fin (- 1 # 200)])
                   (AudioCapture.computeSignature sqrt_micro [Fin 0; Fin 0])
         = true
      /\ AudioCapture.processWindow sqrt_micro bits_example
           (constructor example_options) 2 st1 [Fin 0; Fin 0]
         = Ok (st2, [OnChunkMeta meta])
      /\ Meta.duplicate meta = true /\ Meta.sent meta = false)
  /\ (exists st6 events6 st7 meta,
         AudioCapture.processWindows sqrt_micro bits_example
           (constructor example_options) initial
           [(1, [Fin (1 # 2); Fin (- 1 # 2)]); (2, [Fin (1 # 2); Fin (- 1 # 2)]);
            (3, [Fin (1 # 2); Fin (- 1 # 2)]); (4, [Fin (1 # 2); Fin (- 1 # 2)]);
            (5, [Fin (1 # 2); Fin (- 1 # 2)]); (6, [Fin (1 # 2); Fin (- 1 # 2)])]
         = Ok (st6, events6)
         /\ consecutiveDuplicates st6 = 5
         /\ AudioCapture.processWindow sqrt_micro bits_example
              (constructor example_options) 7 st6 [Fin 0; Fin 0]
            = Ok (st7, [OnChunkMeta meta])
         /\ Meta.duplicate meta = true /\ Meta.sent meta = false
         /\ consecutiveDuplicates st7 = 5).
Proof.
  split.
  - eexists _, _, _, _. split; [vm_compute; reflexivity|].
    split; [vm_compute; reflexivity|]. split; [vm_compute; reflexivity|].
    split; [vm_compute; reflexivity|]. split; reflexivity.
  - eexists _, _, _, _. split; [vm_compute; reflexivity|].
    split; [reflexivity|]. split; [vm_compute; reflexivity|].
    split; [reflexivity|]. split; reflexivity.
Qed.

(** C10 on the window (1/2, -1/2): 52 bytes. *)
Lemma approxBytes_exact_witness :
  exists st' meta wav,
    AudioCapture.processWindow sqrt_micro bits_example
      (constructor example_options) 1000 initial
      [Fin (1 # 2); Fin (- 1 # 2)]
    = Ok (st', [OnChunkMeta meta; OnChunk wav])
    /\ Meta.approxBytes meta = 52 /\ Z.of_nat (length wav) = 52.
Proof.
  assert (exists st' meta wav,
             AudioCapture.processWindow sqrt_micro bits_example
               (constructor example_options) 1000 initial
               [Fin (1 # 2); Fin (- 1 # 2)]
             = Ok (st', [OnChunkMeta meta; OnChunk wav]))
    as (st' & meta & wav & E) by (vm_compute; eauto).
  exists st', meta, wav. split; [exact E|].
  destruct (proj2 (approxBytes_exact sqrt_micro bits_example) _ _ _ _ _ _ E)
    as (chunk & Hc & Hm & Hw).
  injection Hc as <-.
  destruct (Hm meta) as [H1 H2]; [left; reflexivity|].
  destruct (Hw wav) as [_ H3]; [right; left; reflexivity|].
  split; [rewrite H2, H1; reflexivity | exact H3].
Defined.

End ChunkFacts.

(** ** src/lib/audioCapture.ts: resampling *)

Module ResampleFacts.

Import AudioCapture ResampleSpec.

Lemma Qfloor_int (q : Q) (z : Z) : (q == inject_Z z)%Q -> Qfloor q = z.
Proof. intros H. rewrite (Qfloor_comp _ _ H). apply Qfloor_Z. Qed.

Lemma index_int (a : list num) (q : Q) (z : Z) :
  (q == inject_Z z)%Q -> 0 <= z ->
  index a (Fin q) = nth (Z.to_nat z) a NaN.
Proof.
  intros H Hz. unfold index. rewrite (Qfloor_int q z H).
  assert (Qeqb q (inject_Z z) = true) as -> by (apply Qeqb_true; exact H).
  assert ((0 <=? z) = true) as -> by (apply Z.leb_le; exact Hz).
  reflexivity.
Qed.

Lemma new_Float32Array_int (z : Z) :
  0 <= z -> new_Float32Array (Fin (inject_Z z)) = Ok (Z.to_nat z).
Proof.
  intros Hz. unfold new_Float32Array.
  assert (Qltb (inject_Z z) 0 = false) as ->.
  { apply Qltb_false. change 0%Q with (inject_Z 0). rewrite <- Zle_Qle. exact Hz. }
  rewrite Qfloor_Z.
  assert ((z <? 0) = false) as -> by (apply Z.ltb_ge; exact Hz).
  reflexivity.
Qed.

Lemma ratio_pos (sr st : Q) : (0 < sr)%Q -> (0 < st)%Q -> (0 < st / sr)%Q.
Proof.
  intros Hsr Hst. apply Qlt_shift_div_l; [exact Hsr | lra].
Qed.

Lemma nth_map_seq {B : Type} (f : nat -> B) (n i : nat) (d : B) :
  (i < n)%nat -> nth i (map f (seq 0 n)) d = f i.
Proof.
  intros Hi. rewrite (nth_indep _ d (f 0%nat)) by (rewrite length_map, length_seq; exact Hi).
  rewrite map_nth. rewrite seq_nth by exact Hi. reflexivity.
Qed.

(** The source position of every output index lies inside the input. *)
Lemma source_position (N i : Z) (R : Q) :
  (0 < R)%Q -> 0 <= i < round (inject_Z N * R) ->
  let p := (inject_Z i / R)%Q in
  0 <= Qfloor p < N /\ (0 <= p - inject_Z (Qfloor p) < 1)%Q.
Proof.
  intros HR [Hi0 Hi] p. unfold round in Hi.
  pose proof (Qfloor_le (inject_Z N * R + (1 # 2))) as Hfl.
  assert (inject_Z i + 1 <= inject_Z N * R + (1 # 2))%Q as Hi'.
  { eapply Qle_trans; [|exact Hfl].
    change 1%Q with (inject_Z 1). rewrite <- inject_Z_plus, <- Zle_Qle. lia. }
  assert (0 <= p)%Q as Hp0.
  { apply Qle_shift_div_l; [exact HR|].
    assert (0 <= inject_Z i)%Q
      by (change 0%Q with (inject_Z 0); rewrite <- Zle_Qle; exact Hi0).
    lra. }
  assert (p < inject_Z N)%Q as HpN.
  { apply Qlt_shift_div_r; [exact HR | lra]. }
  pose proof (Qfloor_le p) as Hlo.
  pose proof (Qlt_floor p) as Hhi.
  rewrite inject_Z_plus in Hhi. change (inject_Z 1) with 1%Q in Hhi.
  split; [split|split].
  - change 0 with (Qfloor 0). apply Qfloor_resp_le. exact Hp0.
  - rewrite Zlt_Qlt. lra.
  - lra.
  - lra.
Qed.

(** C7.  For rates [fromSr <> toSr] (both positive) and a window of [N]
    samples, [resample] returns [round (N * toSr / fromSr)] samples; the
    sample at index [i] is the linear blend, at the fraction [p - lo], of
    the input samples at [lo] and at [min (lo + 1) (N - 1)], where
    [p = i / (toSr / fromSr)] and [lo] is the integer part of [p]; both
    indices lie inside the input.  For equal rates the window is returned
    as it is. *)
Theorem resample_linear_interpolation (input : list num) (fromSr toSr : Q) :
  let N := Z.of_nat (length input) in
  ((0 < fromSr)%Q -> (0 < toSr)%Q -> ~ (fromSr == toSr)%Q ->
   exists output,
     resample input (Fin fromSr) (Fin toSr) = Ok output
     /\ Z.of_nat (length output) = round (inject_Z N * toSr / fromSr)
     /\ forall i : nat,
          (i < length output)%nat ->
          let p := (inject_Z (Z.of_nat i) / (toSr / fromSr))%Q in
          let lo := Qfloor p in
          let hi := Z.min (lo + 1) (N - 1) in
          0 <= lo < N /\ 0 <= hi < N
          /\ (0 <= p - inject_Z lo < 1)%Q
          /\ nth i output NaN
             = blend (nth (Z.to_nat lo) input NaN)
                     (nth (Z.to_nat hi) input NaN)
                     (p - inject_Z lo))
  /\ ((fromSr == toSr)%Q ->
      resample input (Fin fromSr) (Fin toSr) = Ok input).
Proof.
  intros N. split.
  - intros Hsr Hst Hne.
    pose proof (ratio_pos fromSr toSr Hsr Hst) as HR.
    set (R := (toSr / fromSr)%Q) in *.
    assert (~ (R == 0)%Q) as HR0 by lra.
    assert (round (inject_Z N * toSr / fromSr) = round (inject_Z N * R)) as Hlen.
    { unfold round. apply Qfloor_comp. unfold R. field. lra. }
    assert (0 <= round (inject_Z N * R)) as Hlen0.
    { unfold round. change 0 with (Qfloor 0). apply Qfloor_resp_le.
      assert (0 <= inject_Z N)%Q
        by (change 0%Q with (inject_Z 0); rewrite <- Zle_Qle; unfold N; lia).
      assert (0 <= inject_Z N * R)%Q by (apply Qmult_le_0_compat; lra).
      lra. }
    unfold resample.
    assert ((Fin fromSr === Fin toSr)%num = false) as ->
        by (apply Qeqb_false; exact Hne).
    rewrite (div_Fin toSr fromSr) by lra. fold R.
    cbn [of_Z mul Math_round]. fold N.
    change (Qfloor (inject_Z N * R + (1 # 2))) with (round (inject_Z N * R)).
    rewrite new_Float32Array_int by exact Hlen0. cbn [rbind].
    eexists. split; [reflexivity|].
    rewrite length_map, length_seq, Z2Nat.id by exact Hlen0.
    split; [symmetry; exact Hlen|].
    intros i Hi.
    set (p := (inject_Z (Z.of_nat i) / R)%Q).
    set (lo := Qfloor p).
    set (hi := Z.min (lo + 1) (N - 1)).
    destruct (source_position N (Z.of_nat i) R HR) as [[Hlo0 HloN] Ht];
      [lia|]. fold p lo in Hlo0, HloN, Ht.
    assert (0 <= hi < N) as Hhi by (unfold hi; lia).
    repeat split; try lia; try apply Ht.
    rewrite nth_map_seq by exact Hi.
    unfold of_Z. rewrite (div_Fin _ R HR0). fold p. cbn [Math_floor]. fold lo.
    cbn [add sub neg].
    rewrite (index_int input (inject_Z lo) lo) by (first [reflexivity | lia]).
    assert (Math_min (Fin (inject_Z lo + 1)) (Fin (inject_Z N + - (1)))
            = Fin (if Qltb (inject_Z N + - (1)) (inject_Z lo + 1)
                   then inject_Z N + - (1) else inject_Z lo + 1)%Q) as ->.
    { cbn. destruct (Qltb _ _); reflexivity. }
    rewrite (index_int input _ hi); [reflexivity | | lia].
    change 1%Q with (inject_Z 1). rewrite <- inject_Z_opp, <- !inject_Z_plus.
    unfold hi.
    destruct (Qltb _ _) eqn:E.
    + apply Qltb_true in E. rewrite <- Zlt_Qlt in E.
      rewrite Z.min_r by lia. reflexivity.
    + apply Qltb_false in E. rewrite <- Zle_Qle in E.
      rewrite Z.min_l by lia. reflexivity.
  - intros Heq. unfold resample.
    assert ((Fin fromSr === Fin toSr)%num = true) as ->
        by (apply Qeqb_true; exact Heq).
    reflexivity.
Qed.

(** C7 on four samples taken from 48 kHz to 16 kHz. *)
Lemma resample_linear_interpolation_witness :
  exists output,
    resample [Fin 1; Fin 2; Fin 3; Fin 4] (Fin 48000) (Fin 16000) = Ok output
    /\ Z.of_nat (length output) = 1.
Proof.
  destruct (proj1 (resample_linear_interpolation
                     [Fin 1; Fin 2; Fin 3; Fin 4] 48000 16000))
    as (output & E & Hl & _).
  - reflexivity.
  - reflexivity.
  - intros H. discriminate H.
  - exists output. split; [exact E | exact Hl].
Defined.

End ResampleFacts.

(** ** src/hooks/useVoiceEmotion.ts: gated fusion *)

Module FusionFacts.

Import FerMapping FerSpec VoiceEmotion Examples FusionStart.

Lemma le_not_gt (x y : num) : (x <=? y)%num = true -> (x >? y)%num = false.
Proof.
  unfold gt. destruct x, y; simpl; try congruence.
  rewrite Qleb_true, Qltb_false. auto.
Qed.

(** With the voice gated off, the fused vector is the face vector put
    through the renormalisation. *)
Lemma gated_fused (st : State) (res : SER.SERResponse) :
  useVoice st res = false ->
  let face := faceRef st in
  let s := (pos face + neu face + fru face)%num in
  fusedFer (onChunk_response st res)
  = (if (s >? Fin 0)%num
     then mkFer (pos face / s)%num (neu face / s)%num (fru face / s)%num
     else mkFer (Fin 1 / Fin 3)%num (Fin 1 / Fin 3)%num (Fin 1 / Fin 3)%num)
  /\ smoothedSerRef (onChunk_response st res) = smoothedSerRef st.
Proof.
  intros H. unfold onChunk_response, setVoiceFer, setFusedFer, useVoice in *.
  cbn [faceRef lambdaRef minVadRef smoothedSerRef fusedFer] in *.
  rewrite H. split; reflexivity.
Qed.

Lemma gated_by_vad (st : State) (res : SER.SERResponse) :
  (default (Fin 0) (SER.vad res)
   <? default (Fin (2 # 10)) (minVadRef st))%num = true
  \/ default (Fin 0) (SER.vad res) = NaN
  \/ default (Fin (2 # 10)) (minVadRef st) = NaN ->
  (default (Fin 0) (SER.vad res)
   >=? default (Fin (2 # 10)) (minVadRef st))%num = false.
Proof.
  intros [H|[H|H]].
  - apply lt_not_ge, H.
  - rewrite H. unfold ge.
    destruct (default (Fin (2 # 10)) (minVadRef st)); reflexivity.
  - rewrite H. unfold ge.
    destruct (default (Fin 0) (SER.vad res)); reflexivity.
Qed.

(** C8, as the code has it.
    (1) In a cycle with the voice disabled, the fused vector is the face
    vector, unchanged, and the smoothed voice vector is untouched.
    (2) In a cycle whose reading does not pass the test
    [(vad ?? 0) >= (minVad ?? 0.2)], the smoothed voice vector is
    untouched, and the fused vector is the face vector put through the
    renormalisation: each component divided by the sum of the three, or
    the uniform vector when that sum is not positive.  It is not the face
    vector itself unless the division leaves the face vector as it is.
    (3) The test fails when the VAD is below [minVad], and also when
    the VAD or [minVad] is NaN.
    (4) In a cycle that passes the test, the voice is first smoothed with
    this reading, and the fused vector is
    [lam * face + (1 - lam) * voice] divided by its component sum, or the
    uniform vector when that sum is not positive (in particular when it
    is at most 0). *)
Theorem fusion_gating (st : State) :
  (fusedFer (run_cycle st Disabled) = faceRef st
   /\ smoothedSerRef (run_cycle st Disabled) = smoothedSerRef st)
  /\ (forall res,
         (default (Fin 0) (SER.vad res)
          >=? default (Fin (2 # 10)) (minVadRef st))%num = false ->
         let face := faceRef st in
         let s := (pos face + neu face + fru face)%num in
         smoothedSerRef (run_cycle st (Answered res)) = smoothedSerRef st
         /\ fusedFer (run_cycle st (Answered res))
            = (if (s >? Fin 0)%num
               then mkFer (pos face / s)%num (neu face / s)%num
                          (fru face / s)%num
               else uniform))
  /\ (forall res,
         (default (Fin 0) (SER.vad res)
          <? default (Fin (2 # 10)) (minVadRef st))%num = true
         \/ default (Fin 0) (SER.vad res) = NaN
         \/ default (Fin (2 # 10)) (minVadRef st) = NaN ->
         (default (Fin 0) (SER.vad res)
          >=? default (Fin (2 # 10)) (minVadRef st))%num = false)
  /\ (forall res,
         (default (Fin 0) (SER.vad res)
          >=? default (Fin (2 # 10)) (minVadRef st))%num = true ->
         let voice :=
           smoothSer (smoothedSerRef st)
                     (mkFer (SER.pos res) (SER.neu res) (SER.fru res))
                     (Fin (7 # 10)) in
         let lam :=
           Math_max (Fin 0)
                    (Math_min (Fin 1) (default (Fin (6 # 10)) (lambdaRef st))) in
         let face := faceRef st in
         let mix :=
           mkFer (lam * pos face + (Fin 1 - lam) * pos voice)%num
                 (lam * neu face + (Fin 1 - lam) * neu voice)%num
                 (lam * fru face + (Fin 1 - lam) * fru voice)%num in
         let s := (pos mix + neu mix + fru mix)%num in
         smoothedSerRef (run_cycle st (Answered res)) = voice
         /\ fusedFer (run_cycle st (Answered res))
            = (if (s >? Fin 0)%num
               then mkFer (pos mix / s)%num (neu mix / s)%num (fru mix / s)%num
               else uniform)
         /\ ((s <=? Fin 0)%num = true ->
             fusedFer (run_cycle st (Answered res)) = uniform)).
Proof.
  split; [|split; [|split]].
  - split; reflexivity.
  - intros res Hvad face s. cbn [run_cycle].
    destruct (gated_fused st res Hvad) as [Hf Hs].
    split; [exact Hs | exact Hf].
  - intros res. apply gated_by_vad.
  - intros res Hvad voice lam face mix s. cbn [run_cycle].
    assert (fusedFer (onChunk_response st res)
            = (if (s >? Fin 0)%num
               then mkFer (pos mix / s)%num (neu mix / s)%num (fru mix / s)%num
               else uniform)
            /\ smoothedSerRef (onChunk_response st res) = voice) as [Hf Hs].
    { unfold onChunk_response, setVoiceFer, setFusedFer, useVoice.
      cbn [faceRef lambdaRef minVadRef smoothedSerRef fusedFer].
      rewrite Hvad. split; reflexivity. }
    split; [exact Hs|]. split; [exact Hf|].
    intros Hle. rewrite Hf, (le_not_gt _ _ Hle). reflexivity.
Qed.

(** C8 on a reading with VAD 0.1 under the threshold 0.2: the face
    vector (1/2, 1/4, 1/4) is divided by its sum. *)
Lemma fusion_gating_witness :
  smoothedSerRef (run_cycle example_state (Answered example_reading))
  = smoothedSerRef example_state
  /\ fusedFer (run_cycle example_state (Answered example_reading))
     = mkFer (Fin (1 # 2) / (Fin (1 # 2) + Fin (1 # 4) + Fin (1 # 4)))%num
             (Fin (1 # 4) / (Fin (1 # 2) + Fin (1 # 4) + Fin (1 # 4)))%num
             (Fin (1 # 4) / (Fin (1 # 2) + Fin (1 # 4) + Fin (1 # 4)))%num.
Proof.
  apply (proj1 (proj2 (fusion_gating example_state)) example_reading).
  reflexivity.
Defined.

(** C8 as worded fails: with the face vector (1/5, 1/5, 1/5) and a
    reading with VAD 0.1 under the threshold 0.2, the voice is gated off
    and the fused vector is the uniform vector (1/3, 1/3, 1/3), not the
    face vector. *)
Lemma gated_fused_is_not_the_face :
  (default (Fin 0) (SER.vad example_reading)
   <? default (Fin (2 # 10))
        (minVadRef (session_start
                      (mkFer (Fin (1 # 5)) (Fin (1 # 5)) (Fin (1 # 5))))))%num
  = true
  /\ faceRef (run_cycle
                (session_start (mkFer (Fin (1 # 5)) (Fin (1 # 5)) (Fin (1 # 5))))
                (Answered example_reading))
     = mkFer (Fin (1 # 5)) (Fin (1 # 5)) (Fin (1 # 5))
  /\ fer_eq (fusedFer
               (run_cycle
                  (session_start
                     (mkFer (Fin (1 # 5)) (Fin (1 # 5)) (Fin (1 # 5))))
                  (Answered example_reading)))
            uniform
  /\ ~ fer_eq (fusedFer
                 (run_cycle
                    (session_start
                       (mkFer (Fin (1 # 5)) (Fin (1 # 5)) (Fin (1 # 5))))
                    (Answered example_reading)))
              (mkFer (Fin (1 # 5)) (Fin (1 # 5)) (Fin (1 # 5))).
Proof.
  split; [reflexivity|]. split; [reflexivity|]. split.
  - vm_compute. repeat split; reflexivity.
  - intros [H _]. vm_compute in H. discriminate H.
Qed.

End FusionFacts.

(** ** src/lib/policy/__tests__/linucb.selfcheck.ts *)

Module LinUCBFacts.

Import LinUCBCheck LinUCBSpec.

Lemma map_const_seq {B : Type} (x : B) (n start : nat) :
  map (fun _ : nat => x) (seq start n) = replicate n x.
Proof.
  revert start. induction n as [|n IH]; intros start; cbn; [reflexivity|].
  now rewrite IH.
Qed.

Lemma scaled_identity_zero (d : nat) :
  scaled_identity d (Fin 0) = replicate d (replicate d (Fin 0)).
Proof.
  unfold scaled_identity.
  rewrite <- (map_const_seq (replicate d (Fin 0)) d 0).
  apply map_ext. intros i.
  rewrite <- (map_const_seq (Fin 0) d 0).
  apply map_ext. intros j. destruct (i =? j)%nat; reflexivity.
Qed.

(** C1, as the code has it.  On the first reference to an arm,
    [getOrCreateContext] stores and returns a state whose [A] is the
    [d] by [d] matrix of zeros (the identity scaled by 0) and whose [b]
    is the vector of [d] zeros. *)
Theorem arm_state_created_zero (self : LinUCB) (armId : string) :
  contexts self !! armId = None ->
  let self' := fst (getOrCreateContext self armId) in
  let context := snd (getOrCreateContext self armId) in
  A context = replicate (d self) (replicate (d self) (Fin 0))
  /\ A context = scaled_identity (d self) (Fin 0)
  /\ b context = replicate (d self) (Fin 0)
  /\ ctx_alpha context = alpha self
  /\ contexts self' !! armId = Some context
  /\ d self' = d self /\ alpha self' = alpha self.
Proof.
  intros H. unfold getOrCreateContext. rewrite H. cbn [fst snd A b ctx_alpha
    contexts d alpha].
  repeat split.
  - symmetry. apply scaled_identity_zero.
  - apply lookup_insert_eq.
Qed.

(** C1 at the first reference to an arm of a new two-dimensional bandit. *)
Lemma arm_state_created_zero_witness :
  A (snd (getOrCreateContext (constructor 2 (Fin 1)) "arm0"))
  = [[Fin 0; Fin 0]; [Fin 0; Fin 0]]
  /\ b (snd (getOrCreateContext (constructor 2 (Fin 1)) "arm0"))
     = [Fin 0; Fin 0].
Proof.
  destruct (arm_state_created_zero (constructor 2 (Fin 1)) "arm0")
    as (HA & _ & Hb & _).
  - reflexivity.
  - split; [exact HA | exact Hb].
Defined.

(** C1 as worded fails: the matrix created for a new arm is not the
    identity scaled by any non-zero factor, its diagonal is 0. *)
Lemma arm_state_not_scaled_identity :
  ~ exists c : Q,
      ~ (c == 0)%Q
      /\ matrix_eq (A (snd (getOrCreateContext (constructor 2 (Fin 1)) "arm0")))
                   (scaled_identity 2 (Fin c)).
Proof.
  intros (c & Hc & HM). apply Hc.
  cbn in HM. inversion HM as [|r1 r1' M M' Hrow _]; subst.
  inversion Hrow as [|x x' r r' Hx _]; subst.
  cbn in Hx. symmetry. exact Hx.
Qed.

Section Score.

Variable sqrtQ : Q -> Q.

Lemma inverse_singular (self : LinUCB) (r0 r1 : list num)
    (rest : list (list num)) :
  d self = 2%nat ->
  (Math_abs (nth 0 r0 NaN * nth 1 r1 NaN - nth 1 r0 NaN * nth 0 r1 NaN)
   <? Fin (1 # 10000000000))%num = true ->
  inverse self (r0 :: r1 :: rest) = Ok [[Fin 1; Fin 0]; [Fin 0; Fin 1]].
Proof.
  intros Hd Hdet. unfold inverse. rewrite Hd. cbn [Nat.eqb negb].
  rewrite Hdet. reflexivity.
Qed.

Lemma score_identity (self : LinUCB) (al b0 b1 x y : Q) :
  alpha self = Fin al ->
  let AInv := [[Fin 1; Fin 0]; [Fin 0; Fin 1]] in
  let theta := matrixVectorMultiply AInv [Fin b0; Fin b1] in
  exists q score : Q,
    (0 <= q)%Q /\ (q == x * x + y * y)%Q
    /\ (dotProduct theta [Fin x; Fin y]
        + alpha self * Math_sqrt sqrtQ (quadraticForm AInv [Fin x; Fin y]))%num
       = Fin score
    /\ (score == b0 * x + b1 * y + al * sqrtQ q)%Q.
Proof.
  intros Hal. rewrite Hal. cbn.
  set (q := (0 + x * (0 + 1 * x + 0 * y) + y * (0 + 0 * x + 1 * y))%Q).
  assert (q == x * x + y * y)%Q as Hq by (unfold q; ring).
  assert (0 <= q)%Q as Hq0 by (rewrite Hq; nra).
  assert (Qltb q 0 = false) as -> by (apply Qltb_false; exact Hq0).
  exists q. eexists. split; [exact Hq0|]. split; [exact Hq|].
  split; [reflexivity|]. ring.
Qed.


(** C9, as the code has it.  In dimension 2, whenever the determinant
    [a * d - b * c] computed from the entries of the matrix is below
    1e-10 in absolute value, [inverse] returns the identity matrix, and
    the score of an arm in such a state is [b . x + alpha * sqrt (x . x)];
    so it is for an arm referred to for the first time, whose matrix is
    all zeros.  Numbers are the exact rationals of the model here: the
    test is on the determinant as computed, and nothing is claimed for a
    matrix whose computed determinant is not below the tolerance. *)
Theorem singular_matrix_identity_fallback (self : LinUCB) :
  d self = 2%nat ->
  (forall r0 r1 rest,
      (Math_abs (nth 0 r0 NaN * nth 1 r1 NaN - nth 1 r0 NaN * nth 0 r1 NaN)
       <? Fin (1 # 10000000000))%num = true ->
      inverse self (r0 :: r1 :: rest) = Ok [[Fin 1; Fin 0]; [Fin 0; Fin 1]])
  /\ (forall armId a b c d' b0 b1 ca x y al,
         contexts self !! armId
         = Some (mkContext [[a; b]; [c; d']] [Fin b0; Fin b1] ca) ->
         alpha self = Fin al ->
         (Math_abs (a * d' - b * c) <? Fin (1 # 10000000000))%num = true ->
         exists q score : Q,
           (0 <= q)%Q /\ (q == x * x + y * y)%Q
           /\ selectArm sqrtQ self [Fin x; Fin y] armId
              = Ok (self, Fin score)
           /\ (score == b0 * x + b1 * y + al * sqrtQ q)%Q)
  /\ (forall armId x y al,
         contexts self !! armId = None ->
         alpha self = Fin al ->
         exists q score : Q,
           (0 <= q)%Q /\ (q == x * x + y * y)%Q
           /\ selectArm sqrtQ self [Fin x; Fin y] armId
              = Ok (fst (getOrCreateContext self armId), Fin score)
           /\ (score == al * sqrtQ q)%Q).
Proof.
  intros Hd. split; [|split].
  - intros r0 r1 rest Hdet. apply inverse_singular; assumption.
  - intros armId a b c d' b0 b1 ca x y al Hctx Hal Hdet.
    destruct (score_identity self al b0 b1 x y Hal)
      as (q & score & Hq0 & Hq & Hs & Hv).
    exists q, score. split; [exact Hq0|]. split; [exact Hq|].
    split; [|exact Hv].
    unfold selectArm, getOrCreateContext. rewrite Hctx.
    cbn [A LinUCBCheck.b].
    rewrite (inverse_singular self [a; b] [c; d'] [] Hd Hdet).
    cbn [rbind A LinUCBCheck.b]. rewrite <- Hs. reflexivity.
  - intros armId x y al Hctx Hal.
    destruct (score_identity self al 0 0 x y Hal)
      as (q & score & Hq0 & Hq & Hs & Hv).
    exists q, score. split; [exact Hq0|]. split; [exact Hq|].
    split; [|rewrite Hv; ring].
    unfold selectArm, getOrCreateContext. rewrite Hctx.
    cbn [fst A LinUCBCheck.b alpha]. rewrite Hd. cbn [replicate].
    rewrite (inverse_singular _ [Fin 0; Fin 0] [Fin 0; Fin 0] []);
      [|reflexivity|reflexivity].
    cbn [rbind]. rewrite <- Hs. reflexivity.
Qed.

End Score.

(** C9 at the first reference to an arm of a new two-dimensional bandit. *)
Lemma singular_matrix_identity_fallback_witness :
  exists self' score,
    selectArm AudioSpec.sqrt_micro (constructor 2 (Fin 1))
              [Fin (3 # 5); Fin (4 # 5)] "arm0"
    = Ok (self', Fin score).
Proof.
  destruct (proj2 (proj2 (singular_matrix_identity_fallback
                            AudioSpec.sqrt_micro
                            (constructor 2 (Fin 1)) eq_refl))
              "arm0" (3 # 5) (4 # 5) 1%Q)
    as (q & score & _ & _ & E & _).
  - reflexivity.
  - reflexivity.
  - eexists _, score. exact E.
Defined.

(** C9 as worded fails: in dimension 3 the inversion throws, also on
    the all-zero matrix of a new arm (whose determinant is 0), and so
    does the scoring of the arm. *)
Lemma inverse_fails_outside_dimension_two :
  inverse (constructor 3 (Fin 1))
          (A (snd (getOrCreateContext (constructor 3 (Fin 1)) "arm0")))
  = Throw "Only 2D supported for self-check"
  /\ A (snd (getOrCreateContext (constructor 3 (Fin 1)) "arm0"))
     = [[Fin 0; Fin 0; Fin 0]; [Fin 0; Fin 0; Fin 0]; [Fin 0; Fin 0; Fin 0]]
  /\ selectArm AudioSpec.sqrt_micro (constructor 3 (Fin 1))
               [Fin 1; Fin 0; Fin 0] "arm0"
     = Throw "Only 2D supported for self-check".
Proof. repeat split. Qed.

End LinUCBFacts.

(** ** The determinant test of [inverse] under binary64 rounding *)

Module Binary64Facts.

Import PrimFloat.

(** After one update with the features (22.4, 23.1) the matrix of the arm
    is x x^T, of determinant 0.  On binary64 numbers the determinant
    computed from its entries is about -1.16e-10: the test
    [Math.abs(det) < 1e-10] fails, no identity is substituted, the
    quadratic form of the features (1, 0) is negative and the score is
    NaN.  On the exact numbers of the model the determinant is 0, the
    identity is substituted and the score is 23.4. *)
#[warnings="-inexact-float"] Lemma rounded_determinant_escapes_fallback :
  (exists a b c d,
      Binary64.A Binary64.updated_once = [[a; b]; [c; d]]
      /\ (abs (a * d - b * c) <? 1e-10)%float = false
      /\ (a * d - b * c <? 0)%float = true)
  /\ (exists AInv,
         Binary64.inverse 2 (Binary64.A Binary64.updated_once) = Ok AInv
         /\ AInv <> [[1%float; 0%float]; [0%float; 1%float]]
         /\ (Binary64.quadraticForm AInv [1%float; 0%float] <? 0)%float = true)
  /\ (exists s,
         Binary64.score 2 1%float Binary64.updated_once [1%float; 0%float] = Ok s
         /\ is_nan s = true)
  /\ LinUCBCheck.inverse (LinUCBCheck.constructor 2 (Fin 1))
       [[(Fin (224 # 10) * Fin (224 # 10))%num;
         (Fin (224 # 10) * Fin (231 # 10))%num];
        [(Fin (231 # 10) * Fin (224 # 10))%num;
         (Fin (231 # 10) * Fin (231 # 10))%num]]
     = Ok [[Fin 1; Fin 0]; [Fin 0; Fin 1]]
  /\ (exists self' score,
         LinUCBCheck.selectArm AudioSpec.sqrt_micro
           (LinUCBCheck.update (LinUCBCheck.constructor 2 (Fin 1))
              [Fin (224 # 10); Fin (231 # 10)] (Fin 1) "arm0")
           [Fin 1; Fin 0] "arm0"
         = Ok (self', Fin score)
         /\ (score == 234 # 10)%Q).
Proof.
  split.
  { eexists _, _, _, _. split; [vm_compute; reflexivity|].
    split; vm_compute; reflexivity. }
  split.
  { eexists. split; [vm_compute; reflexivity|].
    split; [intros H; vm_compute in H; discriminate H|].
    vm_compute. reflexivity. }
  split.
  { eexists. split; [vm_compute; reflexivity|]. vm_compute. reflexivity. }
  split; [vm_compute; reflexivity|].
  eexists _, _. split; [vm_compute; reflexivity|]. reflexivity.
Qed.

(** With the identity substituted the score is [b . x + alpha * sqrt (x . x)]
    as computed on binary64 numbers: for a new arm and the finite features
    (1e200, 0) the square overflows and the score is Infinity. *)
#[warnings="-inexact-float"] Lemma fallback_score_overflows :
  Binary64.inverse 2 (Binary64.A (Binary64.zero_context 2 1%float))
  = Ok [[1%float; 0%float]; [0%float; 1%float]]
  /\ Binary64.score 2 1%float (Binary64.zero_context 2 1%float)
                    [1e200%float; 0%float]
     = Ok infinity.
Proof. split; vm_compute; reflexivity. Qed.

End Binary64Facts.

(** ** src/lib/audioCapture.ts: the queue of samples *)

Module FlushFacts.

Import AudioCapture MicLoop.

Lemma flush_loop_spec (buffer : list (list num)) :
  forall remaining : nat,
    fst (flush_loop buffer remaining) = take remaining (concat buffer)
    /\ concat (snd (flush_loop buffer remaining))
       = drop remaining (concat buffer).
Proof.
  induction buffer as [|buf rest IH]; intros remaining.
  - cbn. rewrite take_nil, drop_nil. split; reflexivity.
  - destruct remaining as [|r].
    + cbn. split; reflexivity.
    + cbn [flush_loop concat].
      destruct (Nat.ltb_spec (Nat.min (length buf) (S r)) (length buf))
        as [Hlt|Hge].
      * assert (Nat.min (length buf) (S r) = S r) as -> by lia.
        cbn [fst snd concat]. split.
        -- rewrite take_app_le by lia. reflexivity.
        -- rewrite drop_app_le by lia. reflexivity.
      * assert (Nat.min (length buf) (S r) = length buf) as -> by lia.
        cbn [fst snd]. destruct (IH (S r - length buf)%nat) as [H1 H2].
        split.
        -- rewrite H1. rewrite take_app_ge by lia. reflexivity.
        -- rewrite H2. rewrite drop_app_ge by lia. reflexivity.
Qed.

Lemma flush_spec (st : State) (needed : Z) :
  0 <= needed ->
  exists out st',
    flush st needed = Ok (out, st')
    /\ Z.of_nat (length out) = needed
    /\ out = take (Z.to_nat needed) (concat (buffer st))
             ++ replicate (Z.to_nat needed - length (concat (buffer st)))
                          (Fin 0)
    /\ concat (buffer st') = drop (Z.to_nat needed) (concat (buffer st))
    /\ (needed <= queued st ->
        out ++ concat (buffer st') = concat (buffer st)
        /\ queued st' = queued st - needed)
    /\ samplesCollected st' = Z.max 0 (samplesCollected st - needed)
    /\ chunkSeq st' = chunkSeq st
    /\ lastSignature st' = lastSignature st
    /\ consecutiveDuplicates st' = consecutiveDuplicates st
    /\ actualSr st' = actualSr st.
Proof.
  intros Hn. unfold flush, of_Z.
  rewrite (ResampleFacts.new_Float32Array_int needed Hn). cbn [rbind].
  destruct (flush_loop_spec (buffer st) (Z.to_nat needed)) as [H1 H2].
  eexists _, _. split; [reflexivity|]. cbn [buffer samplesCollected chunkSeq
    lastSignature consecutiveDuplicates actualSr].
  rewrite H1, H2.
  assert (length (take (Z.to_nat needed) (concat (buffer st)))
          = Nat.min (Z.to_nat needed) (length (concat (buffer st)))) as Hlen
      by apply length_take.
  split.
  { rewrite length_app, length_replicate, Hlen. lia. }
  split.
  { rewrite Hlen. f_equal. f_equal. lia. }
  split; [reflexivity|].
  split; [|repeat split].
  intros Hq. unfold queued in *. split.
  - rewrite Hlen.
    replace (Z.to_nat needed
             - Nat.min (Z.to_nat needed) (length (concat (buffer st))))%nat
      with 0%nat by lia.
    cbn [replicate]. rewrite app_nil_r. apply take_drop.
  - cbn [buffer]. rewrite H2, length_drop. lia.
Qed.

(** X1.  [flush] takes the first [needed] queued samples in their order, fills
    up with zeros when fewer are queued, and leaves the other samples
    queued in their order: no sample is lost or repeated at the boundary
    of a window. *)
Theorem flush_takes_prefix (st : State) (needed : Z) :
  0 <= needed ->
  exists out st',
    flush st needed = Ok (out, st')
    /\ Z.of_nat (length out) = needed
    /\ out = take (Z.to_nat needed) (concat (buffer st))
             ++ replicate (Z.to_nat needed - length (concat (buffer st)))
                          (Fin 0)
    /\ concat (buffer st') = drop (Z.to_nat needed) (concat (buffer st))
    /\ (needed <= queued st ->
        out ++ concat (buffer st') = concat (buffer st)
        /\ queued st' = queued st - needed)
    /\ samplesCollected st' = Z.max 0 (samplesCollected st - needed)
    /\ chunkSeq st' = chunkSeq st
    /\ lastSignature st' = lastSignature st
    /\ consecutiveDuplicates st' = consecutiveDuplicates st
    /\ actualSr st' = actualSr st.
Proof. apply flush_spec. Qed.

Lemma flush_takes_prefix_witness :
  exists out st',
    flush (mkSt [[Fin 1; Fin 2]; [Fin 3; Fin 4; Fin 5]] 5 (Fin 16000) 0 None 0) 3
    = Ok (out, st')
    /\ out = [Fin 1; Fin 2; Fin 3]
    /\ concat (buffer st') = [Fin 4; Fin 5].
Proof.
  destruct (flush_takes_prefix
              (mkSt [[Fin 1; Fin 2]; [Fin 3; Fin 4; Fin 5]] 5 (Fin 16000)
                    0 None 0) 3)
    as (out & st' & E & _ & Ho & Hb & _).
  - lia.
  - exists out, st'. split; [exact E|]. split; [exact Ho | exact Hb].
Defined.

(** A negative [needed] makes [flush] throw a RangeError. *)
Lemma flush_negative (st : State) (needed : Z) :
  needed < 0 -> flush st needed = Throw "RangeError".
Proof.
  intros Hn. unfold flush, new_Float32Array, of_Z.
  assert (Qltb (inject_Z needed) 0 = true) as ->.
  { apply Qltb_true. change 0%Q with (inject_Z 0). rewrite <- Zlt_Qlt. exact Hn. }
  rewrite Qceiling_Z.
  assert ((needed <? 0) = true) as -> by (apply Z.ltb_lt; exact Hn).
  reflexivity.
Qed.

End FlushFacts.

(** ** src/lib/audioCapture.ts: what every window goes through *)

Module StreamFacts.

Import AudioCapture AudioSpec StreamSpec.

Lemma resample_ok (input : list num) (fromSr toSr : Q) :
  (0 < fromSr)%Q -> (0 < toSr)%Q ->
  exists output, resample input (Fin fromSr) (Fin toSr) = Ok output.
Proof.
  intros Hsr Hst. unfold resample.
  destruct (Fin fromSr === Fin toSr)%num; [eexists; reflexivity|].
  pose proof (ResampleFacts.ratio_pos fromSr toSr Hsr Hst) as HR.
  rewrite (div_Fin toSr fromSr) by lra.
  cbn [of_Z mul Math_round].
  rewrite ResampleFacts.new_Float32Array_int.
  - cbn [rbind]. eexists. reflexivity.
  - change 0 with (Qfloor 0). apply Qfloor_resp_le.
    assert (0 <= inject_Z (Z.of_nat (length input)))%Q
      by (change 0%Q with (inject_Z 0); rewrite <- Zle_Qle; lia).
    assert (0 <= inject_Z (Z.of_nat (length input)) * (toSr / fromSr))%Q
      by (apply Qmult_le_0_compat; lra).
    lra.
Qed.

Lemma toTargetRate_ok (st : State) (rawChunk : list num) (sr : Q) :
  actualSr st = Fin sr -> (0 < sr)%Q ->
  exists chunk, toTargetRate st rawChunk = Ok chunk.
Proof.
  intros Hsr Hpos. unfold toTargetRate. rewrite Hsr.
  destruct (negb _); [|eexists; reflexivity].
  apply resample_ok; [exact Hpos | reflexivity].
Qed.

Lemma toTargetRate_rate (st st' : State) (rawChunk : list num) :
  actualSr st' = actualSr st ->
  toTargetRate st' rawChunk = toTargetRate st rawChunk.
Proof. intros H. unfold toTargetRate. rewrite H. reflexivity. Qed.

Section Streamer.

Variable sqrtQ : Q -> Q.
Variable float32_bits : num -> Z.

Local Abbreviation processWindow := (processWindow sqrtQ float32_bits).
Local Abbreviation processWindows := (processWindows sqrtQ float32_bits).
Local Abbreviation computeSignature := (computeSignature sqrtQ).

Lemma processWindow_outcome cfg now st rawChunk chunk :
  toTargetRate st rawChunk = Ok chunk ->
  exists st' events,
    processWindow cfg now st rawChunk = Ok (st', events)
    /\ outcome sqrtQ float32_bits cfg now st chunk st' events.
Proof.
  intros Hc.
  destruct (WavFacts.encodeWavFloat32Mono_length float32_bits chunk targetSr)
    as (wav & Hw & _).
  rewrite (ChunkFacts.processWindow_cases sqrtQ float32_bits cfg now st
             rawChunk chunk wav Hc Hw).
  destruct (silent (computeSignature chunk)) eqn:Hs.
  { eexists _, _. split; [reflexivity|]. apply Silent; auto. }
  destruct (isDuplicate cfg st (computeSignature chunk)) eqn:Hd;
    destruct (maxConsecutiveDuplicates <=? consecutiveDuplicates st) eqn:Hf;
    cbn [andb negb]; eexists _, _; (split; [reflexivity|]).
  - eapply Sent; eauto. right. apply Z.leb_le. exact Hf.
  - apply Skipped; auto. apply Z.leb_gt. exact Hf.
  - eapply Sent; eauto.
  - eapply Sent; eauto.
Qed.

(** X2.  With a positive, finite context rate no window makes the loop body
    throw: neither the resampler nor the encoder fails. *)
Theorem processWindow_never_throws cfg now st rawChunk (sr : Q) :
  actualSr st = Fin sr -> (0 < sr)%Q ->
  exists st' events,
    processWindow cfg now st rawChunk = Ok (st', events)
    /\ buffer st' = buffer st
    /\ samplesCollected st' = samplesCollected st
    /\ actualSr st' = actualSr st
    /\ chunkSeq st' = chunkSeq st + 1
    /\ lastSignature st' <> None.
Proof.
  intros Hsr Hpos.
  destruct (toTargetRate_ok st rawChunk sr Hsr Hpos) as (chunk & Hc).
  destruct (processWindow_outcome cfg now st rawChunk chunk Hc)
    as (st' & events & E & Ho).
  exists st', events. split; [exact E|].
  destruct Ho; subst st'; cbn; repeat split; discriminate.
Qed.

Lemma outcome_state cfg now st chunk st' events :
  outcome sqrtQ float32_bits cfg now st chunk st' events ->
  actualSr st' = actualSr st /\ chunkSeq st' = chunkSeq st + 1
  /\ buffer st' = buffer st /\ samplesCollected st' = samplesCollected st.
Proof. intros Ho. destruct Ho; subst st'; cbn; repeat split. Qed.

Lemma processWindows_run cfg (sr : Q) windows :
  (0 < sr)%Q ->
  forall st,
    actualSr st = Fin sr ->
    exists st' events,
      processWindows cfg st windows = Ok (st', events)
      /\ run sqrtQ float32_bits cfg st windows st' events.
Proof.
  intros Hpos. induction windows as [|[now rawChunk] rest IH]; intros st Hsr.
  - exists st, []. split; [reflexivity | constructor].
  - destruct (toTargetRate_ok st rawChunk sr Hsr Hpos) as (chunk & Hc).
    destruct (processWindow_outcome cfg now st rawChunk chunk Hc)
      as (st1 & ev1 & E1 & Ho).
    destruct (outcome_state _ _ _ _ _ _ Ho) as (Hsr1 & _).
    destruct (IH st1) as (st2 & ev2 & E2 & Hr); [congruence|].
    exists st2, (ev1 ++ ev2). split.
    + cbn [AudioCapture.processWindows]. rewrite E1. cbn [rbind fst snd].
      rewrite E2. reflexivity.
    + econstructor; eassumption.
Qed.

Lemma metas_emitMeta cfg meta :
  metas (emitMeta cfg meta) = if onChunkMeta cfg then [meta] else [].
Proof. unfold emitMeta. destruct (onChunkMeta cfg); reflexivity. Qed.

Lemma blobs_emitMeta cfg meta : blobs (emitMeta cfg meta) = [].
Proof. unfold emitMeta. destruct (onChunkMeta cfg); reflexivity. Qed.

Lemma metas_app ev ev' : metas (ev ++ ev') = metas ev ++ metas ev'.
Proof. apply omap_app. Qed.

Lemma blobs_app ev ev' : blobs (ev ++ ev') = blobs ev ++ blobs ev'.
Proof. apply omap_app. Qed.

Lemma outcome_metas cfg now st chunk st' events :
  outcome sqrtQ float32_bits cfg now st chunk st' events ->
  exists meta,
    metas events = (if onChunkMeta cfg then [meta] else [])
    /\ Meta.seq meta = chunkSeq st + 1
    /\ Meta.timestamp meta = now
    /\ Meta.sampleCount meta = Z.of_nat (length chunk)
    /\ (Meta.sent meta = false -> Meta.duplicate meta = true)
    /\ length (blobs events) = (if Meta.sent meta then 1%nat else 0%nat).
Proof.
  intros Ho. destruct Ho; subst events; eexists;
    rewrite ?metas_app, ?blobs_app, ?metas_emitMeta, ?blobs_emitMeta;
    cbn [metas blobs omap app]; rewrite ?app_nil_r;
    (split; [reflexivity|]); cbn; repeat split; congruence.
Qed.

(** X3.  One metadata record per window, in the order of the windows: the
    sequence numbers go up by one from the streamer's counter, and each
    record carries the time of its window. *)
Theorem records_follow_windows cfg (sr : Q) windows st :
  (0 < sr)%Q -> actualSr st = Fin sr -> onChunkMeta cfg = true ->
  exists st' events,
    processWindows cfg st windows = Ok (st', events)
    /\ chunkSeq st' = chunkSeq st + Z.of_nat (length windows)
    /\ map Meta.seq (metas events)
       = map (fun i : nat => chunkSeq st + Z.of_nat i) (seq 1 (length windows))
    /\ map Meta.timestamp (metas events) = map fst windows.
Proof.
  intros Hpos Hsr Hcb.
  destruct (processWindows_run cfg sr windows Hpos st Hsr)
    as (st' & events & E & Hr).
  exists st', events. split; [exact E|]. clear E Hsr.
  induction Hr as [st|st now rawChunk chunk rest st1 ev1 st2 ev2 Hc Ho Hr IH].
  - cbn. repeat split. lia.
  - destruct (outcome_state _ _ _ _ _ _ Ho) as (_ & Hseq & _).
    destruct (outcome_metas _ _ _ _ _ _ Ho) as (meta & Hm & Hs & Ht & _).
    destruct IH as (IH1 & IH2 & IH3).
    rewrite Hcb in Hm. rewrite metas_app, Hm.
    cbn [length app map seq fst]. split; [lia|]. split.
    + rewrite Hs, IH2. f_equal; try lia.
      rewrite <- !seq_shift, !map_map. apply List.map_ext. intros i. lia.
    + rewrite Ht, IH3. reflexivity.
Qed.

(** X4.  The counter of skipped duplicates stays between 0 and 5. *)
Theorem duplicate_counter_bounded cfg (sr : Q) windows st :
  (0 < sr)%Q -> actualSr st = Fin sr ->
  0 <= consecutiveDuplicates st <= maxConsecutiveDuplicates ->
  exists st' events,
    processWindows cfg st windows = Ok (st', events)
    /\ 0 <= consecutiveDuplicates st' <= maxConsecutiveDuplicates.
Proof.
  intros Hpos Hsr Hcd.
  destruct (processWindows_run cfg sr windows Hpos st Hsr)
    as (st' & events & E & Hr).
  exists st', events. split; [exact E|]. clear E Hsr.
  induction Hr as [st|st now rawChunk chunk rest st1 ev1 st2 ev2 Hc Ho Hr IH].
  - exact Hcd.
  - apply IH. destruct Ho; subst st1; cbn; unfold maxConsecutiveDuplicates in *;
      lia.
Qed.

(** X5.  The chunk handler is called once for every record with sent=true and
    never otherwise; a record with sent=false has duplicate=true. *)
Theorem blobs_match_sent_records cfg (sr : Q) windows st :
  (0 < sr)%Q -> actualSr st = Fin sr -> onChunkMeta cfg = true ->
  exists st' events,
    processWindows cfg st windows = Ok (st', events)
    /\ length (blobs events) = length (filter (fun m => Meta.sent m = true)
                                               (metas events))
    /\ Forall (fun m => Meta.sent m = false -> Meta.duplicate m = true)
              (metas events)
    /\ (length (blobs events) <= length windows)%nat.
Proof.
  intros Hpos Hsr Hcb.
  destruct (processWindows_run cfg sr windows Hpos st Hsr)
    as (st' & events & E & Hr).
  exists st', events. split; [exact E|]. clear E Hsr.
  induction Hr as [st|st now rawChunk chunk rest st1 ev1 st2 ev2 Hc Ho Hr IH].
  - cbn. repeat split; [constructor | lia].
  - destruct (outcome_metas _ _ _ _ _ _ Ho)
      as (meta & Hm & _ & _ & _ & Hd & Hb).
    destruct IH as (IH1 & IH2 & IH3).
    rewrite Hcb in Hm. rewrite metas_app, blobs_app, Hm, !length_app, Hb.
    cbn [app length]. split; [|split].
    + rewrite filter_cons. destruct (decide (Meta.sent meta = true)) as [Hs|Hs].
      * rewrite Hs. cbn [length]. lia.
      * destruct (Meta.sent meta); [congruence|]. cbn [length]. lia.
    + constructor; assumption.
    + destruct (Meta.sent meta); lia.
Qed.

Lemma run_not_starved cfg (st0 : State) st windows st' events :
  run sqrtQ float32_bits cfg st windows st' events ->
  actualSr st = actualSr st0 ->
  Forall (fun w => windowSilent sqrtQ st0 (snd w) = false) windows ->
  0 <= consecutiveDuplicates st <= maxConsecutiveDuplicates ->
  maxConsecutiveDuplicates - consecutiveDuplicates st
  < Z.of_nat (length windows) ->
  blobs events <> [].
Proof.
  unfold maxConsecutiveDuplicates.
  induction 1 as [st|st now rawChunk chunk rest st1 ev1 st2 ev2 Hc Ho Hr IH];
    intros Hsr Hall Hcd Hlen.
  - cbn in Hlen. lia.
  - inversion Hall as [|w ws Hw Hrest]; subst. cbn [snd] in Hw.
    unfold windowSilent in Hw.
    rewrite (toTargetRate_rate st st0 rawChunk) in Hw by (symmetry; exact Hsr).
    rewrite Hc in Hw. rewrite blobs_app.
    destruct Ho as [Hs _ _ | Hs Hd Hlt Hst Hev | wav dup Hs Hd Hwav Hst Hev].
    + congruence.
    + subst ev1. rewrite blobs_emitMeta. cbn [app].
      unfold maxConsecutiveDuplicates in Hlt.
      apply IH; subst st1; cbn in *; try assumption; try lia.
    + subst ev1. rewrite blobs_app, blobs_emitMeta. cbn. discriminate.
Qed.

(** X6.  No starvation: of six windows in a row that are not all-zero, at
    least one is handed to the chunk handler, whatever their signatures. *)
Theorem six_windows_one_sent cfg (sr : Q) windows st :
  (0 < sr)%Q -> actualSr st = Fin sr ->
  0 <= consecutiveDuplicates st <= maxConsecutiveDuplicates ->
  Forall (fun w => windowSilent sqrtQ st (snd w) = false) windows ->
  length windows = 6%nat ->
  exists st' events,
    processWindows cfg st windows = Ok (st', events)
    /\ blobs events <> [].
Proof.
  intros Hpos Hsr Hcd Hall Hlen.
  destruct (processWindows_run cfg sr windows Hpos st Hsr)
    as (st' & events & E & Hr).
  exists st', events. split; [exact E|].
  eapply run_not_starved; try eassumption; [reflexivity|].
  unfold maxConsecutiveDuplicates in *. lia.
Qed.

End Streamer.

Lemma six_windows_one_sent_witness :
  exists st' events,
    AudioCapture.processWindows sqrt_micro bits_example
      (constructor Examples.example_options)
      (mkSt [] 0 (Fin 16000) 7 (Some (mkSig (Fin (1 # 2)) (Fin (1 # 2)) (Fin 0))) 3)
      [(1, [Fin (1 # 2); Fin (- 1 # 2)]); (2, [Fin (1 # 2); Fin (- 1 # 2)]);
       (3, [Fin (1 # 2); Fin (- 1 # 2)]); (4, [Fin (1 # 2); Fin (- 1 # 2)]);
       (5, [Fin (1 # 2); Fin (- 1 # 2)]); (6, [Fin (1 # 2); Fin (- 1 # 2)])]
    = Ok (st', events)
    /\ blobs events <> [].
Proof.
  apply (six_windows_one_sent sqrt_micro bits_example
           (constructor Examples.example_options) 16000).
  - reflexivity.
  - reflexivity.
  - unfold maxConsecutiveDuplicates. cbn. lia.
  - repeat constructor.
  - reflexivity.
Defined.

(** Three windows of a 16 kHz stream. *)
Lemma records_follow_windows_witness :
  exists st' events,
    AudioCapture.processWindows sqrt_micro bits_example
      (constructor Examples.example_options) initial
      [(10, [Fin (1 # 2); Fin (- 1 # 2)]); (20, [Fin 0; Fin 0]);
       (30, [Fin (1 # 4); Fin (1 # 4)])]
    = Ok (st', events)
    /\ map Meta.seq (metas events) = [1; 2; 3]
    /\ map Meta.timestamp (metas events) = [10; 20; 30].
Proof.
  destruct (records_follow_windows sqrt_micro bits_example
              (constructor Examples.example_options) 16000
              [(10, [Fin (1 # 2); Fin (- 1 # 2)]); (20, [Fin 0; Fin 0]);
               (30, [Fin (1 # 4); Fin (1 # 4)])] initial)
    as (st' & events & E & _ & Hs & Ht).
  - reflexivity.
  - reflexivity.
  - reflexivity.
  - exists st', events. split; [exact E|]. split; [exact Hs | exact Ht].
Defined.

Lemma duplicate_counter_bounded_witness :
  exists st' events,
    AudioCapture.processWindows sqrt_micro bits_example
      (constructor Examples.example_options) initial
      [(10, [Fin (1 # 2); Fin (- 1 # 2)]); (20, [Fin (1 # 2); Fin (- 1 # 2)])]
    = Ok (st', events)
    /\ 0 <= consecutiveDuplicates st' <= 5.
Proof.
  apply (duplicate_counter_bounded sqrt_micro bits_example
           (constructor Examples.example_options) 16000
           [(10, [Fin (1 # 2); Fin (- 1 # 2)]);
            (20, [Fin (1 # 2); Fin (- 1 # 2)])] initial).
  - reflexivity.
  - reflexivity.
  - unfold maxConsecutiveDuplicates. cbn. lia.
Defined.

Lemma blobs_match_sent_records_witness :
  exists st' events,
    AudioCapture.processWindows sqrt_micro bits_example
      (constructor Examples.example_options) initial
      [(10, [Fin (1 # 2); Fin (- 1 # 2)]); (20, [Fin 0; Fin 0])]
    = Ok (st', events)
    /\ length (blobs events)
       = length (filter (fun m => Meta.sent m = true) (metas events)).
Proof.
  destruct (blobs_match_sent_records sqrt_micro bits_example
              (constructor Examples.example_options) 16000
              [(10, [Fin (1 # 2); Fin (- 1 # 2)]); (20, [Fin 0; Fin 0])]
              initial)
    as (st' & events & E & Hb & _).
  - reflexivity.
  - reflexivity.
  - reflexivity.
  - exists st', events. split; [exact E | exact Hb].
Defined.

Lemma processWindow_never_throws_witness :
  exists st' events,
    AudioCapture.processWindow sqrt_micro bits_example
      (constructor Examples.example_options) 10
      (mkSt [] 0 (Fin 48000) 0 None 0)
      [Fin 1; Fin 2; Fin 3; Fin 4; Fin 5; Fin 6]
    = Ok (st', events)
    /\ chunkSeq st' = 1.
Proof.
  destruct (processWindow_never_throws sqrt_micro bits_example
              (constructor Examples.example_options) 10
              (mkSt [] 0 (Fin 48000) 0 None 0)
              [Fin 1; Fin 2; Fin 3; Fin 4; Fin 5; Fin 6] 48000)
    as (st' & events & E & _ & _ & _ & Hseq & _).
  - reflexivity.
  - reflexivity.
  - exists st', events. split; [exact E | exact Hseq].
Defined.

End StreamFacts.

(** ** src/lib/audioCapture.ts: the loop of [onaudioprocess] *)

Module LoopFacts.

Import AudioCapture MicLoop StreamSpec.

Section Loop.

Variable sqrtQ : Q -> Q.
Variable float32_bits : num -> Z.
Variables (cfg : Config) (clock : Z -> Z) (sr : Q) (k : Z).
Hypothesis Hsr : (0 < sr)%Q.
Hypothesis Hk : 1 <= k.

Local Abbreviation windowLoop := (windowLoop sqrtQ float32_bits).

Lemma loop_condition (sc : Z) :
  (of_Z sc >=? Fin (inject_Z k))%num = (k <=? sc).
Proof.
  unfold ge, of_Z. cbn [le].
  destruct (Z.leb_spec k sc) as [H|H].
  - apply Qleb_true. rewrite <- Zle_Qle. exact H.
  - apply Qleb_false. rewrite <- Zlt_Qlt. exact H.
Qed.

Lemma windowLoop_spec (fuel : nat) :
  forall st,
    actualSr st = Fin sr ->
    0 <= samplesCollected st ->
    samplesCollected st / k < Z.of_nat fuel ->
    exists st' events,
      windowLoop fuel cfg clock st (Fin (inject_Z k)) = Some (Ok (st', events))
      /\ samplesCollected st' = samplesCollected st mod k
      /\ chunkSeq st' = chunkSeq st + samplesCollected st / k
      /\ actualSr st' = actualSr st
      /\ (queued st = samplesCollected st -> queued st' = samplesCollected st')
      /\ (onChunkMeta cfg = true ->
          Z.of_nat (length (metas events)) = samplesCollected st / k).
Proof.
  induction fuel as [|fuel IH]; intros st Hrate Hsc Hfuel.
  - pose proof (Z.div_pos (samplesCollected st) k). lia.
  - cbn [MicLoop.windowLoop]. rewrite loop_condition.
    destruct (Z.leb_spec k (samplesCollected st)) as [Hge|Hlt]; cbn [negb].
    2:{ exists st, []. split; [reflexivity|].
        rewrite Z.mod_small, Z.div_small by lia.
        repeat split; auto; lia. }
    rewrite Qfloor_Z.
    destruct (FlushFacts.flush_spec st k)
      as (rawChunk & st1 & Ef & _ & _ & _ & Hq & Hsc1 & Hseq1 & _ & _ & Hr1);
      [lia|].
    rewrite Ef.
    assert (actualSr st1 = Fin sr) as Hrate1 by congruence.
    destruct (StreamFacts.toTargetRate_ok st1 rawChunk sr Hrate1 Hsr)
      as (chunk & Hc).
    destruct (StreamFacts.processWindow_outcome sqrtQ float32_bits cfg
                (clock (chunkSeq st1 + 1)) st1 rawChunk chunk Hc)
      as (st2 & ev & Ep & Ho).
    rewrite Ep.
    destruct (StreamFacts.outcome_state _ _ _ _ _ _ _ _ Ho)
      as (Hr2 & Hseq2 & Hb2 & Hsc2).
    destruct (StreamFacts.outcome_metas _ _ _ _ _ _ _ _ Ho)
      as (meta & Hm & _).
    assert (samplesCollected st2 = samplesCollected st - k) as Hsc2' by lia.
    assert ((samplesCollected st - k) / k = samplesCollected st / k - 1) as Hdiv.
    { replace (samplesCollected st - k) with (samplesCollected st + (-1) * k)
        by lia.
      rewrite Z.div_add by lia. lia. }
    assert ((samplesCollected st - k) mod k = samplesCollected st mod k) as Hmod.
    { replace (samplesCollected st - k) with (samplesCollected st + (-1) * k)
        by lia.
      apply Z.mod_add. lia. }
    destruct (IH st2) as (st3 & ev' & El & H1 & H2 & H3 & H4 & H5);
      [congruence | lia | rewrite Hsc2', Hdiv; lia |].
    rewrite El. exists st3, (ev ++ ev'). split; [reflexivity|].
    rewrite Hsc2', ?Hdiv, ?Hmod in *.
    split; [exact H1|]. split; [lia|]. split; [congruence|]. split.
    + intros Hinv. apply H4.
      unfold queued in *. rewrite Hb2.
      destruct Hq as [_ Hq']; [unfold queued; lia|].
      unfold queued in Hq'. lia.
    + intros Hcb. rewrite StreamFacts.metas_app, length_app, Hm, Hcb.
      cbn [length]. specialize (H5 Hcb). lia.
Qed.

(** X7.  A call of [onaudioprocess] at a positive rate, with windows of at
    least one sample, ends; it turns the queued samples into as many
    whole windows as they hold and leaves less than one window queued.
    The count [samplesCollected] keeps agreeing with the queue. *)
Theorem onaudioprocess_leaves_remainder (cs : Q) (st : State)
    (inBuf : list num) (fuel : nat) :
  chunkSeconds cfg = Fin cs ->
  k = Qfloor (sr * cs) ->
  actualSr st = Fin sr ->
  0 <= samplesCollected st ->
  let total := samplesCollected st + Z.of_nat (length inBuf) in
  total / k < Z.of_nat fuel ->
  exists st' events,
    onaudioprocess sqrtQ float32_bits fuel cfg clock st inBuf
    = Some (Ok (st', events))
    /\ samplesCollected st' = total mod k
    /\ 0 <= samplesCollected st' < k
    /\ chunkSeq st' = chunkSeq st + total / k
    /\ (queued st = samplesCollected st -> queued st' = samplesCollected st')
    /\ (onChunkMeta cfg = true -> Z.of_nat (length (metas events)) = total / k).
Proof.
  intros Hcs Hkdef Hrate Hsc total Hfuel.
  unfold onaudioprocess. cbn [actualSr]. rewrite Hrate, Hcs.
  cbn [mul Math_floor]. rewrite <- Hkdef.
  destruct (windowLoop_spec fuel
              (mkSt (buffer st ++ [inBuf])
                    (samplesCollected st + Z.of_nat (length inBuf))
                    (Fin sr) (chunkSeq st) (lastSignature st)
                    (consecutiveDuplicates st)))
    as (st' & events & E & H1 & H2 & H3 & H4 & H5);
    [reflexivity | cbn; lia | exact Hfuel |].
  exists st', events. split; [exact E|]. cbn in H1, H2, H4, H5.
  split; [exact H1|]. split; [rewrite H1; apply Z.mod_pos_bound; lia|].
  split; [exact H2|]. split; [|exact H5].
  intros Hinv. apply H4. unfold queued in *. cbn [buffer].
  rewrite concat_app, length_app. cbn [concat]. rewrite app_nil_r. lia.
Qed.

End Loop.

(** Two blocks of three samples at 16 Hz with windows of a quarter of a
    second (four samples): one window, two samples left. *)
Lemma onaudioprocess_leaves_remainder_witness :
  exists st' events,
    onaudioprocess AudioSpec.sqrt_micro AudioSpec.bits_example 5
      (mkConfig (Fin (1 # 4)) false (Fin (1 # 10000)) true) (fun seq => seq)
      (mkSt [[Fin 1; Fin 2; Fin 3]] 3 (Fin 16) 0 None 0)
      [Fin 4; Fin 5; Fin 6]
    = Some (Ok (st', events))
    /\ samplesCollected st' = 2 /\ chunkSeq st' = 1.
Proof.
  destruct (onaudioprocess_leaves_remainder AudioSpec.sqrt_micro
              AudioSpec.bits_example
              (mkConfig (Fin (1 # 4)) false (Fin (1 # 10000)) true)
              (fun seq => seq) 16 4 eq_refl ltac:(lia) (1 # 4)
              (mkSt [[Fin 1; Fin 2; Fin 3]] 3 (Fin 16) 0 None 0)
              [Fin 4; Fin 5; Fin 6] 5)
    as (st' & events & E & H1 & _ & H2 & _).
  - reflexivity.
  - reflexivity.
  - reflexivity.
  - cbn. lia.
  - cbn. reflexivity.
  - exists st', events. split; [exact E|]. split; [exact H1 | exact H2].
Defined.

End LoopFacts.

(** ** src/lib/audioCapture.ts: the bytes of the WAV file *)

Module WavLayoutFacts.

Import AudioCapture WavSpec.

Lemma insert_at_end {B : Type} (pre : list B) (k : nat) (x : B) (l : list B) :
  <[(length pre + k)%nat := x]> (pre ++ l) = pre ++ <[k := x]> l.
Proof.
  rewrite insert_app_r_alt by lia. f_equal. f_equal. lia.
Qed.

Lemma setUint8_at_end (pre rest : list Z) (b offset v : Z) :
  offset = Z.of_nat (length pre) ->
  setUint8 (pre ++ b :: rest) offset v = Ok (pre ++ (v mod 256) :: rest).
Proof.
  intros ->. unfold setUint8.
  rewrite WavFacts.in_range_true by (rewrite ?length_app; cbn [length]; lia).
  rewrite Nat2Z.id.
  rewrite <- (Nat.add_0_r (length pre)) at 1. rewrite insert_at_end.
  reflexivity.
Qed.

Lemma setUint16_at_end (pre : list Z) (m : nat) (offset v : Z) :
  offset = Z.of_nat (length pre) -> (2 <= m)%nat ->
  setUint16 (pre ++ replicate m 0) offset v
  = Ok ((pre ++ le16 v) ++ replicate (m - 2) 0).
Proof.
  intros -> Hm. destruct m as [|[|m]]; try lia.
  unfold setUint16.
  rewrite WavFacts.in_range_true
    by (rewrite ?length_app, ?length_replicate; cbn [length]; lia).
  replace (Z.to_nat (Z.of_nat (length pre) + 1)) with (length pre + 1)%nat
    by lia.
  replace (Z.to_nat (Z.of_nat (length pre))) with (length pre + 0)%nat by lia.
  rewrite !insert_at_end. cbn [replicate]. cbn.
  rewrite Nat.sub_0_r, <- app_assoc. reflexivity.
Qed.

Lemma setUint32_at_end (pre : list Z) (m : nat) (offset v : Z) :
  offset = Z.of_nat (length pre) -> (4 <= m)%nat ->
  setUint32 (pre ++ replicate m 0) offset v
  = Ok ((pre ++ le32 v) ++ replicate (m - 4) 0).
Proof.
  intros -> Hm. destruct m as [|[|[|[|m]]]]; try lia.
  unfold setUint32.
  rewrite WavFacts.in_range_true
    by (rewrite ?length_app, ?length_replicate; cbn [length]; lia).
  replace (Z.to_nat (Z.of_nat (length pre) + 3)) with (length pre + 3)%nat
    by lia.
  replace (Z.to_nat (Z.of_nat (length pre) + 2)) with (length pre + 2)%nat
    by lia.
  replace (Z.to_nat (Z.of_nat (length pre) + 1)) with (length pre + 1)%nat
    by lia.
  replace (Z.to_nat (Z.of_nat (length pre))) with (length pre + 0)%nat by lia.
  rewrite !insert_at_end. cbn [replicate]. cbn.
  rewrite Nat.sub_0_r, <- app_assoc. reflexivity.
Qed.

Lemma writeChars_at_end (chars : list Ascii.ascii) :
  forall (pre : list Z) (m : nat) (offset : Z),
    offset = Z.of_nat (length pre) -> (length chars <= m)%nat ->
    writeChars (pre ++ replicate m 0) offset chars
    = Ok ((pre ++ map (fun c => Z.of_nat (Ascii.nat_of_ascii c) mod 256) chars)
          ++ replicate (m - length chars) 0).
Proof.
  induction chars as [|c rest IH]; intros pre m offset Hoff Hm.
  - cbn. rewrite app_nil_r, Nat.sub_0_r. reflexivity.
  - cbn [length] in Hm. destruct m as [|m]; [lia|].
    cbn [writeChars replicate].
    rewrite (setUint8_at_end pre (replicate m 0) 0 offset _ Hoff).
    cbn [rbind].
    replace (pre ++ Z.of_nat (Ascii.nat_of_ascii c) mod 256 :: replicate m 0)
      with ((pre ++ [Z.of_nat (Ascii.nat_of_ascii c) mod 256])
            ++ replicate m 0) by (rewrite <- app_assoc; reflexivity).
    rewrite IH; [|rewrite length_app; cbn [length]; lia|lia].
    cbn [map length]. rewrite <- !app_assoc. cbn [app].
    replace (S m - S (length rest))%nat with (m - length rest)%nat by lia.
    reflexivity.
Qed.

Lemma writeString_at_end (pre : list Z) (m : nat) (offset : Z) (s : string) :
  offset = Z.of_nat (length pre) ->
  (length (String.list_ascii_of_string s) <= m)%nat ->
  writeString (pre ++ replicate m 0) offset s
  = Ok ((pre ++ ascii_bytes s)
        ++ replicate (m - length (String.list_ascii_of_string s)) 0).
Proof. intros. unfold writeString, ascii_bytes. now apply writeChars_at_end. Qed.

Section Encoder.

Variable float32_bits : num -> Z.

Lemma writeSamples_at_end (samples : list num) :
  forall (pre : list Z) (m : nat) (offset : Z),
    offset = Z.of_nat (length pre) -> (4 * length samples <= m)%nat ->
    writeSamples float32_bits (pre ++ replicate m 0) offset samples
    = Ok ((pre ++ concat (map (fun s => le32 (float32_bits s)) samples))
          ++ replicate (m - 4 * length samples) 0).
Proof.
  induction samples as [|s rest IH]; intros pre m offset Hoff Hm.
  - cbn. rewrite app_nil_r, Nat.sub_0_r. reflexivity.
  - cbn [length] in Hm. cbn [writeSamples]. unfold setFloat32.
    rewrite (setUint32_at_end pre m offset _ Hoff) by lia. cbn [rbind].
    rewrite IH; [|rewrite length_app; cbn [length le32]; lia|lia].
    cbn [map concat length]. rewrite <- !app_assoc.
    replace (m - 4 - 4 * length rest)%nat
      with (m - 4 * S (length rest))%nat by lia.
    reflexivity.
Qed.

Lemma encodeWavFloat32Mono_layout (samples : list num) (sampleRate : Z) :
  encodeWavFloat32Mono float32_bits samples sampleRate
  = Ok (wav_file float32_bits samples sampleRate).
Proof.
  unfold encodeWavFloat32Mono, wav_file, wav_header.
  set (n := Z.of_nat (length samples)).
  replace (Z.to_nat (44 + n * 4)) with (44 + 4 * length samples)%nat
    by (unfold n; lia).
  set (m := (44 + 4 * length samples)%nat).
  assert (m = 44 + 4 * length samples)%nat as Hm by reflexivity.
  clearbody m.
  change (replicate m 0) with ([] ++ replicate m 0).
  rewrite writeString_at_end by (first [reflexivity | cbn; lia]).
  cbn [rbind].
  rewrite setUint32_at_end by (first [reflexivity | cbn; lia]). cbn [rbind].
  rewrite writeString_at_end by (first [reflexivity | cbn; lia]).
  cbn [rbind].
  rewrite writeString_at_end by (first [reflexivity | cbn; lia]).
  cbn [rbind].
  rewrite setUint32_at_end by (first [reflexivity | cbn; lia]). cbn [rbind].
  rewrite setUint16_at_end by (first [reflexivity | cbn; lia]). cbn [rbind].
  rewrite setUint16_at_end by (first [reflexivity | cbn; lia]). cbn [rbind].
  rewrite setUint32_at_end by (first [reflexivity | cbn; lia]). cbn [rbind].
  rewrite setUint32_at_end by (first [reflexivity | cbn; lia]). cbn [rbind].
  rewrite setUint16_at_end by (first [reflexivity | cbn; lia]). cbn [rbind].
  rewrite setUint16_at_end by (first [reflexivity | cbn; lia]). cbn [rbind].
  rewrite writeString_at_end by (first [reflexivity | cbn; lia]).
  cbn [rbind].
  rewrite setUint32_at_end by (first [reflexivity | cbn; lia]). cbn [rbind].
  rewrite writeSamples_at_end by (first [reflexivity | cbn; lia]).
  f_equal.
  match goal with |- _ ++ replicate ?k 0 = _ =>
    replace k with 0%nat by (cbn; lia) end.
  cbn [replicate]. rewrite app_nil_r. cbn [app].
  rewrite <- !app_assoc. reflexivity.
Qed.

Lemma le32_recombine (v : Z) :
  v mod 256 + 256 * ((v / 256) mod 256) + 65536 * ((v / 65536) mod 256)
  + 16777216 * ((v / 16777216) mod 256)
  = v mod 4294967296.
Proof.
  pose proof (Z.rem_mul_r v 256 16777216 ltac:(lia) ltac:(lia)) as H1.
  pose proof (Z.rem_mul_r (v / 256) 256 65536 ltac:(lia) ltac:(lia)) as H2.
  pose proof (Z.rem_mul_r (v / 65536) 256 256 ltac:(lia) ltac:(lia)) as H3.
  rewrite Z.div_div in H2, H3 by lia.
  change (256 * 16777216) with 4294967296 in H1.
  change (256 * 65536) with 16777216 in H2.
  change (256 * 256) with 65536 in H2, H3.
  change (65536 * 256) with 16777216 in H3.
  rewrite H1, H2, H3. ring.
Qed.

Lemma read_le32_block (pre rest : list Z) (v : Z) :
  read_le32 (pre ++ le32 v ++ rest) (length pre) = v mod 4294967296.
Proof.
  unfold read_le32.
  rewrite <- (Nat.add_0_r (length pre)) at 1.
  rewrite !app_nth2_plus. cbn [le32 app nth]. apply le32_recombine.
Qed.

Lemma concat_blocks_split (g : num -> Z) (samples : list num) :
  forall (i : nat) (s : num),
    samples !! i = Some s ->
    exists pre rest,
      concat (map (fun s => le32 (g s)) samples) = pre ++ le32 (g s) ++ rest
      /\ length pre = (4 * i)%nat.
Proof.
  induction samples as [|x l IH]; intros i s Hi; [discriminate|].
  destruct i as [|i]; cbn [map concat].
  - injection Hi as ->. exists [], (concat (map (fun s => le32 (g s)) l)).
    split; reflexivity.
  - destruct (IH i s Hi) as (pre & rest & E & Hl).
    exists (le32 (g x) ++ pre), rest. split.
    + rewrite E, <- app_assoc. reflexivity.
    + rewrite length_app, Hl. cbn [le32 length]. lia.
Qed.

(** X8.  The buffer that the encoder returns is the 44-byte header (RIFF size,
    format 3 = float, one channel, the rate, byte rate 4 * rate, block
    align 4, 32 bits, data size) followed by the four little-endian bytes
    of every sample in order; every element is a byte. *)
Theorem wav_bytes_layout (samples : list num) (sampleRate : Z) :
  encodeWavFloat32Mono float32_bits samples sampleRate
  = Ok (wav_header (Z.of_nat (length samples)) sampleRate
        ++ concat (map (fun s => le32 (float32_bits s)) samples))
  /\ length (wav_header (Z.of_nat (length samples)) sampleRate) = 44%nat
  /\ Forall (fun byte => 0 <= byte < 256)
            (wav_file float32_bits samples sampleRate).
Proof.
  split; [apply encodeWavFloat32Mono_layout|]. split; [reflexivity|].
  unfold wav_file. apply Forall_app. split.
  - unfold wav_header, le32, le16. cbn.
    repeat (constructor; [first [lia | apply Z.mod_pos_bound; lia]|]).
    constructor.
  - induction samples as [|s l IH]; cbn [map concat]; [constructor|].
    apply Forall_app. split; [|exact IH].
    unfold le32.
    repeat (constructor; [apply Z.mod_pos_bound; lia|]). constructor.
Qed.

(** X9.  Reading the file back: the size fields hold 36 + 4 n and 4 n, the
    rate fields hold the rate and four times the rate, and the four bytes
    at 44 + 4 i hold the bits of sample i (all modulo 2^32). *)
Theorem wav_fields_read_back (samples : list num) (sampleRate : Z) :
  exists wav,
    encodeWavFloat32Mono float32_bits samples sampleRate = Ok wav
    /\ read_le32 wav 4
       = (36 + Z.of_nat (length samples) * 4) mod 4294967296
    /\ read_le32 wav 24 = sampleRate mod 4294967296
    /\ read_le32 wav 28 = (sampleRate * 4) mod 4294967296
    /\ read_le32 wav 40 = (Z.of_nat (length samples) * 4) mod 4294967296
    /\ forall (i : nat) (s : num),
         samples !! i = Some s ->
         read_le32 wav (44 + 4 * i) = float32_bits s mod 4294967296.
Proof.
  exists (wav_file float32_bits samples sampleRate).
  split; [apply encodeWavFloat32Mono_layout|].
  unfold wav_file.
  set (data := concat (map (fun s => le32 (float32_bits s)) samples)).
  repeat split.
  - unfold wav_header, read_le32. cbn [ascii_bytes le32 le16 app nth map
      String.list_ascii_of_string Nat.add]. apply le32_recombine.
  - unfold wav_header, read_le32. cbn [ascii_bytes le32 le16 app nth map
      String.list_ascii_of_string Nat.add]. apply le32_recombine.
  - unfold wav_header, read_le32. cbn [ascii_bytes le32 le16 app nth map
      String.list_ascii_of_string Nat.add]. apply le32_recombine.
  - unfold wav_header, read_le32. cbn [ascii_bytes le32 le16 app nth map
      String.list_ascii_of_string Nat.add]. apply le32_recombine.
  - intros i s Hi.
    destruct (concat_blocks_split float32_bits samples i s Hi)
      as (pre & rest & E & Hl).
    unfold data. rewrite E, app_assoc.
    replace (44 + 4 * i)%nat
      with (length (wav_header (Z.of_nat (length samples)) sampleRate ++ pre))
      by (rewrite length_app, Hl; reflexivity).
    apply read_le32_block.
Qed.

End Encoder.

(** Reading back the second of two samples. *)
Lemma wav_fields_read_back_witness :
  exists wav,
    encodeWavFloat32Mono AudioSpec.bits_example
      [Fin (1 # 2); Fin (1 # 4)] 16000 = Ok wav
    /\ read_le32 wav 48 = 2097152.
Proof.
  destruct (wav_fields_read_back AudioSpec.bits_example
              [Fin (1 # 2); Fin (1 # 4)] 16000)
    as (wav & E & _ & _ & _ & _ & Hs).
  exists wav. split; [exact E|].
  apply (Hs 1%nat (Fin (1 # 4))). reflexivity.
Defined.

End WavLayoutFacts.

(** ** src/lib/audioCapture.ts: resampling stays inside the signal *)

Module ResampleRange.

Import AudioCapture ResampleSpec.

(** Every output sample is a blend of two samples of the input. *)
Lemma resample_blend (input : list num) (fromSr toSr : Q) :
  (0 < fromSr)%Q -> (0 < toSr)%Q ->
  exists output,
    resample input (Fin fromSr) (Fin toSr) = Ok output
    /\ forall y, In y output ->
         In y input
         \/ exists (a b : num) (t : Q),
              In a input /\ In b input /\ (0 <= t < 1)%Q /\ y = blend a b t.
Proof.
  intros Hsr Hst.
  destruct (Qeq_dec fromSr toSr) as [Heq|Hne].
  { exists input. split.
    - unfold resample.
      assert ((Fin fromSr === Fin toSr)%num = true) as ->
          by (apply Qeqb_true; exact Heq).
      reflexivity.
    - intros y Hy. left. exact Hy. }
  pose proof (ResampleFacts.ratio_pos fromSr toSr Hsr Hst) as HR.
  set (R := (toSr / fromSr)%Q) in *.
  set (N := Z.of_nat (length input)).
  assert (~ (R == 0)%Q) as HR0 by lra.
  assert (0 <= round (inject_Z N * R)) as Hlen0.
  { unfold round. change 0 with (Qfloor 0). apply Qfloor_resp_le.
    assert (0 <= inject_Z N)%Q
      by (change 0%Q with (inject_Z 0); rewrite <- Zle_Qle; unfold N; lia).
    assert (0 <= inject_Z N * R)%Q by (apply Qmult_le_0_compat; lra).
    lra. }
  unfold resample.
  assert ((Fin fromSr === Fin toSr)%num = false) as ->
      by (apply Qeqb_false; exact Hne).
  rewrite (div_Fin toSr fromSr) by lra. fold R.
  cbn [of_Z mul Math_round]. fold N.
  change (Qfloor (inject_Z N * R + (1 # 2))) with (round (inject_Z N * R)).
  rewrite ResampleFacts.new_Float32Array_int by exact Hlen0. cbn [rbind].
  eexists. split; [reflexivity|].
  intros y Hy. apply in_map_iff in Hy as (i & Hy & Hi).
  apply in_seq in Hi. right.
  set (p := (inject_Z (Z.of_nat i) / R)%Q).
  set (lo := Qfloor p).
  set (hi := Z.min (lo + 1) (N - 1)).
  destruct (ResampleFacts.source_position N (Z.of_nat i) R HR)
    as [[Hlo0 HloN] Ht]; [lia|]. fold p lo in Hlo0, HloN, Ht.
  assert (0 <= hi < N) as Hhi by (unfold hi; lia).
  exists (nth (Z.to_nat lo) input NaN), (nth (Z.to_nat hi) input NaN),
    (p - inject_Z lo)%Q.
  split; [apply nth_In; unfold N in *; lia|].
  split; [apply nth_In; unfold N in *; lia|].
  split; [exact Ht|].
  subst y. unfold of_Z. rewrite (div_Fin _ R HR0). fold p.
  cbn [Math_floor]. fold lo. cbn [add sub neg].
  rewrite (ResampleFacts.index_int input (inject_Z lo) lo)
    by (first [reflexivity | lia]).
  assert (Math_min (Fin (inject_Z lo + 1)) (Fin (inject_Z N + - (1)))
          = Fin (if Qltb (inject_Z N + - (1)) (inject_Z lo + 1)
                 then inject_Z N + - (1) else inject_Z lo + 1)%Q) as ->.
  { cbn. destruct (Qltb _ _); reflexivity. }
  rewrite (ResampleFacts.index_int input _ hi); [reflexivity | | lia].
  change 1%Q with (inject_Z 1). rewrite <- inject_Z_opp, <- !inject_Z_plus.
  unfold hi.
  destruct (Qltb _ _) eqn:E.
  - apply Qltb_true in E. rewrite <- Zlt_Qlt in E.
    rewrite Z.min_r by lia. reflexivity.
  - apply Qltb_false in E. rewrite <- Zle_Qle in E.
    rewrite Z.min_l by lia. reflexivity.
Qed.

Lemma blend_between (a b t lo hi : Q) :
  (lo <= a <= hi)%Q -> (lo <= b <= hi)%Q -> (0 <= t < 1)%Q ->
  blend (Fin a) (Fin b) t = Fin (a * (1 - t) + b * t)
  /\ (lo <= a * (1 - t) + b * t <= hi)%Q.
Proof.
  intros Ha Hb Ht. split; [reflexivity|].
  assert (0 <= (a - lo) * (1 - t))%Q by (apply Qmult_le_0_compat; lra).
  assert (0 <= (b - lo) * t)%Q by (apply Qmult_le_0_compat; lra).
  assert (0 <= (hi - a) * (1 - t))%Q by (apply Qmult_le_0_compat; lra).
  assert (0 <= (hi - b) * t)%Q by (apply Qmult_le_0_compat; lra).
  split; lra.
Qed.

(** X10.  Resampling finite samples that lie between [lo] and [hi] gives finite
    samples between [lo] and [hi]: the interpolation makes no NaN and
    does not overshoot. *)
Theorem resample_within_range (input : list num) (fromSr toSr lo hi : Q) :
  (0 < fromSr)%Q -> (0 < toSr)%Q ->
  Forall (fun s => exists q, s = Fin q /\ (lo <= q <= hi)%Q) input ->
  exists output,
    resample input (Fin fromSr) (Fin toSr) = Ok output
    /\ Forall (fun s => exists q, s = Fin q /\ (lo <= q <= hi)%Q) output.
Proof.
  intros Hsr Hst Hin.
  destruct (resample_blend input fromSr toSr Hsr Hst) as (output & E & Hout).
  exists output. split; [exact E|].
  rewrite List.Forall_forall in *. intros y Hy.
  destruct (Hout y Hy) as [Hy' | (a & b & t & Ha & Hb & Ht & ->)].
  - apply Hin, Hy'.
  - destruct (Hin a Ha) as (qa & -> & Hqa).
    destruct (Hin b Hb) as (qb & -> & Hqb).
    destruct (blend_between qa qb t lo hi Hqa Hqb Ht) as [-> Hr].
    eexists. split; [reflexivity | exact Hr].
Qed.

Lemma resample_within_range_witness :
  exists output,
    resample [Fin (1 # 2); Fin (- 1 # 2); Fin (1 # 4)] (Fin 8000) (Fin 16000)
    = Ok output
    /\ Forall (fun s => exists q, s = Fin q /\ (- 1 # 2 <= q <= 1 # 2)%Q)
              output.
Proof.
  apply (resample_within_range [Fin (1 # 2); Fin (- 1 # 2); Fin (1 # 4)]
           8000 16000 (- 1 # 2) (1 # 2)).
  - reflexivity.
  - reflexivity.
  - repeat constructor; eexists; (split; [reflexivity|]); split;
      (intros H; discriminate H).
Defined.

End ResampleRange.

(** ** src/lib/audioCapture.ts: which windows are silent *)

Module SignatureFacts.

Import AudioCapture AudioSpec SignatureSpec.

Local Abbreviation step :=
  (fun '(sumSquares, peak, sum) (value : num) =>
     ((sumSquares + value * value)%num,
      (if (Math_abs value >? peak)%num then Math_abs value else peak),
      (sum + value)%num)).

Local Abbreviation accumulate samples :=
  (fold_left step samples (Fin 0, Fin 0, Fin 0)).

Lemma accumulate_snoc (samples : list num) (x : num) :
  accumulate (samples ++ [x])
  = ((fst (fst (accumulate samples)) + x * x)%num,
     (if (Math_abs x >? snd (fst (accumulate samples)))%num
      then Math_abs x else snd (fst (accumulate samples))),
     (snd (accumulate samples) + x)%num).
Proof.
  rewrite fold_left_app. cbn [fold_left].
  destruct (accumulate samples) as [[ss pk] sm]. reflexivity.
Qed.

Lemma finite_sum_finite_samples (samples : list num) :
  is_fin (snd (accumulate samples)) -> Forall is_fin samples.
Proof.
  induction samples as [|x l IH] using rev_ind; intros Hs; [constructor|].
  rewrite accumulate_snoc in Hs. cbn [snd] in Hs.
  destruct Hs as (z & Hz).
  destruct (snd (accumulate l)) as [| | |a] eqn:Ea;
    destruct x as [| | |b]; try discriminate Hz.
  apply Forall_app. split.
  - apply IH. exists a. reflexivity.
  - constructor; [exists b; reflexivity | constructor].
Qed.

Lemma peak_bounds_samples (samples : list num) :
  Forall is_fin samples ->
  exists p,
    snd (fst (accumulate samples)) = Fin p /\ (0 <= p)%Q
    /\ Forall (fun s => exists q, s = Fin q /\ (Qabs q <= p)%Q) samples.
Proof.
  induction samples as [|x l IH] using rev_ind; intros Hf.
  - exists 0%Q. repeat split; [lra | constructor].
  - apply Forall_app in Hf as [Hl Hx].
    inversion Hx as [|? ? (b & ->) _]; subst.
    destruct (IH Hl) as (p & Hp & Hp0 & Hall).
    rewrite accumulate_snoc. cbn [fst snd]. rewrite Hp. cbn [Math_abs gt lt].
    destruct (Qltb p (Qabs b)) eqn:E.
    + apply Qltb_true in E. exists (Qabs b).
      split; [reflexivity|]. split; [lra|].
      apply Forall_app. split.
      * eapply Forall_impl; [exact Hall|].
        intros s (q & -> & Hq). exists q. split; [reflexivity | lra].
      * constructor; [|constructor]. exists b. split; [reflexivity | lra].
    + apply Qltb_false in E. exists p.
      split; [reflexivity|]. split; [exact Hp0|].
      apply Forall_app. split; [exact Hall|].
      constructor; [|constructor]. exists b. split; [reflexivity | exact E].
Qed.

Lemma zero_samples_accumulate (samples : list num) :
  Forall (fun s => (s =n= Fin 0)%num) samples ->
  exists ss pk sm : Q,
    accumulate samples = (Fin ss, Fin pk, Fin sm)
    /\ (ss == 0)%Q /\ (pk == 0)%Q /\ (sm == 0)%Q.
Proof.
  induction samples as [|x l IH] using rev_ind; intros Hz.
  - exists 0%Q, 0%Q, 0%Q. repeat split; reflexivity.
  - apply Forall_app in Hz as [Hl Hx].
    inversion Hx as [|? ? Hx0 _]; subst.
    destruct x as [| | |b]; try contradiction. cbn in Hx0.
    destruct (IH Hl) as (ss & pk & sm & E & Hss & Hpk & Hsm).
    rewrite accumulate_snoc, E. cbn [fst snd Math_abs mul add gt lt].
    destruct (Qltb pk (Qabs b)); eexists _, _, _;
      (split; [reflexivity|]); repeat split;
      rewrite ?Hss, ?Hsm, ?Hpk, ?Hx0; reflexivity.
Qed.

Section Silence.

Variable sqrtQ : Q -> Q.

Lemma silent_only_zero (samples : list num) :
  silent (computeSignature sqrtQ samples) = true ->
  samples <> [] /\ Forall (fun s => (s =n= Fin 0)%num) samples.
Proof.
  unfold computeSignature. cbv zeta.
  pose proof (finite_sum_finite_samples samples) as HA.
  pose proof (peak_bounds_samples samples) as HB.
  destruct (accumulate samples) as [[ss pk] sm]. cbn [fst snd] in HA, HB.
  unfold silent. cbn [rms peak mean]. intros H.
  apply andb_prop in H as [H Hmean]. apply andb_prop in H as [_ Hpeak].
  assert (is_fin sm /\ samples <> []) as [Hsm Hne].
  { unfold of_Z in Hmean.
    destruct sm as [| | |z]; try discriminate Hmean.
    - cbn in Hmean. destruct (Qltb _ _); discriminate.
    - cbn in Hmean. destruct (Qltb _ _); discriminate.
    - split; [exists z; reflexivity|].
      intros ->. cbn in Hmean. destruct (z ?= 0)%Q; discriminate. }
  split; [exact Hne|].
  destruct (HB (HA Hsm)) as (p & -> & Hp0 & Hall).
  cbn [strict_eq] in Hpeak. apply Qeqb_true in Hpeak.
  eapply Forall_impl; [exact Hall|].
  intros s (q & -> & Hq). cbn.
  revert Hq. apply Qabs_case; intros; lra.
Qed.

Lemma zero_silent (samples : list num) :
  (forall q, (q == 0)%Q -> (sqrtQ q == 0)%Q) ->
  samples <> [] -> Forall (fun s => (s =n= Fin 0)%num) samples ->
  silent (computeSignature sqrtQ samples) = true.
Proof.
  intros Hsqrt Hne Hz. unfold computeSignature. cbv zeta.
  destruct (zero_samples_accumulate samples Hz)
    as (ss & pk & sm & E & Hss & Hpk & Hsm).
  rewrite E. unfold of_Z.
  assert (~ (inject_Z (Z.of_nat (length samples)) == 0)%Q) as Hn.
  { change 0%Q with (inject_Z 0). rewrite inject_Z_injective.
    destruct samples; [congruence | cbn [length]; lia]. }
  rewrite !div_Fin by exact Hn.
  assert (ss / inject_Z (Z.of_nat (length samples)) == 0)%Q as Hq
      by (rewrite Hss; field; exact Hn).
  assert (sm / inject_Z (Z.of_nat (length samples)) == 0)%Q as Hm
      by (rewrite Hsm; field; exact Hn).
  unfold Math_sqrt.
  assert (Qltb (ss / inject_Z (Z.of_nat (length samples))) 0 = false) as ->
      by (apply Qltb_false; rewrite Hq; lra).
  unfold silent. cbn [rms peak mean strict_eq].
  apply andb_true_intro. split; [apply andb_true_intro; split|];
    apply Qeqb_true; auto.
Qed.

(** X11.  The silence rule singles out the windows of zeros: a window has RMS,
    peak and mean all exactly zero if and only if it is not empty and
    every sample is zero (NaN and infinite samples never count as
    silence).  The square root of 0 is taken to be 0. *)
Theorem silent_iff_all_zero (samples : list num) :
  (forall q, (q == 0)%Q -> (sqrtQ q == 0)%Q) ->
  silent (computeSignature sqrtQ samples) = true
  <-> samples <> [] /\ Forall (fun s => (s =n= Fin 0)%num) samples.
Proof.
  intros Hsqrt. split.
  - apply silent_only_zero.
  - intros [Hne Hz]. apply zero_silent; assumption.
Qed.

End Silence.

Lemma sqrt_micro_zero (q : Q) : (q == 0)%Q -> (sqrt_micro q == 0)%Q.
Proof.
  intros Hq. unfold sqrt_micro.
  assert (Qnum q = 0) as -> by (unfold Qeq in Hq; cbn in Hq; lia).
  reflexivity.
Qed.

Lemma silent_iff_all_zero_witness :
  silent (computeSignature sqrt_micro [Fin 0; Fin (0 # 3)]) = true
  <-> [Fin 0; Fin (0 # 3)] <> [] /\
      Forall (fun s => (s =n= Fin 0)%num) [Fin 0; Fin (0 # 3)].
Proof.
  apply (silent_iff_all_zero sqrt_micro [Fin 0; Fin (0 # 3)]).
  exact sqrt_micro_zero.
Defined.

End SignatureFacts.

(** ** lib/ferMapping.ts: vectors that are already normalised *)

Module SimplexFacts.

Import FerMapping FerSpec.

Lemma normalizeFer_simplex (p n f : Q) :
  (0 <= p)%Q -> (0 <= n)%Q -> (0 <= f)%Q -> (p + n + f == 1)%Q ->
  exists p' n' f' : Q,
    normalizeFer (mkFer (Fin p) (Fin n) (Fin f))
    = mkFer (Fin p') (Fin n') (Fin f')
    /\ (p' == p)%Q /\ (n' == n)%Q /\ (f' == f)%Q.
Proof.
  intros Hp Hn Hf Hs.
  assert (clamp_spec (Fin p) == p)%Q as Cp
      by (apply FerFacts.clamp_spec_id; lra).
  assert (clamp_spec (Fin n) == n)%Q as Cn
      by (apply FerFacts.clamp_spec_id; lra).
  assert (clamp_spec (Fin f) == f)%Q as Cf
      by (apply FerFacts.clamp_spec_id; lra).
  destruct (FerFacts.normalizeFer_cases (mkFer (Fin p) (Fin n) (Fin f)))
    as [[Hle _] | [_ ->]]; cbn [pos neu fru] in *.
  - lra.
  - eexists _, _, _. split; [reflexivity|].
    repeat split; rewrite FerFacts.Qdiv_one; first [assumption | lra].
Qed.

(** X12.  In exact arithmetic (components compared as rational numbers;
    under binary64 rounding the last bits can change), normalising is
    idempotent: a valid vector comes out with the same components, and so
    does the result of any normalisation. *)
Theorem normalizeFer_idempotent (vec : FerVector) :
  (valid vec -> fer_eq (normalizeFer vec) vec)
  /\ fer_eq (normalizeFer (normalizeFer vec)) (normalizeFer vec)
  /\ valid (normalizeFer vec).
Proof.
  assert (forall v, valid v -> fer_eq (normalizeFer v) v) as Hfix.
  { intros v (p & n & f & -> & Hp & Hn & Hf & Hs).
    destruct (normalizeFer_simplex p n f Hp Hn Hf Hs)
      as (p' & n' & f' & -> & Ep & En & Ef).
    repeat split; assumption. }
  split; [apply Hfix|]. split.
  - apply Hfix, FerFacts.normalizeFer_valid.
  - apply FerFacts.normalizeFer_valid.
Qed.

Lemma normalizeFer_idempotent_witness :
  fer_eq (normalizeFer (mkFer (Fin (1 # 2)) (Fin (1 # 4)) (Fin (1 # 4))))
         (mkFer (Fin (1 # 2)) (Fin (1 # 4)) (Fin (1 # 4))).
Proof.
  apply (normalizeFer_idempotent
           (mkFer (Fin (1 # 2)) (Fin (1 # 4)) (Fin (1 # 4)))).
  exists (1 # 2), (1 # 4), (1 # 4). repeat split; lra.
Defined.

(** X13.  In exact arithmetic (components compared as rational numbers;
    under binary64 rounding the final normalisation can change the last
    bits), smoothing valid vectors with a weight in [0,1] is the plain
    convex combination [alpha * prev + (1 - alpha) * current]: the final
    normalisation changes nothing, and the result is valid.  Whatever the
    arguments, the result of [ema] is a valid vector. *)
Theorem ema_convex_combination (prev current : FerVector) (alpha : num) :
  valid (ema prev current alpha)
  /\ (forall a pp pn pf cp cn cf : Q,
         alpha = Fin a -> (0 <= a <= 1)%Q ->
         prev = mkFer (Fin pp) (Fin pn) (Fin pf) -> valid prev ->
         current = mkFer (Fin cp) (Fin cn) (Fin cf) -> valid current ->
         fer_eq (ema prev current alpha)
                (mkFer (Fin (a * pp + (1 - a) * cp))
                       (Fin (a * pn + (1 - a) * cn))
                       (Fin (a * pf + (1 - a) * cf)))).
Proof.
  split; [apply FerFacts.normalizeFer_valid|].
  intros a pp pn pf cp cn cf -> Ha -> Hvp -> Hvc.
  destruct Hvp as (p & n & f & E & Hp & Hn & Hf & Hs). injection E as <- <- <-.
  destruct Hvc as (p' & n' & f' & E & Hp' & Hn' & Hf' & Hs').
  injection E as <- <- <-.
  unfold ema. cbn [pos neu fru mul sub add neg].
  assert (0 <= a * pp)%Q by (apply Qmult_le_0_compat; lra).
  assert (0 <= a * pn)%Q by (apply Qmult_le_0_compat; lra).
  assert (0 <= a * pf)%Q by (apply Qmult_le_0_compat; lra).
  assert (0 <= (1 + - a) * cp)%Q by (apply Qmult_le_0_compat; lra).
  assert (0 <= (1 + - a) * cn)%Q by (apply Qmult_le_0_compat; lra).
  assert (0 <= (1 + - a) * cf)%Q by (apply Qmult_le_0_compat; lra).
  destruct (normalizeFer_simplex (a * pp + (1 + - a) * cp)
              (a * pn + (1 + - a) * cn) (a * pf + (1 + - a) * cf))
    as (x & y & z & -> & Ex & Ey & Ez); try lra.
  { assert (a * pp + (1 + - a) * cp + (a * pn + (1 + - a) * cn)
            + (a * pf + (1 + - a) * cf)
            == a * (pp + pn + pf) + (1 - a) * (cp + cn + cf))%Q as -> by ring.
    rewrite Hs, Hs'. ring. }
  repeat split; cbn [pos neu fru num_eq]; assumption.
Qed.

Lemma ema_convex_combination_witness :
  fer_eq (ema uniform (mkFer (Fin 1) (Fin 0) (Fin 0)) (Fin (7 # 10)))
         (mkFer (Fin ((7 # 10) * (1 # 3) + (1 - (7 # 10)) * 1))
                (Fin ((7 # 10) * (1 # 3) + (1 - (7 # 10)) * 0))
                (Fin ((7 # 10) * (1 # 3) + (1 - (7 # 10)) * 0))).
Proof.
  apply (proj2 (ema_convex_combination uniform
                  (mkFer (Fin 1) (Fin 0) (Fin 0)) (Fin (7 # 10)))
           (7 # 10) (1 # 3) (1 # 3) (1 # 3) 1 0 0)%Q.
  - reflexivity.
  - lra.
  - reflexivity.
  - exists (1 # 3), (1 # 3), (1 # 3). repeat split; lra.
  - reflexivity.
  - exists 1%Q, 0%Q, 0%Q. repeat split; lra.
Defined.



End SimplexFacts.

(** ** lib/ferMapping.ts: [softmax] *)

Module SoftmaxFacts.

Import Softmax SignatureSpec.








Section Exp.

Variable expQ : Q -> Q.
Hypothesis expQ_pos : forall q, (0 < expQ q)%Q.



End Exp.



End SoftmaxFacts.

(** ** src/store/reward.ts and src/lib/reward.ts: weights and ranges *)

Module RewardRange.

Import RewardStore Reward RewardSpec RewardStoreSpec.

Lemma apply_action_consistent (s : RewardWeightsState) (a : action) :
  consistent s -> consistent (apply_action s a).
Proof.
  intros Hs. destruct a as [weights|p|]; cbn [apply_action].
  - intros w H. discriminate H.
  - unfold setPreset. destruct (PRESETS p) as [w|] eqn:E.
    + intros w' H. cbn [preset] in H. rewrite E in H. injection H as <-.
      repeat split.
    + intros w' H. cbn [preset] in H. congruence.
  - intros w' H. cbn in H. injection H as <-. repeat split.
Qed.

(** X16.  Whatever actions the store goes through, its label and its weights
    agree: while the preset is baseline, aggressive or conservative the
    weights are those of [PRESETS]; only [setWeights] and the preset
    [custom] leave other weights, and both carry the label [custom]. *)
Theorem preset_label_consistent (actions : list action) :
  consistent (after actions)
  /\ (forall weights,
        preset (after (actions ++ [SetWeights weights])) = custom)
  /\ (forall p,
        preset (after (actions ++ [SetPreset p])) = p)
  /\ after (actions ++ [ResetToBaseline])
     = after (actions ++ [SetPreset baseline]).
Proof.
  unfold after. split; [|split; [|split]].
  - assert (forall s, consistent s ->
                      consistent (fold_left apply_action actions s)) as H.
    { induction actions as [|a l IH]; intros s Hs; [exact Hs|].
      cbn [fold_left]. apply IH, apply_action_consistent, Hs. }
    apply H. intros w Hw. cbn in Hw. injection Hw as <-. repeat split.
  - intros weights. rewrite fold_left_app. reflexivity.
  - intros p. rewrite fold_left_app. cbn [fold_left apply_action].
    unfold setPreset. destruct (PRESETS p); reflexivity.
  - rewrite !fold_left_app. reflexivity.
Qed.

Lemma clamp_to_range (lo hi : Q) (x : num) :
  (lo <= hi)%Q -> x <> NaN ->
  exists q, clamp_to lo hi x = Fin q /\ (lo <= q <= hi)%Q.
Proof.
  intros Hlh Hx. destruct x as [| | |q]; [congruence| | |]; cbn.
  - exists hi. split; [reflexivity | lra].
  - exists lo. split; [reflexivity | lra].
  - destruct (Qleb q lo) eqn:E1; [exists lo; split; [reflexivity | lra]|].
    destruct (Qleb hi q) eqn:E2; [exists hi; split; [reflexivity | lra]|].
    apply Qleb_false in E1, E2. exists q. split; [reflexivity | lra].
Qed.

(** X17.  With finite, non-negative weights and a correctness between 0 and 1,
    the reward of any engagement and mastery gain that are not NaN is a
    finite number between [- beta] and [alpha + beta + gamma]; with the
    baseline weights, between -0.3 and 1.8. *)
Theorem reward_bounds (store : RewardWeightsState) (a b g c : Q)
    (engagement deltaM : num) :
  alpha store = Fin a -> beta store = Fin b -> gamma store = Fin g ->
  (0 <= a)%Q -> (0 <= b)%Q -> (0 <= g)%Q -> (0 <= c <= 1)%Q ->
  engagement <> NaN -> deltaM <> NaN ->
  exists r,
    computeReward store (Fin c) engagement deltaM = Fin r
    /\ (- b <= r <= a + b + g)%Q.
Proof.
  intros Ha Hb Hg Ha0 Hb0 Hg0 Hc He Hd.
  unfold computeReward, clampNeg1to1, clamp01.
  rewrite !RewardFacts.clamp_code_spec by lra.
  destruct (clamp_to_range (-1) 1 engagement ltac:(lra) He) as (e & -> & Hev).
  destruct (clamp_to_range 0 1 deltaM ltac:(lra) Hd) as (d & -> & Hdv).
  rewrite Ha, Hb, Hg. cbn [mul add].
  eexists. split; [reflexivity|].
  assert (0 <= a * c)%Q by (apply Qmult_le_0_compat; lra).
  assert (0 <= a * (1 - c))%Q by (apply Qmult_le_0_compat; lra).
  assert (0 <= b * (e + 1))%Q by (apply Qmult_le_0_compat; lra).
  assert (0 <= b * (1 - e))%Q by (apply Qmult_le_0_compat; lra).
  assert (0 <= g * d)%Q by (apply Qmult_le_0_compat; lra).
  assert (0 <= g * (1 - d))%Q by (apply Qmult_le_0_compat; lra).
  split; lra.
Qed.

Lemma reward_bounds_witness :
  exists r,
    computeReward initial (Fin 1) PInf (Fin (-3)) = Fin r
    /\ (- (3 # 10) <= r <= 1 + (3 # 10) + (5 # 10))%Q.
Proof.
  apply (reward_bounds initial 1 (3 # 10) (5 # 10) 1 PInf (Fin (-3)));
    try reflexivity; try lra; discriminate.
Defined.

(** X18.  The reward of a turn as the session computes it: for a face vector
    with positive and frustrated in [0,1] and masteries in [0,1], the
    clamps change nothing and the reward is
    [alpha * correct + beta * (positive - frustrated)
     + gamma * max 0 (current - previous)]:
    a loss of mastery adds nothing and takes nothing away. *)
Theorem reward_of_turn (store : RewardWeightsState) (a b g c : Q)
    (pos neu fru prev cur : Q) :
  alpha store = Fin a -> beta store = Fin b -> gamma store = Fin g ->
  (0 <= pos <= 1)%Q -> (0 <= fru <= 1)%Q ->
  (0 <= prev <= 1)%Q -> (0 <= cur <= 1)%Q ->
  exists r,
    computeReward store (Fin c)
      (computeEngagement (mkFerState (Fin pos) (Fin neu) (Fin fru)))
      (computeMasteryGain (Fin prev) (Fin cur))
    = Fin r
    /\ (r == a * c + b * (pos - fru)
             + g * (if Qleb cur prev then 0 else cur - prev))%Q.
Proof.
  intros Ha Hb Hg Hp Hf Hpr Hcu.
  unfold computeReward, computeEngagement, computeMasteryGain,
    clampNeg1to1, clamp01.
  rewrite !RewardFacts.clamp_code_spec by lra.
  cbn [positive frustrated sub neg add clamp_to].
  rewrite Ha, Hb, Hg.
  assert (exists d, (if Qleb (cur + - prev) 0 then Fin 0
                     else if Qleb 1 (cur + - prev) then Fin 1
                          else Fin (cur + - prev)) = Fin d
                    /\ (0 <= d <= 1)%Q
                    /\ (d == (if Qleb cur prev then 0 else cur - prev))%Q)
    as (d & -> & Hd01 & Hd).
  { destruct (Qleb (cur + - prev) 0) eqn:E1.
    - apply Qleb_true in E1. exists 0%Q. split; [reflexivity|].
      split; [lra|].
      assert (Qleb cur prev = true) as -> by (apply Qleb_true; lra).
      reflexivity.
    - apply Qleb_false in E1.
      assert (Qleb cur prev = false) as -> by (apply Qleb_false; lra).
      destruct (Qleb 1 (cur + - prev)) eqn:E2.
      + apply Qleb_true in E2. exists 1%Q. split; [reflexivity|].
        split; lra.
      + exists (cur + - prev)%Q. split; [reflexivity|]. split; lra. }
  assert (exists d', clamp_to 0 1 (Fin d) = Fin d' /\ (d' == d)%Q)
    as (d' & -> & Hd').
  { cbn. destruct (Qleb d 0) eqn:E1.
    - apply Qleb_true in E1. exists 0%Q. split; [reflexivity | lra].
    - destruct (Qleb 1 d) eqn:E2.
      + apply Qleb_true in E2. exists 1%Q. split; [reflexivity | lra].
      + exists d. split; reflexivity. }
  assert (exists e, (if Qleb (pos + - fru) (-1) then Fin (-1)
                     else if Qleb 1 (pos + - fru) then Fin 1
                          else Fin (pos + - fru)) = Fin e
                    /\ (e == pos - fru)%Q) as (e & -> & He).
  { destruct (Qleb (pos + - fru) (-1)) eqn:E1.
    - apply Qleb_true in E1. exists (-1)%Q. split; [reflexivity | lra].
    - destruct (Qleb 1 (pos + - fru)) eqn:E2.
      + apply Qleb_true in E2. exists 1%Q. split; [reflexivity | lra].
      + exists (pos + - fru)%Q. split; [reflexivity | ring]. }
  cbn [mul add]. eexists. split; [reflexivity|].
  rewrite He, <- Hd, Hd'. reflexivity.
Qed.

Lemma reward_of_turn_witness :
  exists r,
    computeReward initial (Fin 1)
      (computeEngagement
         (mkFerState (Fin (1 # 2)) (Fin (1 # 4)) (Fin (1 # 4))))
      (computeMasteryGain (Fin (6 # 10)) (Fin (5 # 10)))
    = Fin r
    /\ (r == 1 * 1 + (3 # 10) * ((1 # 2) - (1 # 4))
             + (5 # 10) * (if Qleb (5 # 10) (6 # 10) then 0
                           else (5 # 10) - (6 # 10)))%Q.
Proof.
  apply (reward_of_turn initial 1 (3 # 10) (5 # 10) 1
           (1 # 2) (1 # 4) (1 # 4) (6 # 10) (5 # 10));
    try reflexivity; lra.
Defined.

End RewardRange.

(** ** src/lib/policy/__tests__/linucb.selfcheck.ts: [update] *)

Module UpdateFacts.

Import LinUCBCheck LinUCBShape.

Lemma nth_insert_eq {B : Type} (l : list B) (i : nat) (x d : B) :
  (i < length l)%nat -> nth i (<[i := x]> l) d = x.
Proof.
  intros Hi. rewrite nth_lookup, list_lookup_insert_eq by exact Hi. reflexivity.
Qed.

Lemma nth_insert_ne {B : Type} (l : list B) (i j : nat) (x d : B) :
  i <> j -> nth j (<[i := x]> l) d = nth j l d.
Proof.
  intros Hij. rewrite !nth_lookup, list_lookup_insert_ne by exact Hij.
  reflexivity.
Qed.

Lemma addAt2_rect d M i j v : rect d M -> rect d (addAt2 M i j v).
Proof.
  intros [Hl Hr]. unfold addAt2. split; [rewrite length_insert; exact Hl|].
  intros i' Hi'. destruct (decide (i = i')) as [->|Hne].
  - rewrite nth_insert_eq by lia. rewrite length_insert. apply Hr, Hi'.
  - rewrite nth_insert_ne by exact Hne. apply Hr, Hi'.
Qed.

Lemma addAt2_entry d M i j v i' j' :
  rect d M -> (i < d)%nat -> (j < d)%nat ->
  entry (addAt2 M i j v) i' j'
  = if decide (i' = i /\ j' = j) then (entry M i j + v)%num else entry M i' j'.
Proof.
  intros [Hl Hr] Hi Hj. unfold entry, addAt2.
  destruct (decide (i = i')) as [<-|Hne].
  - rewrite nth_insert_eq by lia.
    destruct (decide (j = j')) as [<-|Hnej].
    + rewrite nth_insert_eq by (rewrite Hr; lia).
      destruct (decide (i = i /\ j = j)) as [_|Hn]; [reflexivity | tauto].
    + rewrite nth_insert_ne by exact Hnej.
      destruct (decide (i = i /\ j' = j)) as [[_ ->]|_]; [congruence|].
      reflexivity.
  - rewrite nth_insert_ne by exact Hne.
    destruct (decide (i' = i /\ j' = j)) as [[-> _]|_]; [congruence|].
    reflexivity.
Qed.

Lemma addAt_length v i x : length (addAt v i x) = length v.
Proof. unfold addAt. apply length_insert. Qed.

Lemma addAt_nth v i x i' :
  (i < length v)%nat ->
  nth i' (addAt v i x) NaN
  = if decide (i' = i) then (nth i v NaN + x)%num else nth i' v NaN.
Proof.
  intros Hi. unfold addAt. destruct (decide (i' = i)) as [->|Hne].
  - apply nth_insert_eq, Hi.
  - apply nth_insert_ne. congruence.
Qed.

Section Row.

Variables (d : nat) (i : nat) (v : nat -> num).
Hypothesis Hi : (i < d)%nat.

Local Abbreviation rowUpdate cols M :=
  (fold_left (fun M j => addAt2 M i j (v j)) (seq 0 cols) M).

Lemma rowUpdate_spec (cols : nat) (M : list (list num)) :
  (cols <= d)%nat -> rect d M ->
  rect d (rowUpdate cols M)
  /\ forall i' j',
       entry (rowUpdate cols M) i' j'
       = if decide (i' = i /\ (j' < cols)%nat)
         then (entry M i' j' + v j')%num else entry M i' j'.
Proof.
  induction cols as [|c IH]; intros Hc HM.
  - cbn [seq fold_left]. split; [exact HM|].
    intros i' j'. destruct (decide _) as [[_ H]|_]; [lia | reflexivity].
  - rewrite seq_S, fold_left_app. cbn [fold_left Nat.add].
    destruct (IH ltac:(lia) HM) as [Hrect Hent].
    split; [apply addAt2_rect, Hrect|].
    intros i' j'. rewrite (addAt2_entry d) by (first [exact Hrect | lia]).
    rewrite !Hent.
    destruct (decide (i' = i /\ j' = c)) as [[-> ->]|Hn].
    + destruct (decide (i = i /\ (c < c)%nat)) as [[_ H]|_]; [lia|].
      destruct (decide (i = i /\ (c < S c)%nat)) as [_|H]; [reflexivity|].
      exfalso. apply H. split; [reflexivity | lia].
    + destruct (decide (i' = i /\ (j' < c)%nat)) as [[E H]|H];
        destruct (decide (i' = i /\ (j' < S c)%nat)) as [[E' H']|H'];
        try reflexivity; exfalso.
      * apply H'. split; [exact E | lia].
      * destruct (decide (j' = c)) as [Ej|Ej]; [tauto|].
        apply H. split; [exact E' | lia].
Qed.

End Row.

Section Update.

Variables (d : nat) (features : list num) (reward : num).

Local Abbreviation f k := (nth k features NaN).

Local Abbreviation rows n context :=
  (fold_left
     (fun ctx i =>
        let A' :=
          fold_left
            (fun M j => addAt2 M i j (nth i features NaN * nth j features NaN)%num)
            (seq 0 d) (A ctx) in
        mkContext A' (addAt (b ctx) i (nth i features NaN * reward)%num)
                  (ctx_alpha ctx))
     (seq 0 n) context).

Lemma rows_spec (n : nat) (context : LinUCBContext) :
  (n <= d)%nat -> rect d (A context) -> length (b context) = d ->
  rect d (A (rows n context))
  /\ length (b (rows n context)) = d
  /\ ctx_alpha (rows n context) = ctx_alpha context
  /\ (forall i j,
        (j < d)%nat ->
        entry (A (rows n context)) i j
        = if decide (i < n)%nat
          then (entry (A context) i j + f i * f j)%num
          else entry (A context) i j)
  /\ (forall i,
        nth i (b (rows n context)) NaN
        = if decide (i < n)%nat
          then (nth i (b context) NaN + f i * reward)%num
          else nth i (b context) NaN).
Proof.
  induction n as [|n IH]; intros Hn HA Hb.
  - cbn [seq fold_left].
    split; [exact HA|]. split; [exact Hb|]. split; [reflexivity|]. split.
    + intros i j _. destruct (decide _); [lia | reflexivity].
    + intros i. destruct (decide _); [lia | reflexivity].
  - rewrite seq_S, fold_left_app. cbn [fold_left Nat.add].
    destruct (IH ltac:(lia) HA Hb) as (HA' & Hb' & Hal & Hent & Hbv).
    cbv zeta in *.
    destruct (rowUpdate_spec d n (fun j => (f n * f j)%num) ltac:(lia) d
                (A (rows n context)) ltac:(lia) HA') as [Hrect Hrow].
    cbn [A b ctx_alpha].
    split; [exact Hrect|]. split.
    { rewrite addAt_length. exact Hb'. }
    split; [exact Hal|]. split.
    + intros i j Hj. rewrite Hrow, Hent by exact Hj.
      destruct (decide (i = n /\ (j < d)%nat)) as [[-> _]|Hne].
      * destruct (decide (n < n)%nat); [lia|].
        destruct (decide (n < S n)%nat); [reflexivity | lia].
      * destruct (decide (i < n)%nat); destruct (decide (i < S n)%nat);
          try reflexivity; try lia.
    + intros i. rewrite addAt_nth by (rewrite Hb'; lia). rewrite !Hbv.
      destruct (decide (i = n)) as [->|Hne].
      * destruct (decide (n < n)%nat); [lia|].
        destruct (decide (n < S n)%nat); [reflexivity | lia].
      * destruct (decide (i < n)%nat); destruct (decide (i < S n)%nat);
          try reflexivity; lia.
Qed.

End Update.

Lemma shape_rect d context : shape d context -> rect d (A context).
Proof.
  intros (Hl & Hrows & _). split; [exact Hl|].
  intros i Hi. rewrite List.Forall_forall in Hrows. apply Hrows.
  apply nth_In. lia.
Qed.

Lemma rect_shape d context :
  rect d (A context) -> length (b context) = d -> shape d context.
Proof.
  intros [Hl Hr] Hb. split; [exact Hl|]. split; [|exact Hb].
  apply List.Forall_forall. intros row Hin.
  apply (In_nth _ _ []) in Hin as (i & Hi & <-). apply Hr. lia.
Qed.

Lemma created_shape (self : LinUCB) (armId : string) :
  shaped self -> shape (d self) (snd (getOrCreateContext self armId)).
Proof.
  intros Hs. unfold getOrCreateContext.
  destruct (contexts self !! armId) as [context|] eqn:E; cbn [snd].
  - eapply Hs, E.
  - repeat split; cbn [A b]; rewrite ?length_replicate; try reflexivity.
    apply Forall_replicate. apply length_replicate.
Qed.

Lemma update_spec (self : LinUCB) (features : list num)
    (reward : num) (armId : string) :
  shaped self ->
  let before := snd (getOrCreateContext self armId) in
  let self' := update self features reward armId in
  exists after,
    contexts self' !! armId = Some after
    /\ shape (d self) after
    /\ (forall i j,
          (i < d self)%nat -> (j < d self)%nat ->
          entry (A after) i j
          = (entry (A before) i j
             + nth i features NaN * nth j features NaN)%num)
    /\ (forall i,
          (i < d self)%nat ->
          nth i (b after) NaN
          = (nth i (b before) NaN + nth i features NaN * reward)%num)
    /\ (forall other,
          other <> armId ->
          contexts self' !! other
          = contexts (fst (getOrCreateContext self armId)) !! other)
    /\ (forall other,
          other <> armId ->
          contexts self !! other = contexts self' !! other)
    /\ d self' = d self /\ alpha self' = alpha self
    /\ shaped self'.
Proof.
  intros Hs before self'.
  pose proof (created_shape self armId Hs) as Hshape. fold before in Hshape.
  assert (d (fst (getOrCreateContext self armId)) = d self
          /\ alpha (fst (getOrCreateContext self armId)) = alpha self
          /\ forall other, other <> armId ->
               contexts (fst (getOrCreateContext self armId)) !! other
               = contexts self !! other) as (Hd1 & Hal1 & Hframe1).
  { unfold getOrCreateContext.
    destruct (contexts self !! armId); cbn [fst d alpha contexts];
      repeat split; intros; rewrite ?lookup_insert_ne by congruence;
      reflexivity. }
  unfold self', update, before in *.
  destruct (getOrCreateContext self armId) as [self1 context].
  cbn [fst snd] in *.
  destruct (rows_spec (d self1) features reward (d self1) context
              ltac:(lia)) as (HA & Hb & Hal & Hent & Hbv).
  { rewrite Hd1. apply shape_rect, Hshape. }
  { rewrite Hd1. apply Hshape. }
  eexists. split; [cbn [contexts]; apply lookup_insert_eq|].
  rewrite Hd1 in *.
  split; [apply rect_shape; assumption|].
  split.
  { intros i j Hi Hj. rewrite Hent by exact Hj.
    destruct (decide (i < d self)%nat); [reflexivity | lia]. }
  split.
  { intros i Hi. rewrite Hbv.
    destruct (decide (i < d self)%nat); [reflexivity | lia]. }
  split.
  { intros other Hne. cbn [contexts]. apply lookup_insert_ne. congruence. }
  split.
  { intros other Hne. cbn [contexts]. rewrite lookup_insert_ne by congruence.
    symmetry. apply Hframe1, Hne. }
  cbn [d alpha]. split; [reflexivity|]. split; [exact Hal1|].
  intros arm' ctx' H. cbn [contexts d] in *.
  destruct (decide (armId = arm')) as [<-|Hne].
  - rewrite lookup_insert_eq in H. injection H as <-.
    apply rect_shape; assumption.
  - rewrite lookup_insert_ne in H by exact Hne.
    rewrite Hframe1 in H by congruence. eapply Hs, H.
Qed.

(** X19.  [update] is [A += x x^T] and [b += reward * x] on the state of the
    arm (the all-zero state if the arm is new): every entry [A[i][j]]
    grows by [x[i] * x[j]] and every [b[i]] by [x[i] * reward]; the state
    keeps its dimension; the other arms, the dimension and the
    exploration weight are left as they were. *)
Theorem update_adds_outer_product (self : LinUCB) (features : list num)
    (reward : num) (armId : string) :
  shaped self ->
  let before := snd (getOrCreateContext self armId) in
  let self' := update self features reward armId in
  exists after,
    contexts self' !! armId = Some after
    /\ shape (d self) after
    /\ (forall i j,
          (i < d self)%nat -> (j < d self)%nat ->
          entry (A after) i j
          = (entry (A before) i j
             + nth i features NaN * nth j features NaN)%num)
    /\ (forall i,
          (i < d self)%nat ->
          nth i (b after) NaN
          = (nth i (b before) NaN + nth i features NaN * reward)%num)
    /\ (forall other,
          other <> armId ->
          contexts self' !! other
          = contexts (fst (getOrCreateContext self armId)) !! other)
    /\ (forall other,
          other <> armId ->
          contexts self !! other = contexts self' !! other)
    /\ d self' = d self /\ alpha self' = alpha self
    /\ shaped self'.
Proof. apply update_spec. Qed.

Lemma update_adds_outer_product_witness :
  exists after,
    contexts (update (constructor 3 (Fin 1)) [Fin 1; Fin 2; Fin 3]
                     (Fin (1 # 2)) "arm0") !! "arm0" = Some after
    /\ entry (A after) 1 2 = (Fin 0 + Fin 2 * Fin 3)%num.
Proof.
  destruct (update_adds_outer_product (constructor 3 (Fin 1))
              [Fin 1; Fin 2; Fin 3] (Fin (1 # 2)) "arm0")
    as (after & E & _ & Hent & _).
  - intros arm ctx H. cbn in H. rewrite lookup_empty in H. discriminate.
  - exists after. split; [exact E|].
    apply (Hent 1%nat 2%nat); cbn; lia.
Defined.

End UpdateFacts.

(** ** src/lib/policy/__tests__/linucb.selfcheck.ts: [inverse],
    [dotProduct], [selectArm] *)

Module InverseFacts.

Import LinUCBCheck LinUCBShape.

Lemma det_nonzero (det : Q) : (1 # 10000000000 <= Qabs det)%Q -> ~ (det == 0)%Q.
Proof.
  intros H E. rewrite E in H. cbn in H. revert H. apply Qlt_not_le.
  reflexivity.
Qed.

Lemma inverse_regular (self : LinUCB) (a b c d' : Q) :
  d self = 2%nat ->
  (1 # 10000000000 <= Qabs (a * d' - b * c))%Q ->
  inverse self [[Fin a; Fin b]; [Fin c; Fin d']]
  = Ok [[Fin (d' / (a * d' + - (b * c))); Fin (- b / (a * d' + - (b * c)))];
        [Fin (- c / (a * d' + - (b * c))); Fin (a / (a * d' + - (b * c)))]].
Proof.
  intros Hd Hdet. unfold inverse. rewrite Hd. cbn [Nat.eqb negb nth].
  cbn [mul sub neg add Math_abs lt div].
  change (a * d' + - (b * c))%Q with (a * d' - b * c)%Q.
  rewrite (proj2 (Qltb_false _ _)) by exact Hdet.
  rewrite (proj2 (Qeqb_false _ _)) by (apply det_nonzero, Hdet).
  reflexivity.
Qed.

(** X20.  For a 2 by 2 matrix of finite numbers whose determinant is at least
    [1e-10] in absolute value, [inverse] returns a two-sided inverse:
    multiplying a finite vector by the matrix and then by the result, in
    either order, gives the vector back. *)
Theorem inverse_is_two_sided (self : LinUCB) (a b c d' x y : Q) :
  d self = 2%nat ->
  (1 # 10000000000 <= Qabs (a * d' - b * c))%Q ->
  let M := [[Fin a; Fin b]; [Fin c; Fin d']] in
  let v := [Fin x; Fin y] in
  exists MInv,
    inverse self M = Ok MInv
    /\ Forall2 num_eq
         (matrixVectorMultiply MInv (matrixVectorMultiply M v)) v
    /\ Forall2 num_eq
         (matrixVectorMultiply M (matrixVectorMultiply MInv v)) v.
Proof.
  intros Hd Hdet M v. eexists. split; [apply inverse_regular; assumption|].
  pose proof (det_nonzero _ Hdet) as Hnz.
  change (a * d' - b * c)%Q with (a * d' + - (b * c))%Q in Hnz.
  unfold M, v.
  cbv [matrixVectorMultiply dotProduct map combine seq length fold_left
       fst snd nth add mul].
  split; repeat constructor; unfold num_eq; field; exact Hnz.
Qed.

Lemma inverse_is_two_sided_witness :
  exists MInv,
    inverse (constructor 2 (Fin 1)) [[Fin 2; Fin 1]; [Fin 1; Fin 1]] = Ok MInv
    /\ Forall2 num_eq
         (matrixVectorMultiply MInv
            (matrixVectorMultiply [[Fin 2; Fin 1]; [Fin 1; Fin 1]]
               [Fin 3; Fin 5]))
         [Fin 3; Fin 5].
Proof.
  destruct (inverse_is_two_sided (constructor 2 (Fin 1)) 2 1 1 1 3 5)
    as (MInv & E & H & _).
  - reflexivity.
  - vm_compute. discriminate.
  - exists MInv. split; [exact E | exact H].
Defined.

Lemma mul_NaN_r (x : num) : (x * NaN)%num = NaN.
Proof. destruct x; reflexivity. Qed.

Lemma add_NaN_r (x : num) : (x + NaN)%num = NaN.
Proof. destruct x; reflexivity. Qed.

Lemma dot_fold_NaN (l : list (nat * num)) (w : list num) :
  fold_left (fun sum iv => (sum + snd iv * nth (fst iv) w NaN)%num) l NaN
  = NaN.
Proof. induction l as [|iv l IH]; [reflexivity | exact IH]. Qed.

Lemma dot_fold_short (w : list num) (a : list num) (k : nat) (acc : num) :
  (k <= length w < k + length a)%nat ->
  fold_left (fun sum iv => (sum + snd iv * nth (fst iv) w NaN)%num)
            (combine (seq k (length a)) a) acc
  = NaN.
Proof.
  revert k acc. induction a as [|x a IH]; intros k acc Hk.
  - cbn [length] in Hk. lia.
  - cbn [length seq combine fold_left fst snd].
    destruct (decide (length w = k)) as [E|E].
    + rewrite (nth_overflow w) by lia. rewrite mul_NaN_r, add_NaN_r.
      apply dot_fold_NaN.
    + apply IH. cbn [length] in Hk. lia.
Qed.

Lemma dotProduct_short_NaN (a w : list num) :
  (length w < length a)%nat -> dotProduct a w = NaN.
Proof.
  intros H. unfold dotProduct. apply dot_fold_short. lia.
Qed.

(** X21.  [dotProduct a b] runs over the indices of [a]: when [b] is shorter
    than [a], a missing [b[i]] is read and the result is NaN, whatever
    the entries are; so is then every entry of a matrix-vector product
    whose vector is shorter than the rows. *)
Theorem dotProduct_short_is_NaN (a w : list num) :
  (length w < length a)%nat ->
  dotProduct a w = NaN
  /\ forall matrix,
       Forall (fun row => length row = length a) matrix ->
       Forall (fun y => y = NaN) (matrixVectorMultiply matrix w).
Proof.
  intros H. split; [apply dotProduct_short_NaN, H|].
  intros matrix Hm. unfold matrixVectorMultiply.
  apply List.Forall_map. eapply List.Forall_impl; [|exact Hm].
  intros row Hrow. cbn beta in Hrow. apply dotProduct_short_NaN.
  rewrite Hrow. exact H.
Qed.

Lemma dotProduct_short_is_NaN_witness :
  dotProduct [Fin 0; Fin 0] [Fin 7] = NaN.
Proof. apply (dotProduct_short_is_NaN [Fin 0; Fin 0] [Fin 7]). cbn. lia. Defined.

End InverseFacts.

Module SelectArmFacts.

Import LinUCBCheck LinUCBShape.

Lemma inverse_total (self : LinUCB) (M : list (list num)) :
  d self = 2%nat -> length M = 2%nat ->
  exists MInv, inverse self M = Ok MInv /\ length MInv = 2%nat.
Proof.
  intros Hd Hl. destruct M as [|r0 [|r1 [|r2 M]]]; try discriminate Hl.
  unfold inverse. rewrite Hd. cbn [Nat.eqb negb].
  destruct (_ <? _)%num; eexists; split; reflexivity.
Qed.

Lemma getOrCreateContext_frame (self : LinUCB) (armId : string) :
  let self' := fst (getOrCreateContext self armId) in
  d self' = d self /\ alpha self' = alpha self
  /\ (forall arm context,
        contexts self !! arm = Some context ->
        contexts self' !! arm = Some context)
  /\ contexts self' !! armId = Some (snd (getOrCreateContext self armId)).
Proof.
  unfold getOrCreateContext.
  destruct (contexts self !! armId) as [context|] eqn:E;
    cbn [fst snd d alpha contexts].
  - repeat split; [intros; assumption | exact E].
  - repeat split; [|apply lookup_insert_eq].
    intros arm context H. rewrite lookup_insert_ne; [exact H|].
    intros ->. rewrite E in H. discriminate.
Qed.

Lemma getOrCreateContext_again (self : LinUCB) (armId : string) :
  getOrCreateContext (fst (getOrCreateContext self armId)) armId
  = getOrCreateContext self armId
    \/ (contexts self !! armId = None
        /\ getOrCreateContext (fst (getOrCreateContext self armId)) armId
           = (fst (getOrCreateContext self armId),
              snd (getOrCreateContext self armId))).
Proof.
  destruct (getOrCreateContext_frame self armId) as (_ & _ & _ & H).
  destruct (contexts self !! armId) as [context|] eqn:E.
  - left. unfold getOrCreateContext at 2. rewrite E. cbn [fst].
    reflexivity.
  - right. split; [reflexivity|].
    unfold getOrCreateContext at 1. rewrite H. reflexivity.
Qed.

Lemma getOrCreateContext_fixed (self : LinUCB) (armId : string) :
  getOrCreateContext (fst (getOrCreateContext self armId)) armId
  = (fst (getOrCreateContext self armId), snd (getOrCreateContext self armId)).
Proof.
  destruct (getOrCreateContext_frame self armId) as (_ & _ & _ & H).
  unfold getOrCreateContext at 1. rewrite H. reflexivity.
Qed.

Section Score.

Variable sqrtQ : Q -> Q.

Local Abbreviation selectArm := (selectArm sqrtQ).

Lemma selectArm_returns (self : LinUCB) (features : list num)
    (armId : string) :
  d self = 2%nat -> shaped self ->
  exists MInv,
    inverse (fst (getOrCreateContext self armId))
            (A (snd (getOrCreateContext self armId))) = Ok MInv
    /\ length MInv = 2%nat
    /\ selectArm self features armId
       = Ok (fst (getOrCreateContext self armId),
             (dotProduct
                (matrixVectorMultiply MInv
                   (b (snd (getOrCreateContext self armId)))) features
              + alpha self * Math_sqrt sqrtQ (quadraticForm MInv features))%num).
Proof.
  intros Hd Hs.
  destruct (getOrCreateContext_frame self armId) as (Hd' & Hal & _ & _).
  cbv zeta in Hd', Hal.
  pose proof (UpdateFacts.created_shape self armId Hs) as (HlA & _ & _).
  destruct (inverse_total (fst (getOrCreateContext self armId))
              (A (snd (getOrCreateContext self armId))))
    as (MInv & E & Hl); [congruence | congruence |].
  exists MInv. split; [exact E|]. split; [exact Hl|].
  unfold selectArm, LinUCBCheck.selectArm.
  destruct (getOrCreateContext self armId) as [self1 context].
  cbn [fst snd] in *. rewrite E. cbn [rbind]. rewrite Hal. reflexivity.
Qed.

(** X22.  On a two-dimensional bandit whose arm states have its dimension,
    [selectArm] returns a score and changes nothing that was learned:
    every arm state that existed is still there unchanged, the only
    possible change being the all-zero state registered for an arm seen
    for the first time; scoring the same arm again returns the same
    score and changes nothing at all. *)
Theorem selectArm_only_registers (self : LinUCB) (features : list num)
    (armId : string) :
  d self = 2%nat -> shaped self ->
  exists self' score,
    selectArm self features armId = Ok (self', score)
    /\ (forall arm context,
          contexts self !! arm = Some context ->
          contexts self' !! arm = Some context)
    /\ (forall arm,
          arm <> armId -> contexts self' !! arm = contexts self !! arm)
    /\ (contexts self !! armId = None ->
        contexts self' !! armId
        = Some (mkContext (replicate 2 (replicate 2 (Fin 0)))
                          (replicate 2 (Fin 0)) (alpha self)))
    /\ selectArm self' features armId = Ok (self', score).
Proof.
  intros Hd Hs.
  destruct (selectArm_returns self features armId Hd Hs)
    as (MInv & E & Hl & Hsel).
  destruct (getOrCreateContext_frame self armId) as (Hd' & Hal & Hkeep & Hat).
  cbv zeta in *.
  eexists _, _. split; [exact Hsel|].
  split; [exact Hkeep|]. split.
  { intros arm Hne. unfold getOrCreateContext.
    destruct (contexts self !! armId); cbn [fst contexts]; [reflexivity|].
    apply lookup_insert_ne. congruence. }
  split.
  { intros Hnone. rewrite Hat. unfold getOrCreateContext. rewrite Hnone.
    cbn [snd]. rewrite Hd. reflexivity. }
  unfold selectArm, LinUCBCheck.selectArm.
  rewrite getOrCreateContext_fixed. rewrite E. cbn [rbind].
  rewrite Hal. reflexivity.
Qed.

(** X23.  With fewer features than the dimension, [selectArm] does not fail:
    the missing feature is read as [undefined] and the score is NaN. *)
Theorem selectArm_short_features (self : LinUCB) (features : list num)
    (armId : string) :
  d self = 2%nat -> shaped self -> (length features < 2)%nat ->
  selectArm self features armId
  = Ok (fst (getOrCreateContext self armId), NaN).
Proof.
  intros Hd Hs Hf.
  destruct (selectArm_returns self features armId Hd Hs)
    as (MInv & _ & Hl & ->).
  rewrite InverseFacts.dotProduct_short_NaN; [reflexivity|].
  unfold matrixVectorMultiply. rewrite length_map. lia.
Qed.

End Score.

Lemma selectArm_only_registers_witness :
  exists self' score,
    selectArm AudioSpec.sqrt_micro (constructor 2 (Fin 1)) [Fin 1; Fin 0]
              "easy" = Ok (self', score)
    /\ selectArm AudioSpec.sqrt_micro self' [Fin 1; Fin 0] "easy"
       = Ok (self', score).
Proof.
  destruct (selectArm_only_registers AudioSpec.sqrt_micro
              (constructor 2 (Fin 1)) [Fin 1; Fin 0] "easy")
    as (self' & score & E & _ & _ & _ & E').
  - reflexivity.
  - intros arm context H. cbn in H. rewrite lookup_empty in H. discriminate.
  - exists self', score. split; [exact E | exact E'].
Defined.

Lemma selectArm_short_features_witness :
  selectArm AudioSpec.sqrt_micro (constructor 2 (Fin 1)) [Fin 1] "easy"
  = Ok (fst (getOrCreateContext (constructor 2 (Fin 1)) "easy"), NaN).
Proof.
  apply (selectArm_short_features AudioSpec.sqrt_micro).
  - reflexivity.
  - intros arm context H. cbn in H. rewrite lookup_empty in H. discriminate.
  - cbn. lia.
Defined.

End SelectArmFacts.

(** ** src/hooks/useWebcamFer.ts: [useVoiceEmotion] over many cycles *)

Module VoiceFacts.

Import FerMapping FerSpec VoiceEmotion VoiceSpec Examples FusionStart.

Lemma valid_uniform : valid uniform.
Proof. exists (1 # 3), (1 # 3), (1 # 3). repeat split; lra. Qed.

Lemma smoothSer_valid (current newVal : FerVector) :
  valid current -> valid newVal ->
  valid (smoothSer current newVal smoothSer_default_alpha).
Proof.
  intros (p & n & f & -> & Hp & Hn & Hf & Hs)
         (p' & n' & f' & -> & Hp' & Hn' & Hf' & Hs').
  unfold smoothSer, smoothSer_default_alpha. cbn [pos neu fru mul sub add neg].
  eexists _, _, _. split; [reflexivity|]. repeat split; lra.
Qed.

Lemma lam_cases (l : option num) :
  let lam := Math_max (Fin 0) (Math_min (Fin 1) (default (Fin (6 # 10)) l)) in
  lam = NaN \/ exists q, lam = Fin q /\ (0 <= q <= 1)%Q.
Proof.
  destruct l as [[| | |q]|]; cbn.
  - left. reflexivity.
  - right. exists 1%Q. split; [reflexivity | lra].
  - right. exists 0%Q. split; [reflexivity | lra].
  - right. destruct (Qltb q 1) eqn:E1.
    + apply Qltb_true in E1. cbn. destruct (Qltb 0 q) eqn:E0.
      * apply Qltb_true in E0. exists q. split; [reflexivity | lra].
      * exists 0%Q. split; [reflexivity | lra].
    + exists 1%Q. split; [reflexivity | lra].
  - right. exists (6 # 10). split; [reflexivity | lra].
Qed.

Lemma mix_nonneg (q p p' : Q) :
  (0 <= q <= 1)%Q -> (0 <= p)%Q -> (0 <= p')%Q ->
  (0 <= q * p + (1 + - q) * p')%Q.
Proof.
  intros Hq Hp Hp'.
  assert (0 <= q * p)%Q by (apply Qmult_le_0_compat; lra).
  assert (0 <= (1 + - q) * p')%Q by (apply Qmult_le_0_compat; lra).
  lra.
Qed.

(** The renormalised mixture of two valid vectors is valid, whatever the
    fusion weight is. *)
Lemma fused_valid (lam : num) (face voice : FerVector) :
  lam = NaN \/ (exists q, lam = Fin q /\ (0 <= q <= 1)%Q) ->
  valid face -> valid voice ->
  let fused :=
    mkFer (lam * pos face + (Fin 1 - lam) * pos voice)%num
          (lam * neu face + (Fin 1 - lam) * neu voice)%num
          (lam * fru face + (Fin 1 - lam) * fru voice)%num in
  let s := (pos fused + neu fused + fru fused)%num in
  valid (if (s >? Fin 0)%num
         then mkFer (pos fused / s)%num (neu fused / s)%num (fru fused / s)%num
         else mkFer (Fin 1 / Fin 3)%num (Fin 1 / Fin 3)%num
                    (Fin 1 / Fin 3)%num).
Proof.
  intros Hlam (p & n & f & -> & Hp & Hn & Hf & Hs)
         (p' & n' & f' & -> & Hp' & Hn' & Hf' & Hs').
  destruct Hlam as [->|(q & -> & Hq)]; [exact valid_uniform|].
  cbn [pos neu fru mul sub add neg gt lt].
  set (x := (q * p + (1 + - q) * p')%Q).
  set (y := (q * n + (1 + - q) * n')%Q).
  set (z := (q * f + (1 + - q) * f')%Q).
  assert (x + y + z == 1)%Q as Hsum.
  { assert (x + y + z
            == q * (p + n + f) + (1 + - q) * (p' + n' + f'))%Q as ->
        by (unfold x, y, z; ring).
    rewrite Hs, Hs'. ring. }
  assert (0 <= x)%Q by (apply mix_nonneg; assumption).
  assert (0 <= y)%Q by (apply mix_nonneg; assumption).
  assert (0 <= z)%Q by (apply mix_nonneg; assumption).
  rewrite (proj2 (Qltb_true 0 (x + y + z))) by lra.
  rewrite !div_Fin by lra.
  eexists _, _, _. split; [reflexivity|].
  rewrite !(FerFacts.Qdiv_one _ _ Hsum). repeat split; assumption.
Qed.

Lemma renormalized_valid (v : FerVector) :
  valid v ->
  let s := (pos v + neu v + fru v)%num in
  valid (if (s >? Fin 0)%num
         then mkFer (pos v / s)%num (neu v / s)%num (fru v / s)%num
         else mkFer (Fin 1 / Fin 3)%num (Fin 1 / Fin 3)%num
                    (Fin 1 / Fin 3)%num).
Proof.
  intros (p & n & f & -> & Hp & Hn & Hf & Hs).
  cbn [pos neu fru add gt lt].
  rewrite (proj2 (Qltb_true 0 (p + n + f))) by lra.
  rewrite !div_Fin by lra.
  eexists _, _, _. split; [reflexivity|].
  rewrite !(FerFacts.Qdiv_one _ _ Hs). repeat split; assumption.
Qed.

Lemma valid_eta (v : FerVector) :
  valid v -> valid (mkFer (pos v) (neu v) (fru v)).
Proof. destruct v. exact (fun H => H). Qed.

Lemma setFusedFer_consistent (v : FerVector) (st : State) :
  valid (faceRef st) -> valid (smoothedSerRef st) -> valid v ->
  consistent (setFusedFer v st).
Proof.
  intros Hf Hs Hv. unfold consistent, setFusedFer.
  cbn [faceRef smoothedSerRef fusedFer fer Reward.positive Reward.neutral
       Reward.frustrated].
  split; [exact Hf|]. split; [exact Hs|]. split; [exact Hv|].
  apply valid_eta, Hv.
Qed.

Lemma step_consistent (st : State) (e : event) :
  consistent st -> event_valid e -> consistent (step st e).
Proof.
  intros (Hface & Hvoice & Hfused & Hfer) He.
  destruct e as [faceFer | | [|res] |]; cbn [step run_cycle event_valid] in *.
  - unfold consistent, setFace.
    cbn [faceRef smoothedSerRef fusedFer fer Reward.positive Reward.neutral
         Reward.frustrated].
    split; [exact He|]. split; [exact Hvoice|]. split; [exact Hfused|].
    apply valid_eta, He.
  - unfold consistent, effect_enabled.
    cbn [faceRef smoothedSerRef fusedFer fer].
    split; [exact Hface|]. split; [exact Hvoice|]. split; assumption.
  - unfold effect_disabled. apply setFusedFer_consistent; assumption.
  - unfold onChunk_response. cbv zeta.
    unfold setVoiceFer at 1 2 3 4 5 6 7 8 9 10.
    cbn [faceRef lambdaRef minVadRef smoothedSerRef chunkCounterRef
         offlineWarnedRef toasts voiceFer fusedFer fer].
    destruct (useVoice _ res).
    + apply setFusedFer_consistent;
        cbn [faceRef smoothedSerRef];
        [assumption | apply smoothSer_valid; assumption |].
      apply fused_valid;
        [apply lam_cases | assumption | apply smoothSer_valid; assumption].
    + apply setFusedFer_consistent; cbn [faceRef smoothedSerRef];
        [assumption | assumption |].
      apply renormalized_valid. assumption.
  - unfold onChunk_failure. apply setFusedFer_consistent; assumption.
Qed.

Lemma session_step_consistent (st : State) (e : session_event) :
  consistent st -> session_event_valid e -> consistent (session_step st e).
Proof.
  intros Hst He. destruct e as [e | |]; cbn [session_step session_event_valid] in *.
  - apply step_consistent; assumption.
  - destruct Hst as (Hface & Hvoice & _ & _).
    unfold start_failed. apply setFusedFer_consistent; assumption.
  - destruct Hst as (Hface & Hvoice & Hfused & _).
    unfold consistent, session_reset.
    cbn [faceRef smoothedSerRef fusedFer fer Reward.positive Reward.neutral
         Reward.frustrated].
    split; [exact Hface|]. split; [exact Hvoice|]. split; [exact Hfused|].
    exists (34 # 100), (33 # 100), (33 # 100).
    split; [reflexivity|]. repeat split; lra.
Qed.

(** X24.  In exact arithmetic: however the hook and the session are
    driven (face updates, which the page also writes to the session's
    [fer]; enabling and disabling; answered and failed uploads; a
    microphone that fails to start; sessions starting and ending; with
    any gating threshold, any VAD reading and any fusion weight, NaN
    included), if the face vectors and the voice readings that come in
    are valid emotion vectors (finite, non-negative, of sum 1) then the
    smoothed voice vector, the fused vector and the session's [fer] stay
    valid emotion vectors. *)
Theorem fusion_keeps_valid (st : State) (es : list session_event) :
  consistent st -> Forall session_event_valid es ->
  consistent (session_run st es).
Proof.
  intros Hst Hes. revert st Hst. unfold session_run.
  induction Hes as [|e es He _ IH]; intros st Hst; [exact Hst|].
  cbn [fold_left]. apply IH, session_step_consistent; assumption.
Qed.

Lemma session_start_consistent :
  consistent (session_start (mkFer (Fin (1 # 2)) (Fin (1 # 4)) (Fin (1 # 4)))).
Proof.
  unfold consistent, session_start.
  cbn [faceRef smoothedSerRef fusedFer fer Reward.positive Reward.neutral
       Reward.frustrated].
  split.
  { exists (1 # 2), (1 # 4), (1 # 4). repeat split; lra. }
  split.
  { exists (1 # 3), (1 # 3), (1 # 3).
    split; [reflexivity|]. repeat split; lra. }
  split.
  { exists (1 # 3), (1 # 3), (1 # 3).
    split; [reflexivity|]. repeat split; lra. }
  exists (34 # 100), (33 # 100), (33 # 100).
  split; [reflexivity|]. repeat split; lra.
Qed.

Lemma example_events_valid : Forall event_valid example_events.
Proof.
  unfold example_events. repeat constructor; cbn [event_valid].
  - exists (1 # 10), (8 # 10), (1 # 10). repeat split; lra.
  - exists 0%Q, 1%Q, 0%Q. repeat split; lra.
  - exists (1 # 2), (1 # 2), 0%Q. repeat split; lra.
Qed.

Lemma example_session_valid : Forall session_event_valid example_session.
Proof.
  unfold example_session. apply Forall_app. split.
  - repeat constructor.
  - apply Forall_map. eapply List.Forall_impl; [|exact example_events_valid].
    intros e He. exact He.
Qed.

Lemma fusion_keeps_valid_witness :
  consistent
    (session_run
       (session_start (mkFer (Fin (1 # 2)) (Fin (1 # 4)) (Fin (1 # 4))))
       example_session).
Proof.
  apply (fusion_keeps_valid
           (session_start (mkFer (Fin (1 # 2)) (Fin (1 # 4)) (Fin (1 # 4))))
           example_session).
  - exact session_start_consistent.
  - exact example_session_valid.
Defined.

Lemma step_toasts (st : State) (e : event) :
  is_enabled e = false ->
  toasts (step st e)
  = toasts st ++ (if negb (offlineWarnedRef st) && is_failed e
                  then ["Speech emotion offline"] else [])
  /\ offlineWarnedRef (step st e) = offlineWarnedRef st || is_failed e.
Proof.
  intros He. destruct e as [faceFer | | [|res] |]; try discriminate He;
    cbn [step run_cycle is_failed]; rewrite ?andb_false_r, ?orb_false_r,
      ?andb_true_r, ?orb_true_r, ?app_nil_r; try (split; reflexivity).
  unfold onChunk_failure, setFusedFer. cbn [toasts offlineWarnedRef].
  destruct (offlineWarnedRef st); cbn [negb]; rewrite ?app_nil_r;
    split; reflexivity.
Qed.

(** X25.  While the hook stays enabled, however many uploads fail, the toast
    [Speech emotion offline] is shown once: exactly once if no warning
    had been shown and some upload fails, not at all otherwise; answered
    uploads and face updates show nothing.  After a failed upload the
    fused vector is the face vector. *)
Theorem offline_toast_once (st : State) (es : list event) :
  forallb (fun e => negb (is_enabled e)) es = true ->
  toasts (run st es)
  = toasts st ++ (if negb (offlineWarnedRef st) && existsb is_failed es
                  then ["Speech emotion offline"] else [])
  /\ offlineWarnedRef (run st es)
     = offlineWarnedRef st || existsb is_failed es
  /\ fusedFer (run st (es ++ [Failed])) = faceRef (run st es).
Proof.
  intros Hes. split; [|split].
  - revert st. induction es as [|e es IH]; intros st.
    + cbn. rewrite andb_false_r, app_nil_r. reflexivity.
    + cbn [forallb] in Hes. apply andb_true_iff in Hes as [He Hes].
      apply negb_true_iff in He.
      unfold run in *. cbn [fold_left existsb].
      rewrite (IH Hes).
      destruct (step_toasts st e He) as [-> ->].
      destruct (offlineWarnedRef st), (is_failed e), (existsb is_failed es);
        cbn [negb andb orb]; rewrite ?app_nil_r; reflexivity.
  - revert st. induction es as [|e es IH]; intros st.
    + cbn. rewrite orb_false_r. reflexivity.
    + cbn [forallb] in Hes. apply andb_true_iff in Hes as [He Hes].
      apply negb_true_iff in He.
      unfold run in *. cbn [fold_left existsb].
      rewrite (IH Hes).
      destruct (step_toasts st e He) as [_ ->].
      symmetry. apply orb_assoc.
  - unfold run. rewrite fold_left_app. reflexivity.
Qed.

Lemma offline_toast_once_witness :
  toasts (run example_state example_events) = ["Speech emotion offline"].
Proof.
  apply (offline_toast_once example_state example_events). reflexivity.
Defined.

Lemma add_non_finite (x y : num) :
  Number_isFinite x = false \/ Number_isFinite y = false ->
  Number_isFinite (x + y) = false.
Proof. destruct x, y; cbn; intros [H|H]; congruence. Qed.

Lemma mul_non_finite (x y : num) :
  Number_isFinite x = false \/ Number_isFinite y = false ->
  Number_isFinite (x * y) = false.
Proof.
  destruct x as [| | |a], y as [| | |c]; cbn; intros [H|H];
    try congruence; try reflexivity;
    try (destruct (a ?= 0)%Q; reflexivity);
    try (destruct (c ?= 0)%Q; reflexivity).
Qed.

Lemma infinite_non_finite (x : num) :
  is_infinite x = true -> Number_isFinite x = false.
Proof. destruct x; cbn; congruence. Qed.

Lemma mixed_non_finite (w c1 c2 : num) :
  Number_isFinite c1 = false \/ Number_isFinite c2 = false ->
  Number_isFinite (w * c1 + (Fin 1 - w) * c2) = false.
Proof.
  intros [H|H]; apply add_non_finite; [left|right]; apply mul_non_finite;
    right; exact H.
Qed.

Lemma smoothSer_non_finite (current newVal : FerVector) (alpha : num) :
  non_finite current \/ non_finite newVal ->
  non_finite (smoothSer current newVal alpha).
Proof.
  unfold non_finite, smoothSer. cbn [pos neu fru].
  intros [[H|[H|H]]|[H|[H|H]]];
    [left | right; left | right; right | left | right; left | right; right];
    apply mixed_non_finite; auto.
Qed.

Lemma step_non_finite (st : State) (e : event) :
  non_finite (smoothedSerRef st) -> non_finite (smoothedSerRef (step st e)).
Proof.
  intros H. destruct e as [faceFer | | [|res] |];
    cbn [step run_cycle]; try exact H.
  unfold onChunk_response, setFusedFer, setVoiceFer. cbv zeta.
  cbn [faceRef lambdaRef minVadRef smoothedSerRef chunkCounterRef
       offlineWarnedRef toasts voiceFer fusedFer fer].
  destruct (useVoice _ res); [|exact H].
  apply smoothSer_non_finite. left. exact H.
Qed.

Lemma session_run_non_finite (st : State) (es : list session_event) :
  non_finite (smoothedSerRef st) ->
  non_finite (smoothedSerRef (session_run st es)).
Proof.
  revert st. unfold session_run.
  induction es as [|e es IH]; intros st H; [exact H|].
  cbn [fold_left]. apply IH. destruct e as [e | |]; cbn [session_step].
  - apply step_non_finite, H.
  - exact H.
  - exact H.
Qed.

Lemma voiced_fused (st : State) (res : SER.SERResponse) :
  useVoice st res = true ->
  let voice :=
    smoothSer (smoothedSerRef st)
              (mkFer (SER.pos res) (SER.neu res) (SER.fru res))
              smoothSer_default_alpha in
  let lam :=
    Math_max (Fin 0)
             (Math_min (Fin 1) (default (Fin (6 # 10)) (lambdaRef st))) in
  let face := faceRef st in
  let mp := (lam * pos face + (Fin 1 - lam) * pos voice)%num in
  let mn := (lam * neu face + (Fin 1 - lam) * neu voice)%num in
  let mf := (lam * fru face + (Fin 1 - lam) * fru voice)%num in
  let s := (mp + mn + mf)%num in
  smoothedSerRef (onChunk_response st res) = voice
  /\ fusedFer (onChunk_response st res)
     = (if (s >? Fin 0)%num
        then mkFer (mp / s)%num (mn / s)%num (mf / s)%num
        else uniform).
Proof.
  intros Hu voice lam face mp mn mf s.
  unfold onChunk_response, setVoiceFer, setFusedFer, useVoice in *.
  cbn [faceRef lambdaRef minVadRef smoothedSerRef fusedFer] in *.
  rewrite Hu. split; reflexivity.
Qed.

Lemma positive_non_finite (s : num) :
  Number_isFinite s = false -> (s >? Fin 0)%num = true -> s = PInf.
Proof. destruct s; cbn; congruence. Qed.

Lemma non_finite_over_infinity (x : num) :
  Number_isFinite x = false -> (x / PInf)%num = NaN.
Proof. destruct x; cbn; congruence. Qed.

Lemma voiced_non_finite (st : State) (res : SER.SERResponse) :
  useVoice st res = true ->
  non_finite (smoothedSerRef st)
  \/ non_finite (mkFer (SER.pos res) (SER.neu res) (SER.fru res)) ->
  non_finite (smoothedSerRef (onChunk_response st res))
  /\ (fusedFer (onChunk_response st res) = uniform
      \/ has_NaN (fusedFer (onChunk_response st res))).
Proof.
  intros Hu H.
  pose proof (smoothSer_non_finite _ _ smoothSer_default_alpha H) as Hs.
  destruct (voiced_fused st res Hu) as [-> ->].
  split; [exact Hs|].
  set (voice := smoothSer _ _ _) in *.
  set (lam := Math_max _ _).
  set (mp := (lam * pos (faceRef st) + (Fin 1 - lam) * pos voice)%num).
  set (mn := (lam * neu (faceRef st) + (Fin 1 - lam) * neu voice)%num).
  set (mf := (lam * fru (faceRef st) + (Fin 1 - lam) * fru voice)%num).
  assert (Number_isFinite mp = false \/ Number_isFinite mn = false
          \/ Number_isFinite mf = false) as Hc.
  { destruct Hs as [Hs|[Hs|Hs]];
      [left | right; left | right; right];
      apply mixed_non_finite; right; exact Hs. }
  assert (Number_isFinite (mp + mn + mf) = false) as Hsum.
  { destruct Hc as [Hc|[Hc|Hc]].
    - apply add_non_finite. left. apply add_non_finite. left. exact Hc.
    - apply add_non_finite. left. apply add_non_finite. right. exact Hc.
    - apply add_non_finite. right. exact Hc. }
  destruct (mp + mn + mf >? Fin 0)%num eqn:E; [|left; reflexivity].
  right. rewrite (positive_non_finite _ Hsum E).
  unfold has_NaN. cbn [pos neu fru].
  destruct Hc as [Hc|[Hc|Hc]];
    [left | right; left | right; right];
    apply non_finite_over_infinity, Hc.
Qed.

(** X26.  A voiced reading with an infinite component (the JSON number
    1e999 is read as Infinity) poisons the voice channel for good: the
    smoothed voice vector keeps a component that is infinite or NaN
    through every later event of the hook and of the session (nothing
    resets it), and in that cycle and in every later voiced cycle the
    fused vector is the uniform vector or has a NaN component, whatever
    the face vector and the later readings are. *)
Theorem infinite_reading_sticks (st : State) (res : SER.SERResponse)
    (es : list session_event) :
  useVoice st res = true ->
  infinite_reading res ->
  let st' := session_run (run_cycle st (Answered res)) es in
  (fusedFer (run_cycle st (Answered res)) = uniform
   \/ has_NaN (fusedFer (run_cycle st (Answered res))))
  /\ non_finite (smoothedSerRef st')
  /\ forall res',
       useVoice st' res' = true ->
       non_finite (smoothedSerRef (run_cycle st' (Answered res')))
       /\ (fusedFer (run_cycle st' (Answered res')) = uniform
           \/ has_NaN (fusedFer (run_cycle st' (Answered res')))).
Proof.
  intros Hu Hinf st'. cbn [run_cycle] in *.
  assert (non_finite (mkFer (SER.pos res) (SER.neu res) (SER.fru res)))
    as Hn.
  { unfold non_finite. cbn [pos neu fru].
    destruct Hinf as [H|[H|H]];
      [left | right; left | right; right]; apply infinite_non_finite, H. }
  destruct (voiced_non_finite st res Hu (or_intror Hn)) as [Hs Hf].
  split; [exact Hf|].
  assert (non_finite (smoothedSerRef st')) as Hs'
    by (apply session_run_non_finite, Hs).
  split; [exact Hs'|].
  intros res' Hu'. apply voiced_non_finite; [exact Hu' | left; exact Hs'].
Qed.

(** The reading (Infinity, 1/2, 1/2) at the start of a session, nine
    events, then the reading (1, 0, 0): the fused vector is not a mixture
    of face and voice. *)
Lemma infinite_reading_sticks_witness :
  has_NaN
    (fusedFer
       (run_cycle
          (session_start (mkFer (Fin (1 # 2)) (Fin (1 # 4)) (Fin (1 # 4))))
          (Answered (SER.mk PInf (Fin (1 # 2)) (Fin (1 # 2)) (Some (Fin 1))))))
  /\ non_finite
       (smoothedSerRef
          (run_cycle
             (session_run
                (run_cycle
                   (session_start
                      (mkFer (Fin (1 # 2)) (Fin (1 # 4)) (Fin (1 # 4))))
                   (Answered (SER.mk PInf (Fin (1 # 2)) (Fin (1 # 2))
                                     (Some (Fin 1)))))
                example_session)
             (Answered (SER.mk (Fin 1) (Fin 0) (Fin 0) (Some (Fin 1)))))).
Proof.
  destruct (infinite_reading_sticks
              (session_start (mkFer (Fin (1 # 2)) (Fin (1 # 4)) (Fin (1 # 4))))
              (SER.mk PInf (Fin (1 # 2)) (Fin (1 # 2)) (Some (Fin 1)))
              example_session)
    as (_ & _ & H).
  - reflexivity.
  - left. reflexivity.
  - split; [left; reflexivity|].
    apply (H (SER.mk (Fin 1) (Fin 0) (Fin 0) (Some (Fin 1)))). reflexivity.
Defined.

End VoiceFacts.

(** ** src/store/serDebug.ts and the streamer's metadata callback *)

Module SerDebugFacts.

Import AudioCapture SerDebug SerDebugSpec StreamSpec AudioSpec.

Lemma take_app_take {B : Type} (n k : nat) (l1 l2 : list B) :
  (n <= k)%nat -> take n (l1 ++ take k l2) = take n (l1 ++ l2).
Proof.
  revert n. induction l1 as [|x l1 IH]; intros n Hn.
  - cbn [app]. rewrite take_take. f_equal. lia.
  - destruct n as [|n]; [reflexivity|]. cbn [app take firstn].
    f_equal. apply IH. lia.
Qed.

Lemma feed_snoc (state : SerDebugState) ms meta :
  feed state (ms ++ [meta]) = setChunk meta (feed state ms).
Proof. unfold feed. rewrite fold_left_app. reflexivity. Qed.

Lemma feed_spec (state : SerDebugState) (ms : list Meta.MicChunkMeta) :
  (length (recentChunks state) <= MAX_CHUNKS)%nat ->
  recentChunks (feed state ms)
  = take MAX_CHUNKS (rev ms ++ recentChunks state)
  /\ sentCount (feed state ms)
     = sentCount state
       + Z.of_nat (length (filter (fun m => Meta.sent m = true) ms))
  /\ duplicateCount (feed state ms)
     = duplicateCount state
       + Z.of_nat (length (filter (fun m => Meta.duplicate m = true) ms))
  /\ lastSent (feed state ms)
     = match last (filter (fun m => Meta.sent m = true) ms) with
       | Some m => Some m
       | None => lastSent state
       end.
Proof.
  intros Hlen. induction ms as [|meta ms IH] using rev_ind.
  - cbn. rewrite take_ge by exact Hlen. repeat split; lia.
  - destruct IH as (Hr & Hs & Hd & Hl).
    rewrite feed_snoc, !filter_app, !length_app, rev_app_distr.
    unfold setChunk.
    cbn [recentChunks sentCount duplicateCount lastSent rev app].
    rewrite Hr, Hs, Hd, Hl. split; [|split; [|split]].
    + change (meta :: take MAX_CHUNKS (rev ms ++ recentChunks state))
        with ([meta] ++ take MAX_CHUNKS (rev ms ++ recentChunks state)).
      rewrite take_app_take by lia. reflexivity.
    + rewrite filter_cons, filter_nil.
      destruct (decide (Meta.sent meta = true)) as [E|E].
      * rewrite E. cbn [length]. lia.
      * apply not_true_is_false in E. rewrite E. cbn [length]. lia.
    + rewrite filter_cons, filter_nil.
      destruct (decide (Meta.duplicate meta = true)) as [E|E].
      * rewrite E. cbn [length]. lia.
      * apply not_true_is_false in E. rewrite E. cbn [length]. lia.
    + rewrite (filter_cons _ meta), filter_nil.
      destruct (decide (Meta.sent meta = true)) as [E|E].
      * rewrite E, last_snoc. reflexivity.
      * apply not_true_is_false in E. rewrite E, app_nil_r. reflexivity.
Qed.

(** X27.  After the store has been passed the records [ms], it holds the 20
    newest records, newest first (never more than 20); [sentCount] and
    [duplicateCount] have grown by the number of records with sent=true
    and with duplicate=true; [lastSent] is the newest record with
    sent=true, or what it was when there is none. *)
Theorem store_keeps_newest (state : SerDebugState)
    (ms : list Meta.MicChunkMeta) :
  (length (recentChunks state) <= MAX_CHUNKS)%nat ->
  recentChunks (feed state ms)
  = take MAX_CHUNKS (rev ms ++ recentChunks state)
  /\ (length (recentChunks (feed state ms)) <= MAX_CHUNKS)%nat
  /\ sentCount (feed state ms)
     = sentCount state
       + Z.of_nat (length (filter (fun m => Meta.sent m = true) ms))
  /\ duplicateCount (feed state ms)
     = duplicateCount state
       + Z.of_nat (length (filter (fun m => Meta.duplicate m = true) ms))
  /\ lastSent (feed state ms)
     = match last (filter (fun m => Meta.sent m = true) ms) with
       | Some m => Some m
       | None => lastSent state
       end.
Proof.
  intros Hlen. destruct (feed_spec state ms Hlen) as (Hr & Hs & Hd & Hl).
  split; [exact Hr|]. split; [|split; [exact Hs|split; [exact Hd|exact Hl]]].
  rewrite Hr, length_take. lia.
Qed.

Lemma store_keeps_newest_witness :
  map Meta.seq
      (recentChunks
         (feed initial (map (fun i => example_meta (Z.of_nat i) false true)
                            (seq 1 25))))
  = map Z.of_nat (rev (seq 6 20))
  /\ sentCount
       (feed initial (map (fun i => example_meta (Z.of_nat i) false true)
                          (seq 1 25))) = 25.
Proof.
  destruct (store_keeps_newest initial
              (map (fun i => example_meta (Z.of_nat i) false true) (seq 1 25)))
    as (Hr & _ & Hs & _).
  - cbn. lia.
  - split; [rewrite Hr | rewrite Hs]; reflexivity.
Defined.

Section Streamer.

Variable sqrtQ : Q -> Q.
Variable float32_bits : num -> Z.

Local Abbreviation processWindows := (processWindows sqrtQ float32_bits).

Lemma run_records cfg st windows st' events :
  onChunkMeta cfg = true ->
  run sqrtQ float32_bits cfg st windows st' events ->
  length (metas events) = length windows
  /\ length (blobs events)
     = length (filter (fun m => Meta.sent m = true) (metas events))
  /\ (length windows
      <= length (filter (fun m => Meta.sent m = true) (metas events))
         + length (filter (fun m => Meta.duplicate m = true) (metas events)))%nat.
Proof.
  intros Hcb Hr.
  induction Hr as [st|st now rawChunk chunk rest st1 ev1 st2 ev2 Hc Ho Hr IH].
  - cbn. repeat split; lia.
  - destruct (StreamFacts.outcome_metas _ _ _ _ _ _ _ _ Ho)
      as (meta & Hm & _ & _ & _ & Hd & Hb).
    destruct IH as (IH1 & IH2 & IH3).
    rewrite Hcb in Hm.
    rewrite StreamFacts.metas_app, StreamFacts.blobs_app, Hm, !length_app, Hb.
    cbn [app length]. rewrite !filter_cons.
    destruct (decide (Meta.sent meta = true)) as [Es|Es].
    + rewrite Es. destruct (decide (Meta.duplicate meta = true));
        cbn [length]; repeat split; lia.
    + apply not_true_is_false in Es. rewrite Es.
      rewrite (Hd Es).
      destruct (decide (true = true)) as [_|N]; [|congruence].
      cbn [length]. repeat split; lia.
Qed.

(** X28.  The streamer wired to the store as the hook does it (the metadata
    callback is [setChunk], the store starts from [reset]): after any
    windows of a stream with a positive sample rate, [sentCount] is the
    number of blobs handed to the chunk handler, the store holds one
    record per window up to 20, and every window is counted as sent or
    as duplicate. *)
Theorem store_counts_uploads cfg (sr : Q) windows st
    (state : SerDebugState) :
  (0 < sr)%Q -> actualSr st = Fin sr -> onChunkMeta cfg = true ->
  exists st' events,
    processWindows cfg st windows = Ok (st', events)
    /\ let store := feed (reset state) (metas events) in
       sentCount store = Z.of_nat (length (blobs events))
       /\ length (recentChunks store) = Nat.min MAX_CHUNKS (length windows)
       /\ Z.of_nat (length windows) <= sentCount store + duplicateCount store.
Proof.
  intros Hpos Hsr Hcb.
  destruct (StreamFacts.processWindows_run sqrtQ float32_bits cfg sr windows
              Hpos st Hsr) as (st' & events & E & Hr).
  exists st', events. split; [exact E|].
  destruct (run_records cfg st windows st' events Hcb Hr) as (Hm & Hb & Hw).
  destruct (feed_spec (reset state) (metas events)) as (Hrc & Hs & Hd & _);
    [cbn; lia|].
  cbv zeta. rewrite Hrc, Hs, Hd, length_take, length_app, length_rev.
  unfold reset, initial.
  cbn [sentCount duplicateCount recentChunks length].
  rewrite Hb, Hm. repeat split; lia.
Qed.

End Streamer.

Lemma store_counts_uploads_witness :
  exists st' events,
    AudioCapture.processWindows sqrt_micro bits_example
      (constructor Examples.example_options) AudioCapture.initial
      [(10, [Fin (1 # 2); Fin (- 1 # 2)]); (20, [Fin 0; Fin 0]);
       (30, [Fin (1 # 4); Fin (1 # 4)])]
    = Ok (st', events)
    /\ sentCount (feed SerDebug.initial (metas events))
       = Z.of_nat (length (blobs events)).
Proof.
  destruct (store_counts_uploads sqrt_micro bits_example
              (constructor Examples.example_options) 16000
              [(10, [Fin (1 # 2); Fin (- 1 # 2)]); (20, [Fin 0; Fin 0]);
               (30, [Fin (1 # 4); Fin (1 # 4)])]
              AudioCapture.initial SerDebug.initial)
    as (st' & events & E & Hs & _).
  - reflexivity.
  - reflexivity.
  - reflexivity.
  - exists st', events. split; [exact E | exact Hs].
Defined.

End SerDebugFacts.

(** ** src/lib/seed.ts *)

Module SeedFacts.

Import Seed.

Lemma toInt32_range (z : Z) : -2147483648 <= toInt32 z < 2147483648.
Proof.
  unfold toInt32.
  pose proof (Z.mod_pos_bound (z + 2147483648) 4294967296 ltac:(lia)). lia.
Qed.

Lemma toInt32_congruent (a b : Z) :
  a mod 4294967296 = b mod 4294967296 -> toInt32 a = toInt32 b.
Proof.
  intros H. unfold toInt32. f_equal.
  rewrite (Z.add_mod a), (Z.add_mod b), H by lia. reflexivity.
Qed.

Lemma next_value (self : SeededRNG) :
  exists u : Z,
    0 <= u < 4294967296
    /\ snd (next self) = Fin (inject_Z u / 4294967296).
Proof.
  unfold next. cbv zeta. cbn [snd].
  match goal with
  | |- context [inject_Z (ushr ?x 0)] => set (w := x)
  end.
  exists (ushr w 0). split.
  - unfold ushr, toUint32. cbn [Z.modulo]. rewrite Z.shiftr_0_r.
    apply Z.mod_pos_bound. lia.
  - reflexivity.
Qed.

Lemma unit_fraction (u : Z) :
  0 <= u < 4294967296 ->
  (0 <= inject_Z u / 4294967296 /\ inject_Z u / 4294967296 < 1)%Q.
Proof.
  intros [H0 H1]. split.
  - apply Qle_shift_div_l; [reflexivity|].
    rewrite Qmult_0_l. change 0%Q with (inject_Z 0). rewrite <- Zle_Qle. exact H0.
  - apply Qlt_shift_div_r; [reflexivity|].
    rewrite Qmult_1_l. change 4294967296%Q with (inject_Z 4294967296).
    rewrite <- Zlt_Qlt. exact H1.
Qed.

Lemma next_unit (self : SeededRNG) :
  exists q : Q, snd (next self) = Fin q /\ (0 <= q)%Q /\ (q < 1)%Q.
Proof.
  destruct (next_value self) as (u & Hu & E).
  exists (inject_Z u / 4294967296)%Q. split; [exact E|].
  apply unit_fraction, Hu.
Qed.

Lemma scaled_floor (q : Q) (m : Z) :
  (0 <= q)%Q -> (q < 1)%Q -> 1 <= m ->
  0 <= Qfloor (q * inject_Z m) <= m - 1.
Proof.
  intros H0 H1 Hm.
  assert (0 < inject_Z m)%Q as Hmq
      by (change 0%Q with (inject_Z 0); rewrite <- Zlt_Qlt; lia).
  split.
  - change 0 with (Qfloor 0). apply Qfloor_resp_le.
    apply Qmult_le_0_compat; lra.
  - assert (Qfloor (q * inject_Z m) < m); [|lia].
    rewrite Zlt_Qlt. eapply Qle_lt_trans; [apply Qfloor_le|].
    rewrite <- (Qmult_1_l (inject_Z m)) at 2.
    apply Qmult_lt_compat_r; assumption.
Qed.

(** X29.  Every draw is in range: [next] is in [0,1) and leaves a 32-bit
    state, and it depends on the state only modulo 2^32; [nextInt] with
    integers [min <= max] is an integer in [min, max]; [nextFloat] with
    [min <= max] is in [min, max], below [max] when [min < max];
    [bernoulli] is never true for [p <= 0] and always true for [p >= 1]. *)
Theorem draws_in_range (self : SeededRNG) (a b : Z) (lo hi : Q) :
  a <= b -> (lo <= hi)%Q ->
  (exists q, snd (next self) = Fin q /\ (0 <= q)%Q /\ (q < 1)%Q)
  /\ -2147483648 <= state (fst (next self)) < 2147483648
  /\ (forall other,
        state other mod 4294967296 = state self mod 4294967296 ->
        next other = next self)
  /\ (exists (q : Q) (k : Z),
        snd (nextInt self (of_Z a) (of_Z b)) = Fin q
        /\ (q == inject_Z k)%Q /\ a <= k <= b)
  /\ (exists x,
        snd (nextFloat self (Fin lo) (Fin hi)) = Fin x
        /\ (lo <= x)%Q /\ (x <= hi)%Q /\ ((lo < hi)%Q -> (x < hi)%Q))
  /\ (forall p, (p <= 0)%Q -> snd (bernoulli self (Fin p)) = false)
  /\ (forall p, (1 <= p)%Q -> snd (bernoulli self (Fin p)) = true)
  /\ fst (nextInt self (of_Z a) (of_Z b)) = fst (next self)
  /\ fst (nextFloat self (Fin lo) (Fin hi)) = fst (next self).
Proof.
  intros Hab Hlh.
  destruct (next_unit self) as (q & Eq & H0 & H1).
  split; [exists q; auto|].
  split; [unfold next; cbv zeta; cbn [fst state]; apply toInt32_range|].
  split.
  { intros other Hs. unfold next. cbv zeta.
    assert (bor (state other) 0 = bor (state self) 0) as ->; [|reflexivity].
    unfold bor. do 2 f_equal. apply toInt32_congruent, Hs. }
  split.
  { unfold nextInt. cbv zeta. cbn [snd]. rewrite Eq.
    unfold of_Z. cbn [sub neg add mul Math_floor].
    set (m := (inject_Z b + - inject_Z a + 1)%Q).
    assert (m == inject_Z (b - a + 1))%Q as Hm.
    { unfold m, Z.sub. rewrite !inject_Z_plus, inject_Z_opp. reflexivity. }
    pose proof (scaled_floor q (b - a + 1) H0 H1 ltac:(lia)) as Hf.
    eexists _, (Qfloor (q * m) + a). split; [reflexivity|]. split.
    - rewrite inject_Z_plus. reflexivity.
    - rewrite Hm. lia. }
  split.
  { unfold nextFloat. cbv zeta. cbn [snd]. rewrite Eq.
    cbn [sub neg add mul].
    eexists. split; [reflexivity|].
    assert (0 <= q * (hi + - lo))%Q by (apply Qmult_le_0_compat; lra).
    assert (q * (hi + - lo) <= 1 * (hi + - lo))%Q
      by (apply Qmult_le_compat_r; lra).
    split; [lra|]. split; [lra|].
    intros Hlt.
    assert (q * (hi + - lo) < 1 * (hi + - lo))%Q
      by (apply Qmult_lt_compat_r; lra).
    lra. }
  split.
  { intros p Hp. unfold bernoulli. cbv zeta. cbn [snd]. rewrite Eq.
    cbn [lt]. apply Qltb_false. lra. }
  split.
  { intros p Hp. unfold bernoulli. cbv zeta. cbn [snd]. rewrite Eq.
    cbn [lt]. apply Qltb_true. lra. }
  split; reflexivity.
Qed.

Lemma draws_in_range_witness :
  exists (q : Q) (k : Z),
    snd (nextInt (constructor 42) (of_Z 1) (of_Z 6)) = Fin q
    /\ (q == inject_Z k)%Q /\ 1 <= k <= 6.
Proof.
  destruct (draws_in_range (constructor 42) 1 6 0 1) as (_ & _ & _ & H & _).
  - lia.
  - lra.
  - exact H.
Defined.

End SeedFacts.

(** ** src/lib/policy/__tests__/linucb.selfcheck.ts: [runLinucbSelfCheck] *)

Module SelfCheckFacts.

Import Seed LinUCBCheck LinUCBShape SelfCheck.

Lemma registered_shaped (self : LinUCB) (armId : string) :
  shaped self -> shaped (fst (getOrCreateContext self armId)).
Proof.
  intros Hs. pose proof (UpdateFacts.created_shape self armId Hs) as Hc.
  unfold getOrCreateContext in *.
  destruct (contexts self !! armId) as [context|] eqn:E; cbn [fst snd] in *;
    [exact Hs|].
  intros arm ctx H. cbn [contexts d] in *.
  destruct (decide (armId = arm)) as [<-|Hne].
  - rewrite lookup_insert_eq in H. injection H as <-. exact Hc.
  - rewrite lookup_insert_ne in H by exact Hne. eapply Hs, H.
Qed.

Lemma accuracy_threshold (c : Z) :
  ((of_Z c / of_Z 200)%num >? Fin (7 # 10))%num = (140 <? c)%Z.
Proof.
  unfold of_Z, gt. rewrite div_Fin by (intros H; discriminate H).
  cbn [lt].
  destruct (140 <? c)%Z eqn:E.
  - apply Z.ltb_lt in E. apply Qltb_true.
    apply Qlt_shift_div_l; [reflexivity|].
    rewrite Zlt_Qlt in E. change (inject_Z 140) with 140%Q in E.
    change (inject_Z 200) with 200%Q. lra.
  - apply Z.ltb_ge in E. apply Qltb_false.
    apply Qle_shift_div_r; [reflexivity|].
    rewrite Zle_Qle in E. change (inject_Z 140) with 140%Q in E.
    change (inject_Z 200) with 200%Q. lra.
Qed.

Section Score.

Variable sqrtQ : Q -> Q.

Local Abbreviation iteration := (iteration sqrtQ).
Local Abbreviation iterations := (iterations sqrtQ).

Lemma iteration_ok (s : Loop) :
  d (linucb s) = 2%nat -> shaped (linucb s) ->
  exists s',
    iteration s = Ok s'
    /\ correctSelections s <= correctSelections s' <= correctSelections s + 1
    /\ d (linucb s') = 2%nat /\ shaped (linucb s').
Proof.
  intros Hd Hs. unfold iteration, SelfCheck.iteration. cbv zeta.
  set (features := [snd (nextFloat (rng s) (Fin 0) (Fin 1));
                    snd (nextFloat (fst (nextFloat (rng s) (Fin 0) (Fin 1)))
                                   (Fin 0) (Fin 1))]).
  destruct (SelectArmFacts.selectArm_returns sqrtQ (linucb s) features
              "arm0" Hd Hs) as (M0 & _ & _ & ->).
  cbn [rbind fst snd].
  destruct (SelectArmFacts.getOrCreateContext_frame (linucb s) "arm0")
    as (Hd0 & _ & _ & _). cbv zeta in Hd0.
  pose proof (registered_shaped (linucb s) "arm0" Hs) as Hs0.
  set (l0 := fst (getOrCreateContext (linucb s) "arm0")) in *.
  destruct (SelectArmFacts.selectArm_returns sqrtQ l0 features "arm1"
              ltac:(congruence) Hs0) as (M1 & _ & _ & ->).
  cbn [rbind fst snd].
  destruct (SelectArmFacts.getOrCreateContext_frame l0 "arm1")
    as (Hd1 & _ & _ & _). cbv zeta in Hd1.
  pose proof (registered_shaped l0 "arm1" Hs0) as Hs1.
  set (l1 := fst (getOrCreateContext l0 "arm1")) in *.
  eexists. split; [reflexivity|]. cbn [correctSelections linucb].
  split; [destruct (String.eqb _ _); lia|].
  match goal with
  | |- d (update l1 features ?r ?arm) = _ /\ _ =>
      destruct (UpdateFacts.update_spec l1 features r arm Hs1)
        as (_ & _ & _ & _ & _ & _ & _ & Hd2 & _ & Hs2)
  end.
  split; [congruence | exact Hs2].
Qed.

Lemma iterations_ok (n : nat) (s : Loop) :
  d (linucb s) = 2%nat -> shaped (linucb s) ->
  exists s',
    iterations n s = Ok s'
    /\ correctSelections s <= correctSelections s'
       <= correctSelections s + Z.of_nat n
    /\ d (linucb s') = 2%nat /\ shaped (linucb s').
Proof.
  revert s. induction n as [|n IH]; intros s Hd Hs.
  - exists s. cbn [SelfCheck.iterations].
    split; [reflexivity|]. split; [lia|]. split; assumption.
  - destruct (iteration_ok s Hd Hs) as (s1 & E1 & Hc1 & Hd1 & Hs1).
    destruct (IH s1 Hd1 Hs1) as (s2 & E2 & Hc2 & Hd2 & Hs2).
    exists s2. cbn [SelfCheck.iterations]. rewrite E1. cbn [rbind].
    split; [exact E2|]. split; [lia|]. split; assumption.
Qed.

(** X30.  The loop of the self-check never throws: from a two-dimensional
    bandit whose arm states have its dimension, any number of iterations
    runs to the end, counts at most one correct selection per iteration
    and leaves such a bandit.  So [runLinucbSelfCheck] never reports an
    error: it reports the accuracy of its 200 iterations, and passes
    exactly when more than 140 of them were correct. *)
Theorem selfcheck_never_errors :
  (forall (n : nat) (s : Loop),
      d (linucb s) = 2%nat -> shaped (linucb s) ->
      exists s',
        iterations n s = Ok s'
        /\ correctSelections s <= correctSelections s'
           <= correctSelections s + Z.of_nat n
        /\ d (linucb s') = 2%nat /\ shaped (linucb s'))
  /\ exists correct : Z,
       0 <= correct <= 200
       /\ runLinucbSelfCheck sqrtQ
          = mkOutcome (140 <? correct)%Z
                      (Accuracy (of_Z correct / of_Z 200)%num correct 200
                                (140 <? correct)%Z).
Proof.
  split; [exact iterations_ok|].
  destruct (iterations_ok totalIterations
              (mkLoop (Seed.constructor 42) (constructor 2 (Fin 1)) 0))
    as (s & E & Hc & _).
  - reflexivity.
  - intros arm ctx H. cbn in H. rewrite lookup_empty in H. discriminate.
  - exists (correctSelections s). cbn [correctSelections] in Hc.
    split; [unfold totalIterations in Hc; lia|].
    unfold runLinucbSelfCheck. rewrite E. cbv zeta.
    change (Z.of_nat totalIterations) with 200.
    rewrite accuracy_threshold. reflexivity.
Qed.

End Score.

Lemma selfcheck_never_errors_witness :
  exists s',
    iterations AudioSpec.sqrt_micro 3
      (mkLoop (Seed.constructor 42) (constructor 2 (Fin 1)) 0) = Ok s'
    /\ d (linucb s') = 2%nat.
Proof.
  destruct (proj1 (selfcheck_never_errors AudioSpec.sqrt_micro) 3%nat
              (mkLoop (Seed.constructor 42) (constructor 2 (Fin 1)) 0))
    as (s' & E & _ & Hd & _).
  - reflexivity.
  - intros arm ctx H. cbn in H. rewrite lookup_empty in H. discriminate.
  - exists s'. split; [exact E | exact Hd].
Defined.

End SelfCheckFacts.
